(** * Cross-chain relay listener and layered configuration loader

    A shallow embedding of [script.py] (the bridge event listener:
    [BlockchainConnector], [EventListener], [EventProcessor]) and of
    [loader.py] ([ConfigLoader]), with the properties of the relay engine
    stated over it.

    Conventions.
    - Python integers are unbounded: they are [Z].
    - A call that may raise returns a [res]; the exception classes the
      source names in its [except] clauses are constructors of [exn].
    - The ledger RPC client, the gas oracle, the clock and the file system
      are collaborators: what each of their calls answers in one cycle of
      the main loop is a field of a record ([world], [dest_world]).
    - Everything the program does to the outside is an [effect]; a run
      yields the list of its effects in program order. *)

From Stdlib Require Import ZArith Lia Ascii String List.
From Stdlib Require Import Floats.SpecFloat.
From stdpp Require Import base numbers list strings gmap.

Local Open Scope string_scope.
Local Open Scope list_scope.
Local Open Scope Z_scope.

(** ** Python exceptions and results *)

(** The exception classes that occur in the two files.  [KeyboardInterrupt]
    derives from [BaseException] only; every other class derives from
    [Exception]. *)
Inductive exn :=
| KeyboardInterrupt
| BlockNotFound
| FileNotFoundError
| PermissionError
| UnicodeDecodeError
| JSONDecodeError
| AttributeError
| TypeError
| ValueError
| OverflowError
| ConnectionError
| RecursionError
| OtherException (name : string).

(** [isinstance(e, Exception)] *)
Definition is_Exception (e : exn) : bool :=
  match e with
  | KeyboardInterrupt => false
  | _ => true
  end.

Definition exn_eqb (a b : exn) : bool :=
  match a, b with
  | KeyboardInterrupt, KeyboardInterrupt
  | BlockNotFound, BlockNotFound
  | FileNotFoundError, FileNotFoundError
  | PermissionError, PermissionError
  | UnicodeDecodeError, UnicodeDecodeError
  | JSONDecodeError, JSONDecodeError
  | AttributeError, AttributeError
  | TypeError, TypeError
  | ValueError, ValueError
  | OverflowError, OverflowError
  | ConnectionError, ConnectionError
  | RecursionError, RecursionError => true
  | OtherException n, OtherException m => String.eqb n m
  | _, _ => false
  end.

Inductive res (A : Type) :=
| Ok (a : A)
| Raise (e : exn).
Arguments Ok {A} a.
Arguments Raise {A} e.

Definition res_bind {A B} (r : res A) (k : A -> res B) : res B :=
  match r with
  | Ok a => k a
  | Raise e => Raise e
  end.

(** [try: body  except (c1, c2, ...): handler] *)
Definition try_except {A} (body : res A) (catches : exn -> bool) (handler : res A) : res A :=
  match body with
  | Ok a => Ok a
  | Raise e => if catches e then handler else Raise e
  end.

(** ** Values read from JSON *)

(** What [json.load] builds: [None], [bool], [int], [float], [str], [list]
    and [dict] with [str] keys. *)
#[warnings="-register-all"]
Inductive json :=
| JNull
| JBool (b : bool)
| JInt (n : Z)
| JFloat (f : spec_float)
| JString (s : string)
| JArray (l : list json)
| JObject (o : gmap string json).

(** *** The builtin [int] *)

(** ASCII white space, as [str.strip] and [int] see it. *)
Definition is_space (c : ascii) : bool :=
  let n := nat_of_ascii c in
  ((9 <=? n)%nat && (n <=? 13)%nat) || ((28 <=? n)%nat && (n <=? 32)%nat).

Definition is_digit (c : ascii) : bool :=
  let n := nat_of_ascii c in (48 <=? n)%nat && (n <=? 57)%nat.

Definition digit_val (c : ascii) : Z := Z.of_nat (nat_of_ascii c - 48).

Fixpoint lstrip (s : list ascii) : list ascii :=
  match s with
  | c :: s' => if is_space c then lstrip s' else s
  | [] => []
  end.

Definition strip (s : list ascii) : list ascii :=
  lstrip (rev (lstrip (rev s))).

(** Decimal digits, where one underscore may stand between two digits. *)
Fixpoint digits_value (acc : Z) (after_digit : bool) (s : list ascii) : option Z :=
  match s with
  | [] => if after_digit then Some acc else None
  | c :: s' =>
      if is_digit c then digits_value (10 * acc + digit_val c) true s'
      else if Ascii.eqb c "_" && after_digit then digits_value acc false s'
      else None
  end.

(** [int(s)] for an ASCII [str] in base ten: surrounding white space, an
    optional sign, digits.  (The cap recent interpreters put on the number
    of digits is not modelled.) *)
Definition int_of_str (s : string) : res Z :=
  let body := strip (list_ascii_of_string s) in
  let parsed :=
    match body with
    | c :: rest =>
        if Ascii.eqb c "-" then Z.opp <$> digits_value 0 false rest
        else if Ascii.eqb c "+" then digits_value 0 false rest
        else digits_value 0 false body
    | [] => None
    end in
  match parsed with
  | Some n => Ok n
  | None => Raise ValueError
  end.

(** [int(f)] for a [float]: truncation towards zero. *)
Definition int_of_float (f : spec_float) : res Z :=
  match f with
  | S754_zero _ => Ok 0
  | S754_infinity _ => Raise OverflowError
  | S754_nan => Raise ValueError
  | S754_finite s m e =>
      let mag := if 0 <=? e then Z.pos m * 2 ^ e else Z.pos m / 2 ^ (- e) in
      Ok (if s then - mag else mag)
  end.

(** [int(v)] *)
Definition py_int (v : json) : res Z :=
  match v with
  | JInt n => Ok n
  | JBool b => Ok (if b then 1 else 0)
  | JFloat f => int_of_float f
  | JString s => int_of_str s
  | JNull | JArray _ | JObject _ => Raise TypeError
  end.

(** [state.get(key, default)]: only a [dict] has the method. *)
Definition py_get (state : json) (key : string) (fallback : json) : res json :=
  match state with
  | JObject o => Ok (default fallback (o !! key))
  | _ => Raise AttributeError
  end.

(** ** Configuration *)

(** The entries of [CONFIG] that the listener reads. *)
Record config := {
  start_block : Z;
  poll_interval_seconds : Z;
  block_processing_batch_size : Z
}.

Definition CONFIG : config := {|
  start_block := 1000000;
  poll_interval_seconds := 15;
  block_processing_batch_size := 100
|}.

(** ** The checkpoint file *)

(** The state file, seen through [open(self.state_file, 'r')] followed by
    [json.load]: either the pair raises ([FileNotFoundError] for a missing
    file, [JSONDecodeError] for text that is not JSON, [PermissionError],
    [UnicodeDecodeError], ...), or it yields a value. *)
Inductive state_file :=
| Unloadable (e : exn)
| Holds (v : json).

Definition read_json (f : state_file) : res json :=
  match f with
  | Unloadable e => Raise e
  | Holds v => Ok v
  end.

(** [EventListener._load_state]; its two log lines are left out. *)
Definition _load_state (cfg : config) (f : state_file) : res Z :=
  try_except
    (res_bind (read_json f) (fun state =>
     res_bind (py_get state "last_processed_block" (JInt (start_block cfg))) (fun v =>
     py_int v)))
    (fun e => exn_eqb e FileNotFoundError || exn_eqb e JSONDecodeError)
    (Ok (start_block cfg)).

(** What [json.dump({'last_processed_block': h}, f)] leaves in the file. *)
Definition dumped_state (h : Z) : state_file :=
  Holds (JObject {[ "last_processed_block" := JInt h ]}).


(** ** Events, transactions and effects *)

Definition address := string.

(** A decoded [TokensLocked] log entry: the fields [BRIDGE_CONTRACT_ABI]
    gives [event['args']], with the transaction hash and block number. *)
Record lock_event := {
  args_from : address;
  args_toChainId : Z;
  args_amount : Z;
  args_nonce : Z;
  transactionHash : string;
  blockNumber : Z
}.

(** The dictionary [build_transaction] returns for [unlockTokens(recipient,
    amount, sourceNonce)]: the arguments of the call and the transaction
    parameters [process_event] passes. *)
Record tx_data := {
  unlock_recipient : address;
  unlock_amount : Z;
  unlock_sourceNonce : Z;
  tx_from : address;
  tx_nonce : Z;
  tx_gas : Z;
  tx_gasPrice : Z
}.

(** The lines the two loggers emit at level INFO and above (the handlers
    are configured with [level=logging.INFO], [debug] lines are dropped). *)
Inductive message :=
| MsgStarting
| MsgDisconnected
| MsgNoNewBlocks (latest : Z)
| MsgScanning (from_block to_block : Z)
| MsgShutdown
| MsgUnexpected (e : exn)
| MsgContractMissing
| MsgFound (ev : lock_event)
| MsgWillRetry (from_block to_block : Z)
| MsgFetchError (from_block to_block : Z) (e : exn)
| MsgNotInitialized
| MsgProcessing (ev : lock_event)
| MsgWouldSend (tx_hash : string)
| MsgProcessFailed (ev : lock_event) (e : exn)
| MsgGasFallback (e : exn)
| MsgConnected
| MsgConnectionError (e : exn)
| MsgNotConnected
| MsgBlockNumberFailed (e : exn).

(** What the program does to its collaborators. *)
Inductive effect :=
| Log (m : message)
| Sleep (seconds : Z)
| Connect
| GetLogs (from_block to_block : Z)
| SignTransaction (tx : tx_data)
| SendRawTransaction (tx_hash : string)
| Dump (h : Z).

(** ** A state, error and trace monad *)

Definition M (S A : Type) : Type := S -> res A * S * list effect.

Definition ret {S A} (a : A) : M S A := fun s => (Ok a, s, []).

Definition bind {S A B} (m : M S A) (k : A -> M S B) : M S B :=
  fun s =>
    match m s with
    | (Ok a, s1, t1) => let '(r, s2, t2) := k a s1 in (r, s2, t1 ++ t2)
    | (Raise e, s1, t1) => (Raise e, s1, t1)
    end.

#[global] Instance M_ret {S} : MRet (M S) := @ret S.
#[global] Instance M_bind {S} : MBind (M S) := fun A B k m => bind m k.

Definition lift {S A} (r : res A) : M S A := fun s => (r, s, []).
Definition raise {S A} (e : exn) : M S A := lift (Raise e).
Definition emit {S} (e : effect) : M S unit := fun s => (Ok tt, s, [e]).
Definition log {S} (m : message) : M S unit := emit (Log m).
Definition gets {S A} (f : S -> A) : M S A := fun s => (Ok (f s), s, []).
Definition modify {S} (f : S -> S) : M S unit := fun s => (Ok tt, f s, []).

(** [try: body  except ...:]; [handler e] is the first clause that matches
    [e], if there is one. *)
Definition try_catch {S A} (body : M S A) (handler : exn -> option (M S A)) : M S A :=
  fun s =>
    match body s with
    | (Ok a, s1, t1) => (Ok a, s1, t1)
    | (Raise e, s1, t1) =>
        match handler e with
        | Some h => let '(r, s2, t2) := h s1 in (r, s2, t1 ++ t2)
        | None => (Raise e, s1, t1)
        end
    end.

(** The clause [except Exception as e: h e]. *)
Definition except_Exception {S A} (h : exn -> M S A) : exn -> option (M S A) :=
  fun e => if is_Exception e then Some (h e) else None.

Definition result_of {S A} (x : res A * S * list effect) : res A := x.1.1.
Definition state_of {S A} (x : res A * S * list effect) : S := x.1.2.
Definition trace_of {S A} (x : res A * S * list effect) : list effect := x.2.

(** ** [EventProcessor] *)

(** The attributes [__init__] sets: [dest_connector.web3] (a handle or
    [None]), [dest_bridge_contract] (a contract or [None]) and
    [relayer_account] (an account, of which only the address is read, or
    [None]). *)
Record processor := {
  dest_web3 : bool;
  dest_bridge_contract : bool;
  relayer_account : option address
}.

(** What the destination side answers while one event is processed. *)
Record dest_world := {
  (** [dest_bridge_contract.functions.unlockTokens(recipient, amount, nonce)] *)
  d_unlock : res unit;
  (** [w3.eth.get_transaction_count(relayer_account.address)] *)
  d_tx_count : res Z;
  (** [requests.get(...)], [raise_for_status()], [response.json()['fast']] *)
  d_oracle : res Z;
  (** [dest_connector.web3.eth.gas_price] *)
  d_node_gas : res Z;
  (** [.build_transaction({...})] *)
  d_build : res unit;
  (** [relayer_account.sign_transaction(tx_data)], the hash of the result *)
  d_sign : res string
}.

Definition MAX_WEI : Z := 2 ^ 256 - 1.

(** [Web3.to_wei(n, 'gwei')] for an integer [n]: the product must lie
    between 0 and [2**256 - 1]. *)
Definition to_wei_gwei (n : Z) : res Z :=
  let wei := n * 1000000000 in
  if (0 <=? wei) && (wei <=? MAX_WEI) then Ok wei else Raise ValueError.

(** [EventProcessor._get_gas_price] *)
Definition _get_gas_price (dw : dest_world) : M processor Z :=
  try_catch
    (gas_price_gwei ← lift (d_oracle dw);
     lift (to_wei_gwei gas_price_gwei))
    (except_Exception (fun e =>
       log (MsgGasFallback e);;
       w3 ← gets dest_web3;
       if w3 : bool then lift (d_node_gas dw)
       else lift (to_wei_gwei 20))).

(** [EventProcessor.process_event] *)
Definition process_event (dw : dest_world) (event : lock_event) : M processor unit :=
  contract ← gets dest_bridge_contract;
  account ← gets relayer_account;
  w3 ← gets dest_web3;
  match contract, account, w3 with
  | true, Some relayer, true =>
      try_catch
        (let recipient := args_from event in
         let amount := args_amount event in
         let nonce := args_nonce event in
         log (MsgProcessing event);;
         lift (d_unlock dw);;
         count ← lift (d_tx_count dw);
         gas_price ← _get_gas_price dw;
         lift (d_build dw);;
         let tx := {| unlock_recipient := recipient;
                      unlock_amount := amount;
                      unlock_sourceNonce := nonce;
                      tx_from := relayer;
                      tx_nonce := count;
                      tx_gas := 200000;
                      tx_gasPrice := gas_price |} in
         emit (SignTransaction tx);;
         tx_hash ← lift (d_sign dw);
         log (MsgWouldSend tx_hash))
        (except_Exception (fun e => log (MsgProcessFailed event e)))
  | _, _, _ => log MsgNotInitialized
  end.

(** A destination that answers every call. *)
Definition dest_fine : dest_world := {|
  d_unlock := Ok tt;
  d_tx_count := Ok 7;
  d_oracle := Ok 30;
  d_node_gas := Ok 25000000000;
  d_build := Ok tt;
  d_sign := Ok "0xabc"
|}.

Definition processor_ready : processor := {|
  dest_web3 := true;
  dest_bridge_contract := true;
  relayer_account := Some "0xrelayer"
|}.

Definition lock1 : lock_event := {|
  args_from := "0xalice";
  args_toChainId := 80001;
  args_amount := 500;
  args_nonce := 1;
  transactionHash := "0x01";
  blockNumber := 120
|}.


(** ** [BlockchainConnector] and [EventListener] *)

(** The attributes of the listener after [__init__]: whether
    [source_connector.web3] is a handle, whether [source_bridge_contract]
    is a contract, the processor, the checkpoint in memory and the state
    file on disk. *)
Record listener := {
  source_web3 : bool;
  source_bridge_contract : bool;
  event_processor : processor;
  last_processed_block : Z;
  file : state_file
}.

Definition set_source_web3 (b : bool) (s : listener) : listener :=
  {| source_web3 := b;
     source_bridge_contract := source_bridge_contract s;
     event_processor := event_processor s;
     last_processed_block := last_processed_block s;
     file := file s |}.

Definition set_last_processed_block (h : Z) (s : listener) : listener :=
  {| source_web3 := source_web3 s;
     source_bridge_contract := source_bridge_contract s;
     event_processor := event_processor s;
     last_processed_block := h;
     file := file s |}.

Definition set_file (f : state_file) (s : listener) : listener :=
  {| source_web3 := source_web3 s;
     source_bridge_contract := source_bridge_contract s;
     event_processor := event_processor s;
     last_processed_block := last_processed_block s;
     file := f |}.

Definition set_event_processor (p : processor) (s : listener) : listener :=
  {| source_web3 := source_web3 s;
     source_bridge_contract := source_bridge_contract s;
     event_processor := p;
     last_processed_block := last_processed_block s;
     file := file s |}.

(** A method of [self.event_processor], called from the listener. *)
Definition on_processor {A} (m : M processor A) : M listener A :=
  fun s => let '(r, p, t) := m (event_processor s) in (r, set_event_processor p s, t).

(** How writing the state file ends: [open(..., 'w')] raises and the file
    is as before, or the file is truncated and the write raises, or the
    dump completes. *)
Inductive dump_outcome :=
| Dumped
| OpenFails (e : exn)
| WriteFails (e : exn).

(** What the outside answers during one cycle of the main loop. *)
Record world := {
  (** [web3.is_connected()], asked by [run] *)
  w_live : res bool;
  (** [web3.is_connected()], asked by [connect] *)
  w_connect : res bool;
  (** [web3.is_connected()], asked by [get_latest_block_number] *)
  w_live_again : res bool;
  (** [web3.eth.block_number] *)
  w_block_number : res Z;
  (** [create_filter(fromBlock, toBlock).get_all_entries()] *)
  w_get_logs : res (list lock_event);
  (** the destination side, for the i-th event of the batch *)
  w_dest : nat -> dest_world;
  (** writing the state file *)
  w_dump : dump_outcome;
  (** [time.sleep] in the [BlockNotFound] clause *)
  w_nap : res unit;
  (** [time.sleep] that ends the cycle, before [continue] or after the scan *)
  w_sleep : res unit;
  (** [time.sleep] in the clause of the main loop for [Exception] *)
  w_backoff : res unit
}.

(** [time.sleep(seconds)]: a negative length is a [ValueError]; the call can
    be interrupted. *)
Definition sleep {S} (seconds : Z) (outcome : res unit) : M S unit :=
  if seconds <? 0 then raise ValueError
  else emit (Sleep seconds);; lift outcome.

(** [BlockchainConnector.is_connected] *)
Definition is_connected (probe : res bool) : M listener bool :=
  w3 ← gets source_web3;
  if w3 : bool then lift probe else ret false.

(** [BlockchainConnector.connect] *)
Definition connect (probe : res bool) : M listener unit :=
  try_catch
    (modify (set_source_web3 true);;
     emit Connect;;
     live ← lift probe;
     if live : bool then log MsgConnected else raise ConnectionError)
    (except_Exception (fun e =>
       log (MsgConnectionError e);;
       modify (set_source_web3 false))).

(** [BlockchainConnector.get_latest_block_number] *)
Definition get_latest_block_number (w : world) : M listener (option Z) :=
  live ← is_connected (w_live_again w);
  w3 ← gets source_web3;
  if negb live || negb w3 then
    log MsgNotConnected;; ret None
  else
    try_catch
      (n ← lift (w_block_number w); ret (Some n))
      (except_Exception (fun e => log (MsgBlockNumberFailed e);; ret None)).

(** [EventListener._save_state] *)
Definition _save_state (w : world) : M listener unit :=
  match w_dump w with
  | OpenFails e => raise e
  | WriteFails e => modify (set_file (Unloadable JSONDecodeError));; raise e
  | Dumped =>
      h ← gets last_processed_block;
      modify (set_file (dumped_state h));;
      emit (Dump h)
  end.

(** The loop [for event in events:] of [_process_block_range]; [i] counts
    the events already handled. *)
Fixpoint for_event_in (w : world) (i : nat) (events : list lock_event) : M listener unit :=
  match events with
  | [] => ret tt
  | event :: rest =>
      log (MsgFound event);;
      on_processor (process_event (w_dest w i) event);;
      for_event_in w (S i) rest
  end.

(** [EventListener._process_block_range] *)
Definition _process_block_range (cfg : config) (w : world) (from_block to_block : Z)
  : M listener unit :=
  contract ← gets source_bridge_contract;
  if negb contract then log MsgContractMissing
  else
    try_catch
      (emit (GetLogs from_block to_block);;
       events ← lift (w_get_logs w);
       match events with
       | [] => ret tt
       | _ => for_event_in w 0 events
       end)
      (fun e =>
         match e with
         | BlockNotFound =>
             Some (log (MsgWillRetry from_block to_block);;
                   sleep (poll_interval_seconds cfg) (w_nap w))
         | _ => except_Exception (fun e => log (MsgFetchError from_block to_block e)) e
         end).

(** The part of [run] under "Determine the range of blocks to scan", up to
    the sleep that ends the cycle. *)
Definition scan_from (cfg : config) (w : world) (latest_block : Z) : M listener unit :=
  checkpoint ← gets last_processed_block;
  let from_block := checkpoint + 1 in
  let to_block :=
    Z.min latest_block (from_block + block_processing_batch_size cfg - 1) in
  (if from_block >? latest_block then
     log (MsgNoNewBlocks latest_block)
   else
     log (MsgScanning from_block to_block);;
     _process_block_range cfg w from_block to_block;;
     modify (set_last_processed_block to_block);;
     _save_state w);;
  sleep (poll_interval_seconds cfg) (w_sleep w).

(** The body of [try:] in the loop of [run]; both [continue] and falling
    off the end lead to the next iteration. *)
Definition cycle_body (cfg : config) (w : world) : M listener unit :=
  live ← is_connected (w_live w);
  if negb live then
    log MsgDisconnected;;
    connect (w_connect w);;
    sleep (poll_interval_seconds cfg) (w_sleep w)
  else
    latest ← get_latest_block_number w;
    match latest with
    | None => sleep (poll_interval_seconds cfg) (w_sleep w)
    | Some latest_block => scan_from cfg w latest_block
    end.

Inductive control := Continue | Break.

(** One iteration of [while True:] with its two [except] clauses. *)
Definition cycle (cfg : config) (w : world) : M listener control :=
  try_catch
    (cycle_body cfg w;; ret Continue)
    (fun e =>
       match e with
       | KeyboardInterrupt => Some (log MsgShutdown;; ret Break)
       | _ =>
           except_Exception (fun e =>
             log (MsgUnexpected e);;
             sleep (poll_interval_seconds cfg * 2) (w_backoff w);;
             ret Continue) e
       end).

(** The loop of [EventListener.run] over the first [length ws] iterations:
    [Ok Continue] when the loop is still running after them, [Ok Break] when
    it has left through [break], [Raise e] when [e] has left [run]. *)
Fixpoint iterate (cfg : config) (ws : list world) : M listener control :=
  match ws with
  | [] => ret Continue
  | w :: ws' =>
      c ← cycle cfg w;
      match c with
      | Break => ret Break
      | Continue => iterate cfg ws'
      end
  end.

(** [EventListener.run] *)
Definition run (cfg : config) (ws : list world) : M listener control :=
  log MsgStarting;; iterate cfg ws.

(** A quiet cycle: the source is live at height [latest], the range holds
    [events], every write and sleep completes. *)
Definition world_fine (latest : Z) (events : list lock_event) : world := {|
  w_live := Ok true;
  w_connect := Ok true;
  w_live_again := Ok true;
  w_block_number := Ok latest;
  w_get_logs := Ok events;
  w_dest := fun _ => dest_fine;
  w_dump := Dumped;
  w_nap := Ok tt;
  w_sleep := Ok tt;
  w_backoff := Ok tt
|}.

(** The same cycle, but the range query answers [logs]. *)
Definition world_logs (latest : Z) (logs : res (list lock_event)) : world := {|
  w_live := Ok true;
  w_connect := Ok true;
  w_live_again := Ok true;
  w_block_number := Ok latest;
  w_get_logs := logs;
  w_dest := fun _ => dest_fine;
  w_dump := Dumped;
  w_nap := Ok tt;
  w_sleep := Ok tt;
  w_backoff := Ok tt
|}.

Definition listener_at (checkpoint : Z) : listener := {|
  source_web3 := true;
  source_bridge_contract := true;
  event_processor := processor_ready;
  last_processed_block := checkpoint;
  file := dumped_state checkpoint
|}.

(** * Vocabulary of the statements *)


(** [r] is the shutdown signal. *)
Definition interrupted {A} (r : res A) : bool :=
  match r with
  | Raise KeyboardInterrupt => true
  | _ => false
  end.

(** No call to the destination side is cut short by the shutdown signal;
    each may still fail with any [Exception]. *)
Definition uninterrupted (dw : dest_world) : bool :=
  negb (interrupted (d_unlock dw) || interrupted (d_tx_count dw) ||
        interrupted (d_oracle dw) || interrupted (d_node_gas dw) ||
        interrupted (d_build dw) || interrupted (d_sign dw)).

(** What a batch leaves in the trace when every event is handed to
    [process_event], the i-th against [w_dest w i]. *)
Fixpoint batch_trace (w : world) (p : processor) (i : nat) (events : list lock_event)
  : list effect :=
  match events with
  | [] => []
  | event :: rest =>
      Log (MsgFound event) :: trace_of (process_event (w_dest w i) event p)
        ++ batch_trace w p (S i) rest
  end.

(** A destination whose signer fails. *)
Definition dest_sign_fails : dest_world := {|
  d_unlock := Ok tt;
  d_tx_count := Ok 7;
  d_oracle := Ok 30;
  d_node_gas := Ok 25000000000;
  d_build := Ok tt;
  d_sign := Raise ValueError
|}.


Definition lock2 : lock_event := {|
  args_from := "0xbob";
  args_toChainId := 80001;
  args_amount := 75;
  args_nonce := 2;
  transactionHash := "0x02";
  blockNumber := 130
|}.

(** A cycle whose first event meets a failing signer. *)
Definition world_first_fails (latest : Z) (events : list lock_event) : world := {|
  w_live := Ok true;
  w_connect := Ok true;
  w_live_again := Ok true;
  w_block_number := Ok latest;
  w_get_logs := Ok events;
  w_dest := fun i => match i with O => dest_sign_fails | _ => dest_fine end;
  w_dump := Dumped;
  w_nap := Ok tt;
  w_sleep := Ok tt;
  w_backoff := Ok tt
|}.

(** A cycle in which the state file cannot be opened for writing. *)
Definition world_disk_full (latest : Z) : world := {|
  w_live := Ok true;
  w_connect := Ok true;
  w_live_again := Ok true;
  w_block_number := Ok latest;
  w_get_logs := Ok [];
  w_dest := fun _ => dest_fine;
  w_dump := OpenFails PermissionError;
  w_nap := Ok tt;
  w_sleep := Ok tt;
  w_backoff := Ok tt
|}.

(** ** Computations *)

(** [m] is not cut short by the shutdown signal. *)
Definition calm {S A} (m : M S A) : Prop :=
  forall s e, result_of (m s) = Raise e -> is_Exception e = true.

(** [m] returns. *)
Definition returns {S A} (m : M S A) : Prop :=
  forall s, exists a, result_of (m s) = Ok a.

(** [m] leaves the state as it is. *)
Definition reads_only {S A} (m : M S A) : Prop :=
  forall s, state_of (m s) = s.

(** Every effect of [m] satisfies [P]. *)
Definition emits {S A} (P : effect -> Prop) (m : M S A) : Prop :=
  forall s, Forall P (trace_of (m s)).

(** ** Effects of the listener *)

(** [tx] unlocks what [ev] locked, under the fixed gas limit. *)
Definition unlocks (ev : lock_event) (tx : tx_data) : Prop :=
  unlock_recipient tx = args_from ev /\
  unlock_amount tx = args_amount ev /\
  unlock_sourceNonce tx = args_nonce ev /\
  tx_gas tx = 200000.

(** What processing [ev] may do: write log lines and sign a transaction
    that unlocks [ev]. *)
Definition unlock_effect (ev : lock_event) (e : effect) : Prop :=
  match e with
  | Log _ => True
  | SignTransaction tx => unlocks ev tx
  | _ => False
  end.

(** The events announced by [Found ...] lines, in order. *)
Fixpoint found_events (t : list effect) : list lock_event :=
  match t with
  | Log (MsgFound ev) :: t' => ev :: found_events t'
  | _ :: t' => found_events t'
  | [] => []
  end.

(** A log query, if [e] is one, is for the range [from_block .. to_block]. *)
Definition range_effect (from_block to_block : Z) (e : effect) : Prop :=
  match e with
  | GetLogs f t => f = from_block /\ t = to_block
  | _ => True
  end.

(** What a cycle without new blocks may do: say so, sleep, and report what
    interrupts the sleep. *)
Definition idle_effect (e : effect) : Prop :=
  match e with
  | Log (MsgNoNewBlocks _) | Log (MsgUnexpected _) | Log MsgShutdown | Sleep _ => True
  | _ => False
  end.

(** The heights written to the state file, in order. *)
Fixpoint dumps (t : list effect) : list Z :=
  match t with
  | Dump h :: t' => h :: dumps t'
  | _ :: t' => dumps t'
  | [] => []
  end.

(** [lo <= x1 <= ... <= xn <= hi] *)
Fixpoint ascending (lo : Z) (l : list Z) (hi : Z) : Prop :=
  match l with
  | [] => lo <= hi
  | x :: l' => lo <= x /\ ascending x l' hi
  end.

(** From [s], the heights [m] writes ascend from the checkpoint of [s] to
    the checkpoint [m] leaves. *)
Definition rises {A} (m : M listener A) (s : listener) : Prop :=
  ascending (last_processed_block s) (dumps (trace_of (m s)))
    (last_processed_block (state_of (m s))).

(** [m] neither moves the checkpoint nor writes it. *)
Definition keeps {A} (m : M listener A) : Prop :=
  forall s, last_processed_block (state_of (m s)) = last_processed_block s /\
            dumps (trace_of (m s)) = [].

(** ** Construction *)

(** [BlockchainConnector] on its own.  The state is whether [self.web3] is
    a handle.  [connect] and [is_connected] above are these two methods, run
    on the connector the listener holds. *)
Module BlockchainConnector.

(** [BlockchainConnector.connect] *)
Definition connect (probe : res bool) : M bool unit :=
  try_catch
    (modify (fun _ => true);;
     emit Connect;;
     live ← lift probe;
     if live : bool then log MsgConnected else raise ConnectionError)
    (except_Exception (fun e =>
       log (MsgConnectionError e);;
       modify (fun _ => false))).

(** [BlockchainConnector.is_connected] *)
Definition is_connected (probe : res bool) : M bool bool :=
  w3 ← gets id;
  if w3 : bool then lift probe else ret false.

(** [BlockchainConnector.get_contract]: [contract] is what
    [web3.eth.contract(address=Web3.to_checksum_address(address), abi=abi)]
    answers; the result is whether a contract is returned.  The warning
    line of the first branch is left out. *)
Definition get_contract (probe : res bool) (contract : res unit) : M bool bool :=
  live ← is_connected probe;
  w3 ← gets id;
  if negb live || negb w3 then ret false
  else lift contract;; ret true.

(** [BlockchainConnector.__init__] *)
Definition __init__ (probe : res bool) : M bool unit :=
  modify (fun _ => false);;
  connect probe.

End BlockchainConnector.

(** What the outside answers while an [EventListener] is constructed. *)
Record init_world := {
  (** [web3.is_connected()], asked by [connect] on the source connector *)
  i_source_connect : res bool;
  (** [web3.is_connected()], asked by [get_contract] on the source connector *)
  i_source_live : res bool;
  (** [web3.eth.contract(...)] on the source connector *)
  i_source_contract : res unit;
  (** the same three for the destination connector *)
  i_dest_connect : res bool;
  i_dest_live : res bool;
  i_dest_contract : res unit;
  (** [web3.eth.account.from_key(relayer_private_key)], the address of the
      account *)
  i_from_key : res address;
  (** the state file on disk *)
  i_state_file : state_file
}.

(** A call [C(...)] from a method of another object: the new object starts
    with no attribute set, and the caller keeps what the constructor
    returns. *)
Definition new {S A} (m : M bool A) : M S A :=
  fun s => let '(r, _, t) := m false in (r, s, t).

Module EventProcessor.

(** [EventProcessor.__init__]; the state is that of [dest_connector].  The
    line about the relayer's address is left out. *)
Definition __init__ (iw : init_world) : M bool processor :=
  BlockchainConnector.__init__ (i_dest_connect iw);;
  contract ← BlockchainConnector.get_contract (i_dest_live iw) (i_dest_contract iw);
  w3 ← gets id;
  account ← (if w3 : bool then a ← lift (i_from_key iw); mret (Some a) else mret None);
  mret {| dest_web3 := w3;
          dest_bridge_contract := contract;
          relayer_account := account |}.

End EventProcessor.

Module EventListener.

(** [EventListener.__init__]; the state is that of [source_connector]. *)
Definition __init__ (cfg : config) (iw : init_world) : M bool listener :=
  BlockchainConnector.__init__ (i_source_connect iw);;
  contract ← BlockchainConnector.get_contract (i_source_live iw) (i_source_contract iw);
  processor ← new (EventProcessor.__init__ iw);
  checkpoint ← lift (_load_state cfg (i_state_file iw));
  w3 ← gets id;
  mret {| source_web3 := w3;
          source_bridge_contract := contract;
          event_processor := processor;
          last_processed_block := checkpoint;
          file := i_state_file iw |}.

End EventListener.

(** The listener [EventListener(config)] returns, if it returns one. *)
Definition constructed (cfg : config) (iw : init_world) : res listener :=
  result_of (EventListener.__init__ cfg iw false).

(** Both chains answer, the key is good, there is no state file yet. *)
Definition init_fine : init_world := {|
  i_source_connect := Ok true;
  i_source_live := Ok true;
  i_source_contract := Ok tt;
  i_dest_connect := Ok true;
  i_dest_live := Ok true;
  i_dest_contract := Ok tt;
  i_from_key := Ok "0xrelayer";
  i_state_file := Unloadable FileNotFoundError
|}.

(** The source node refuses the connection. *)
Definition init_source_down : init_world := {|
  i_source_connect := Raise ConnectionError;
  i_source_live := Ok true;
  i_source_contract := Ok tt;
  i_dest_connect := Ok true;
  i_dest_live := Ok true;
  i_dest_contract := Ok tt;
  i_from_key := Ok "0xrelayer";
  i_state_file := Unloadable FileNotFoundError
|}.

(** ** More vocabulary *)

(** From every state in [I], [m] emits effects in [P] only and ends in
    [I], whether it returns or raises. *)
Definition inv {A} (I : listener -> Prop) (P : effect -> Prop) (m : M listener A) : Prop :=
  forall s, I s -> Forall P (trace_of (m s)) /\ I (state_of (m s)).

(** The state file, loaded, gives the checkpoint in memory. *)
Definition agrees (cfg : config) (s : listener) : Prop :=
  _load_state cfg (file s) = Ok (last_processed_block s).

(** The guard of [process_event] lets the event through. *)
Definition ready (p : processor) : bool :=
  dest_bridge_contract p && bool_decide (is_Some (relayer_account p)) && dest_web3 p.

Definition is_query (e : effect) : bool :=
  match e with
  | GetLogs _ _ => true
  | _ => false
  end.

Definition is_signature (e : effect) : bool :=
  match e with
  | SignTransaction _ => true
  | _ => false
  end.

(** A cycle in which the source node does not answer the probe of [run],
    and answers the one of [connect]. *)
Definition world_reconnect : world := {|
  w_live := Ok false;
  w_connect := Ok true;
  w_live_again := Ok true;
  w_block_number := Ok 0;
  w_get_logs := Ok [];
  w_dest := fun _ => dest_fine;
  w_dump := Dumped;
  w_nap := Ok tt;
  w_sleep := Ok tt;
  w_backoff := Ok tt
|}.

(** A cycle in which the height query fails. *)
Definition world_no_height (e : exn) : world := {|
  w_live := Ok true;
  w_connect := Ok true;
  w_live_again := Ok true;
  w_block_number := Raise e;
  w_get_logs := Ok [];
  w_dest := fun _ => dest_fine;
  w_dump := Dumped;
  w_nap := Ok tt;
  w_sleep := Ok tt;
  w_backoff := Ok tt
|}.

(** A listener whose source contract was not bound at construction. *)
Definition listener_unbound (checkpoint : Z) : listener := {|
  source_web3 := true;
  source_bridge_contract := false;
  event_processor := processor_ready;
  last_processed_block := checkpoint;
  file := dumped_state checkpoint
|}.

(** A processor built while the destination node was down. *)
Definition processor_down : processor := {|
  dest_web3 := false;
  dest_bridge_contract := false;
  relayer_account := None
|}.

(** Nothing stops the scan of a range: the poll interval is a length of
    time, the pause after [BlockNotFound] completes, and neither the range
    query nor a call to the destination side is cut short by the shutdown
    signal. *)
Definition undisturbed (cfg : config) (w : world) : Prop :=
  0 <= poll_interval_seconds cfg /\ w_nap w = Ok tt /\
  interrupted (w_get_logs w) = false /\
  forall i, uninterrupted (w_dest w i) = true.

(** The node answered that it is connected. *)
Definition affirmed (r : res bool) : bool :=
  match r with
  | Ok true => true
  | _ => false
  end.

(** The lengths of the sleeps, in order. *)
Fixpoint sleeps (t : list effect) : list Z :=
  match t with
  | Sleep d :: t' => d :: sleeps t'
  | _ :: t' => sleeps t'
  | [] => []
  end.

(** Whenever [m] returns, it has slept at least once. *)
Definition paces {A} (m : M listener A) : Prop :=
  forall s a, result_of (m s) = Ok a -> sleeps (trace_of (m s)) <> [].

(** A cycle in which the state file cannot be opened for writing, with the
    events [events] in the range. *)
Definition world_read_only (latest : Z) (events : list lock_event) : world := {|
  w_live := Ok true;
  w_connect := Ok true;
  w_live_again := Ok true;
  w_block_number := Ok latest;
  w_get_logs := Ok events;
  w_dest := fun _ => dest_fine;
  w_dump := OpenFails PermissionError;
  w_nap := Ok tt;
  w_sleep := Ok tt;
  w_backoff := Ok tt
|}.

(** * [loader.py]: [ConfigLoader] *)

Module ConfigLoader.

(** ** Objects *)

(** What stands at a leaf of a configuration: [None], a [bool], an [int],
    a [float], a [str], or any other object that is not a [dict] (a list, a
    date, ...).  [SFloatOrStr s] is what the last two branches of
    [_parse_value] build from the text [s]: [float(s)] when [float] accepts
    [s], the text itself otherwise. *)
Inductive scalar :=
| SNone
| SBool (b : bool)
| SInt (n : Z)
| SFloat (f : spec_float)
| SStr (s : string)
| SFloatOrStr (s : string)
| SOther (tag : nat).

(** A value is a leaf or a reference to a [dict]. *)
Inductive hval :=
| Leaf (s : scalar)
| Ref (a : nat).

(** The store: the [dict] objects, by address.  [_deep_merge] and
    [_load_from_env] allocate and assign in it.  The entries of a [dict]
    are a finite map; a loop over them runs in the order of [map_to_list],
    which need not be the order of insertion: the addresses of the objects
    a loop makes depend on it, what they hold does not. *)
Abbreviation heap := (list (gmap string hval)).

(** [isinstance(value, dict)] *)
Definition is_dict (v : hval) : bool :=
  match v with
  | Ref _ => true
  | Leaf _ => false
  end.

(** Reading the object at an address. *)
Definition read (a : nat) : M heap (gmap string hval) :=
  fun h =>
    match h !! a with
    | Some d => (Ok d, h, [])
    | None => (Raise (OtherException "no such object"), h, [])
    end.

(** A new [dict] with the entries [d]: [{}] and [base.copy()]. *)
Definition alloc (d : gmap string hval) : M heap nat :=
  fun h => (Ok (length h), h ++ [d], []).

(** [obj[key] = v] for the [dict] at address [a]. *)
Definition assign (a : nat) (key : string) (v : hval) : M heap unit :=
  d ← read a;
  modify (fun h => <[a := <[key := v]> d]> h).

(** [for x in l: f x] *)
Fixpoint for_each {S A} (f : A -> M S unit) (l : list A) : M S unit :=
  match l with
  | [] => ret tt
  | x :: l' => f x;; for_each f l'
  end.

(** ** Strings *)

Definition lower_ascii (c : ascii) : ascii :=
  let n := nat_of_ascii c in
  if (65 <=? n)%nat && (n <=? 90)%nat then ascii_of_nat (n + 32) else c.

(** [s.lower()] on ASCII text *)
Fixpoint lower (s : string) : string :=
  match s with
  | EmptyString => EmptyString
  | String c s' => String (lower_ascii c) (lower s')
  end.

(** [s[n:]] *)
Fixpoint drop_chars (n : nat) (s : string) : string :=
  match n, s with
  | S n', String _ s' => drop_chars n' s'
  | _, _ => s
  end.

(** [s.split("__")] *)
Fixpoint split_dunder (s : string) : list string :=
  match s with
  | EmptyString => [EmptyString]
  | String c rest =>
      match c, rest with
      | "_"%char, String "_"%char rest' => EmptyString :: split_dunder rest'
      | _, _ =>
          match split_dunder rest with
          | part :: parts => String c part :: parts
          | [] => [String c EmptyString]
          end
      end
  end.

(** ** The loader *)

(** The attribute [env_prefix] that [__init__] sets from its argument. *)
Definition init_env_prefix (env_prefix : string) : string :=
  (env_prefix ++ "_")%string.

(** [ConfigLoader._parse_value] *)
Definition _parse_value (value : string) : scalar :=
  let l := lower value in
  if String.eqb l "true" || String.eqb l "false" then SBool (String.eqb l "true")
  else
    match int_of_str value with
    | Ok n => SInt n
    | Raise _ => SFloatOrStr value
    end.

(** A configuration file as [_load_yaml_file] finds it: missing, one that
    [open] refuses, not YAML, or a document whose objects [yaml.safe_load]
    has put into the store. *)
Inductive yaml_file :=
| NoSuchFile
| Unreadable (e : exn)
| NotYAML
| Document (v : hval).

(** [ConfigLoader._load_yaml_file] *)
Definition _load_yaml_file (f : yaml_file) : M heap nat :=
  match f with
  | Document (Ref a) => ret a
  | Document (Leaf _) | NotYAML | NoSuchFile => alloc ∅
  | Unreadable e => raise e
  end.

(** [ConfigLoader._deep_merge].  [depth] is the number of nested calls the
    interpreter still allows; beyond it the call is a [RecursionError]. *)
Fixpoint _deep_merge (depth : nat) (base override : nat) : M heap nat :=
  match depth with
  | O => raise RecursionError
  | S depth' =>
      copy ← read base;
      merged ← alloc copy;
      items ← read override;
      for_each (fun '(key, value) =>
          current ← read merged;
          match value, current !! key with
          | Ref v, Some (Ref b) =>
              sub ← _deep_merge depth' b v;
              assign merged key (Ref sub)
          | _, _ => assign merged key value
          end)
        (map_to_list items);;
      ret merged
  end.

(** The loop [for part in path[:-1]:] of [_load_from_env], from the object
    [d]; the result is the object the last part is assigned in. *)
Fixpoint descend (d : hval) (parts : list string) : M heap hval :=
  match parts with
  | [] => ret d
  | part :: rest =>
      match d with
      | Leaf _ => raise TypeError
      | Ref a =>
          obj ← read a;
          match obj !! part with
          | None =>
              fresh ← alloc ∅;
              assign a part (Ref fresh);;
              descend (Ref fresh) rest
          | Some d' => descend d' rest
          end
      end
  end.

(** The key path of the environment variable [key]. *)
Definition env_path (env_prefix key : string) : list string :=
  split_dunder (lower (drop_chars (String.length env_prefix) key)).

(** [ConfigLoader._load_from_env]; [environ] is [os.environ.items()]. *)
Definition _load_from_env (env_prefix : string) (environ : list (string * string))
  : M heap nat :=
  config ← alloc ∅;
  for_each (fun '(key, value) =>
      if String.prefix env_prefix key then
        let path := env_path env_prefix key in
        let parsed_value := _parse_value value in
        d ← descend (Ref config) (removelast path);
        match d with
        | Ref a => assign a (List.last path EmptyString) (Leaf parsed_value)
        | Leaf _ => raise TypeError
        end
      else ret tt)
    environ;;
  ret config.

(** [os.environ.get(name, fallback)] *)
Fixpoint environ_get (environ : list (string * string)) (name fallback : string) : string :=
  match environ with
  | [] => fallback
  | (k, v) :: rest => if String.eqb k name then v else environ_get rest name fallback
  end.

(** [ConfigLoader.load]; [files] gives the file under each name in
    [config_dir]. *)
Definition load (depth : nat) (env_prefix : string) (files : string -> yaml_file)
    (environ : list (string * string)) (env : option string) : M heap nat :=
  let env := default (environ_get environ "APP_ENV" "development") env in
  base_config ← _load_yaml_file (files "base.yaml");
  env_config ← _load_yaml_file (files (env ++ ".yaml")%string);
  merged_config ← _deep_merge depth base_config env_config;
  env_vars_config ← _load_from_env env_prefix environ;
  _deep_merge depth merged_config env_vars_config.

(** ** Reading a configuration *)

(** The value at the key path [p] below [v]. *)
Fixpoint lookup_path (h : heap) (v : hval) (p : list string) : option hval :=
  match p with
  | [] => Some v
  | k :: p' =>
      match v with
      | Leaf _ => None
      | Ref a => d ← h !! a; v' ← d !! k; lookup_path h v' p'
      end
  end.

(** [v] says nothing about the key path [p]: following [p] below [v] ends
    at a [dict] that lacks the next key. *)
Fixpoint silent (h : heap) (v : hval) (p : list string) : bool :=
  match p with
  | [] => false
  | k :: p' =>
      match v with
      | Leaf _ => false
      | Ref a =>
          match h !! a with
          | None => false
          | Some d =>
              match d !! k with
              | None => true
              | Some v' => silent h v' p'
              end
          end
      end
  end.

(** Every reference in the store is to an object of the store. *)
Definition closed (h : heap) : Prop :=
  forall a d k r, h !! a = Some d -> d !! k = Some (Ref r) -> (r < length h)%nat.

(** ** Vocabulary of the statements *)

(** Every object of [h] is in [h'] with the entries it had. *)
Definition unchanged (h h' : heap) : Prop :=
  forall a d, h !! a = Some d -> h' !! a = Some d.

(** Every reference in the store is to an object of the store, and none is
    to an address in [X]. *)
Definition avoids (X : nat -> Prop) (h : heap) : Prop :=
  forall a d k r, h !! a = Some d -> d !! k = Some (Ref r) -> (r < length h)%nat /\ ~ X r.

(** A check of [closed] that runs. *)
Definition closedb (h : heap) : bool :=
  forallb (fun d : gmap string hval =>
    forallb (fun kv : string * hval =>
      match kv.2 with
      | Ref r => (r <? length h)%nat
      | Leaf _ => true
      end) (map_to_list d)) h.

(** [merged] answers as [override] where [override] has a leaf, and as
    [base] where [override] is silent. *)
Definition wins (h h' : heap) (base : option hval) (override merged : hval) : Prop :=
  forall p s,
    (lookup_path h override p = Some (Leaf s) ->
     lookup_path h' merged p = Some (Leaf s)) /\
    (silent h override p = true ->
     (base ≫= fun b => lookup_path h b p) = Some (Leaf s) ->
     lookup_path h' merged p = Some (Leaf s)).

(** The object at [a] nests dictionaries at most [n] deep. *)
Inductive nests (h : heap) : nat -> nat -> Prop :=
| nests_obj n a d :
    h !! a = Some d ->
    (forall k r, d !! k = Some (Ref r) -> nests h n r) ->
    nests h (S n) a.


(** The body of the loop of [_deep_merge], with the recursive call as a
    parameter. *)
Definition merge_item (rec : nat -> nat -> M heap nat) (merged : nat)
  : string * hval -> M heap unit :=
  fun '(key, value) =>
    current ← read merged;
    match value, current !! key with
    | Ref v, Some (Ref b) =>
        sub ← rec b v;
        assign merged key (Ref sub)
    | _, _ => assign merged key value
    end.

(** What a call of [_deep_merge] that returns has done: the store it found
    is unchanged, the result is a new object that nothing refers to, and it
    answers as [wins] says. *)
Definition merge_spec (rec : nat -> nat -> M heap nat) : Prop :=
  forall (X : nat -> Prop) h b o m h' t,
    avoids X h -> (forall x, X x -> (x < length h)%nat) ->
    rec b o h = (Ok m, h', t) ->
    unchanged h h' /\ m = length h /\ (m < length h')%nat /\
    avoids (fun x => X x \/ x = m) h' /\
    wins h h' (Some (Ref b)) (Ref o) (Ref m).

(** The loop of [_deep_merge] after the items [done], in the store [hc]:
    [h] is the store the call found, [bd] the entries of [base], and the
    copy is the object at [length h]. *)
Definition loop_inv (X : nat -> Prop) (h : heap) (bd : gmap string hval)
    (done : list (string * hval)) (hc : heap) : Prop :=
  unchanged h hc /\ avoids (fun x => X x \/ x = length h) hc /\
  exists md, hc !! length h = Some md /\
    (forall k, k ∉ done.*1 -> md !! k = bd !! k) /\
    (forall k v, (k, v) ∈ done -> exists w, md !! k = Some w /\ wins h hc (bd !! k) v w).

(** While [_load_from_env] runs from the store [h0]: the objects of [h0]
    are as they were, the store is closed, and the objects made since refer
    to each other only. *)
Definition env_inv (h0 hc : heap) : Prop :=
  unchanged h0 hc /\ closed hc /\ (length h0 < length hc)%nat /\
  forall a d k r, (length h0 <= a)%nat -> hc !! a = Some d -> d !! k = Some (Ref r) ->
    (length h0 <= r)%nat.

(** [d] is a leaf or an object made since [h0]. *)
Definition made_since (h0 hc : heap) (d : hval) : Prop :=
  match d with
  | Leaf _ => True
  | Ref a => (length h0 <= a < length hc)%nat
  end.

(** ** A sample configuration *)

(** [base.yaml] is [{db: {host: localhost, port: 5432}, debug: false}],
    [development.yaml] is [{db: {host: devbox}, workers: 4}]. *)
Definition sample_heap : heap :=
  [ {[ "host" := Leaf (SStr "localhost"); "port" := Leaf (SInt 5432) ]};
    {[ "db" := Ref 0%nat; "debug" := Leaf (SBool false) ]};
    {[ "host" := Leaf (SStr "devbox") ]};
    {[ "db" := Ref 2%nat; "workers" := Leaf (SInt 4) ]} ].

Definition sample_files (name : string) : yaml_file :=
  if String.eqb name "base.yaml" then Document (Ref 1%nat)
  else if String.eqb name "development.yaml" then Document (Ref 3%nat)
  else NoSuchFile.

Definition sample_environ : list (string * string) :=
  [("HOME", "/root"); ("APP_DB__PORT", "6000"); ("APP_DEBUG", "True")].

End ConfigLoader.

(** * More of [loader.py] *)

From Stdlib Require Import DecimalString.


Module ConfigLoaderMore.
Import ConfigLoader.

(** [ConfigLoader.__init__]: [is_dir] is what [config_dir.is_dir()]
    answers, and the result is the attribute [env_prefix]. *)
Definition __init__ (is_dir : bool) (env_prefix : string) : res string :=
  if is_dir then Ok (init_env_prefix env_prefix) else Raise FileNotFoundError.

(** ** Vocabulary *)

(** The parts, with two underscores between them. *)
Fixpoint join_dunder (parts : list string) : string :=
  match parts with
  | [] => EmptyString
  | [part] => part
  | part :: rest => (part ++ "__" ++ join_dunder rest)%string
  end.

(** A check of [nests] that runs. *)
Fixpoint nestsb (h : heap) (n : nat) (a : nat) : bool :=
  match n with
  | O => false
  | S n' =>
      match h !! a with
      | None => false
      | Some d =>
          forallb (fun kv : string * hval =>
            match kv.2 with
            | Ref r => nestsb h n' r
            | Leaf _ => true
            end) (map_to_list d)
      end
  end.

(** What [_deep_merge] stores under [key] in the copy of [base], for the
    item [key, value] of [override]: a new object when both sides hold a
    dictionary, and [value] itself otherwise.  [n] is the size of the store
    before the call. *)
Definition merged_entry (n : nat) (bd md : gmap string hval) (key : string) (value : hval)
  : Prop :=
  match value, bd !! key with
  | Ref _, Some (Ref _) => exists sub, md !! key = Some (Ref sub) /\ (n < sub)%nat
  | _, _ => md !! key = Some value
  end.

(** The file does not hold a dictionary, and can be read. *)
Definition plain (f : yaml_file) : bool :=
  match f with
  | Document (Ref _) | Unreadable _ => false
  | _ => true
  end.


(** The objects made since the store had [n0] objects refer to objects of
    the store that are younger than themselves. *)
Definition rising (n0 : nat) (hc : heap) : Prop :=
  forall a d k r, (n0 <= a)%nat -> hc !! a = Some d -> d !! k = Some (Ref r) ->
    (a < r < length hc)%nat.

(** No two entries of the objects made since the store had [n0] objects
    refer to the same object. *)
Definition unshared (n0 : nat) (hc : heap) : Prop :=
  forall a1 d1 k1 a2 d2 k2 r,
    (n0 <= a1)%nat -> (n0 <= a2)%nat ->
    hc !! a1 = Some d1 -> hc !! a2 = Some d2 ->
    d1 !! k1 = Some (Ref r) -> d2 !! k2 = Some (Ref r) ->
    a1 = a2 /\ k1 = k2.

(** The objects made since the store had [n0] objects form trees. *)
Definition grown (n0 : nat) (hc : heap) : Prop :=
  rising n0 hc /\ unshared n0 hc.


(** What [_load_from_env] does for one variable, from the dictionary
    [config]. *)
Definition set_variable (env_prefix : string) (config : nat)
  : string * string -> M heap unit :=
  fun '(key, value) =>
    if String.prefix env_prefix key then
      let path := env_path env_prefix key in
      let parsed_value := _parse_value value in
      d ← descend (Ref config) (removelast path);
      match d with
      | Ref a => assign a (List.last path EmptyString) (Leaf parsed_value)
      | Leaf _ => raise TypeError
      end
    else ret tt.

End ConfigLoaderMore.

(** * Properties of [script.py] *)

(** Unfolding the monad, and case analysis on what a collaborator
    answers. *)
Ltac run_m :=
  cbv [mbind mret M_bind M_ret bind ret lift raise emit log gets modify
       try_catch except_Exception result_of state_of trace_of on_processor] in *;
  cbn [fst snd] in *.

Ltac case_atom :=
  match goal with
  | |- context [match ?x with _ => _ end] => is_var x; destruct x
  | |- context [if ?x then _ else _] => is_var x; destruct x
  | |- context [is_Exception ?e] => is_var e; destruct (is_Exception e) eqn:?
  | |- context [to_wei_gwei ?g] => is_var g; destruct (to_wei_gwei g) eqn:?
  end.

Ltac cases := repeat (case_atom; cbn in *).

(** ** Reasoning about computations *)

Section Computations.
Context {S : Type}.

Lemma run_bind {A B} (m : M S A) (k : A -> M S B) s :
  (m ≫= k) s =
  match m s with
  | (Ok a, s1, t1) => (result_of (k a s1), state_of (k a s1), t1 ++ trace_of (k a s1))
  | (Raise e, s1, t1) => (Raise e, s1, t1)
  end.
Proof.
  unfold mbind, M_bind, bind, result_of, state_of, trace_of.
  destruct (m s) as [[[a|e] s1] t1]; [|reflexivity].
  destruct (k a s1) as [[r s2] t2]. reflexivity.
Qed.

Lemma run_surj {A} (x : res A * S * list effect) r s t :
  (result_of x, state_of x, [] ++ trace_of x) = (r, s, t) -> x = (r, s, t).
Proof. now destruct x as [[? ?] ?]. Qed.

Lemma trace_bind_prefix {A B} (m : M S A) (k : A -> M S B) s :
  exists t, trace_of ((m ≫= k) s) = trace_of (m s) ++ t.
Proof.
  rewrite run_bind. unfold trace_of at 1 3.
  destruct (m s) as [[[a|e] s1] t1]; cbn; [eauto|].
  exists []. now rewrite app_nil_r.
Qed.

Lemma trace_log_bind {B} x (k : unit -> M S B) s :
  trace_of ((log x ≫= k) s) = Log x :: trace_of (k tt s).
Proof. rewrite run_bind. reflexivity. Qed.

Lemma run_try_catch {A} (m : M S A) handler s :
  try_catch m handler s =
  match m s with
  | (Ok a, s1, t1) => (Ok a, s1, t1)
  | (Raise e, s1, t1) =>
      match handler e with
      | Some h => (result_of (h s1), state_of (h s1), t1 ++ trace_of (h s1))
      | None => (Raise e, s1, t1)
      end
  end.
Proof.
  unfold try_catch, result_of, state_of, trace_of.
  destruct (m s) as [[[a|e] s1] t1]; [reflexivity|].
  destruct (handler e) as [h|]; [|reflexivity].
  destruct (h s1) as [[r s2] t2]. reflexivity.
Qed.

Lemma calm_ret {A} (a : A) : calm (mret a : M S A).
Proof. intros s e. discriminate. Qed.

Lemma calm_lift {A} (r : res A) : interrupted r = false -> calm (lift r : M S A).
Proof.
  intros H s e. unfold lift, result_of. cbn. intros ->.
  destruct e; try reflexivity. discriminate.
Qed.

Lemma calm_raise {A} e : is_Exception e = true -> calm (raise e : M S A).
Proof. intros H s e'. unfold raise, lift, result_of. cbn. congruence. Qed.

Lemma calm_emit e : calm (emit e : M S unit).
Proof. intros s e'. discriminate. Qed.

Lemma calm_log m : calm (log m : M S unit).
Proof. apply calm_emit. Qed.

Lemma calm_gets {A} (f : S -> A) : calm (gets f).
Proof. intros s e. discriminate. Qed.

Lemma calm_modify f : calm (modify f : M S unit).
Proof. intros s e. discriminate. Qed.

Lemma calm_bind {A B} (m : M S A) (k : A -> M S B) :
  calm m -> (forall a, calm (k a)) -> calm (m ≫= k).
Proof.
  intros Hm Hk s e. rewrite run_bind. specialize (Hm s).
  unfold result_of in *. destruct (m s) as [[[a|e'] s1] t1]; cbn in *.
  - apply Hk.
  - intros [= <-]. auto.
Qed.

Lemma calm_try_catch {A} (m : M S A) handler :
  calm m -> (forall e h, handler e = Some h -> calm h) -> calm (try_catch m handler).
Proof.
  intros Hm Hh s e. rewrite run_try_catch. specialize (Hm s).
  unfold result_of in *. destruct (m s) as [[[a|e'] s1] t1]; cbn in *; [discriminate|].
  destruct (handler e') as [h|] eqn:E; cbn.
  - apply (Hh _ _ E).
  - intros [= <-]. auto.
Qed.

Lemma calm_try_Exception {A} (m : M S A) (h : exn -> M S A) :
  calm m -> (forall e, calm (h e)) -> calm (try_catch m (except_Exception h)).
Proof.
  intros Hm Hh. apply calm_try_catch; [exact Hm|].
  intros e k. unfold except_Exception. destruct (is_Exception e); intros [= <-]. apply Hh.
Qed.

Lemma returns_ret {A} (a : A) : returns (mret a : M S A).
Proof. intros s. now exists a. Qed.

Lemma returns_emit e : returns (emit e : M S unit).
Proof. intros s. now exists tt. Qed.

Lemma returns_log m : returns (log m : M S unit).
Proof. apply returns_emit. Qed.

Lemma returns_gets {A} (f : S -> A) : returns (gets f).
Proof. intros s. now exists (f s). Qed.

Lemma returns_modify f : returns (modify f : M S unit).
Proof. intros s. now exists tt. Qed.

Lemma returns_bind {A B} (m : M S A) (k : A -> M S B) :
  returns m -> (forall a, returns (k a)) -> returns (m ≫= k).
Proof.
  intros Hm Hk s. rewrite run_bind. destruct (Hm s) as [a Ha].
  unfold result_of in *. destruct (m s) as [[r s1] t1]; cbn in *. subst r.
  apply Hk.
Qed.

(** A calm body under [except Exception:] with a clause that returns. *)
Lemma returns_try_Exception {A} (m : M S A) (h : exn -> M S A) :
  calm m -> (forall e, returns (h e)) -> returns (try_catch m (except_Exception h)).
Proof.
  intros Hm Hh s. rewrite run_try_catch. specialize (Hm s).
  unfold result_of in *. destruct (m s) as [[[a|e] s1] t1]; cbn in *.
  - now exists a.
  - unfold except_Exception. rewrite (Hm e eq_refl). apply Hh.
Qed.

Lemma reads_only_ret {A} (a : A) : reads_only (mret a : M S A).
Proof. intros s. reflexivity. Qed.

Lemma reads_only_lift {A} (r : res A) : reads_only (lift r : M S A).
Proof. intros s. reflexivity. Qed.

Lemma reads_only_emit e : reads_only (emit e : M S unit).
Proof. intros s. reflexivity. Qed.

Lemma reads_only_gets {A} (f : S -> A) : reads_only (gets f).
Proof. intros s. reflexivity. Qed.

Lemma reads_only_bind {A B} (m : M S A) (k : A -> M S B) :
  reads_only m -> (forall a, reads_only (k a)) -> reads_only (m ≫= k).
Proof.
  intros Hm Hk s. rewrite run_bind. specialize (Hm s). unfold state_of in *.
  destruct (m s) as [[[a|e] s1] t1]; cbn in *; subst s1; [apply Hk|reflexivity].
Qed.

Lemma reads_only_try_catch {A} (m : M S A) handler :
  reads_only m -> (forall e h, handler e = Some h -> reads_only h) ->
  reads_only (try_catch m handler).
Proof.
  intros Hm Hh s. rewrite run_try_catch. specialize (Hm s). unfold state_of in *.
  destruct (m s) as [[[a|e] s1] t1]; cbn in *; subst s1; [reflexivity|].
  destruct (handler e) as [h|] eqn:E; cbn; [apply (Hh _ _ E)|reflexivity].
Qed.

Lemma reads_only_try_Exception {A} (m : M S A) (h : exn -> M S A) :
  reads_only m -> (forall e, reads_only (h e)) ->
  reads_only (try_catch m (except_Exception h)).
Proof.
  intros Hm Hh. apply reads_only_try_catch; [exact Hm|].
  intros e k. unfold except_Exception. destruct (is_Exception e); intros [= <-]. apply Hh.
Qed.

Lemma emits_ret P {A} (a : A) : emits P (mret a : M S A).
Proof. intros s. constructor. Qed.

Lemma emits_lift P {A} (r : res A) : emits P (lift r : M S A).
Proof. intros s. constructor. Qed.

Lemma emits_emit (P : effect -> Prop) e : P e -> emits P (emit e : M S unit).
Proof. intros H s. repeat constructor. exact H. Qed.

Lemma emits_gets P {A} (f : S -> A) : emits P (gets f).
Proof. intros s. constructor. Qed.

Lemma emits_modify P f : emits P (modify f : M S unit).
Proof. intros s. constructor. Qed.

Lemma emits_bind P {A B} (m : M S A) (k : A -> M S B) :
  emits P m -> (forall a, emits P (k a)) -> emits P (m ≫= k).
Proof.
  intros Hm Hk s. rewrite run_bind. specialize (Hm s). unfold trace_of in *.
  destruct (m s) as [[[a|e] s1] t1]; cbn in *; [|exact Hm].
  apply Forall_app. split; [exact Hm|apply Hk].
Qed.

Lemma emits_try_catch P {A} (m : M S A) handler :
  emits P m -> (forall e h, handler e = Some h -> emits P h) ->
  emits P (try_catch m handler).
Proof.
  intros Hm Hh s. rewrite run_try_catch. specialize (Hm s). unfold trace_of in *.
  destruct (m s) as [[[a|e] s1] t1]; cbn in *; [exact Hm|].
  destruct (handler e) as [h|] eqn:E; cbn; [|exact Hm].
  apply Forall_app. split; [exact Hm|apply (Hh _ _ E)].
Qed.

Lemma emits_try_Exception P {A} (m : M S A) (h : exn -> M S A) :
  emits P m -> (forall e, emits P (h e)) -> emits P (try_catch m (except_Exception h)).
Proof.
  intros Hm Hh. apply emits_try_catch; [exact Hm|].
  intros e k. unfold except_Exception. destruct (is_Exception e); intros [= <-]. apply Hh.
Qed.

End Computations.

Create HintDb calm.
#[local] Hint Resolve calm_ret calm_emit calm_log calm_gets calm_modify calm_lift
  calm_raise : calm.
Create HintDb returns.
#[local] Hint Resolve returns_ret returns_emit returns_log returns_gets returns_modify
  : returns.
Create HintDb quiet.
#[local] Hint Resolve reads_only_ret reads_only_lift reads_only_emit reads_only_gets : quiet.

(** Syntax-directed steps for [calm], [reads_only], [emits] and [keeps]. *)
Ltac calm_steps :=
  repeat first
    [ assumption
    | apply calm_bind; [|intros ?]
    | apply calm_try_Exception; [|intros ?]
    | solve [eauto with calm]
    | match goal with |- calm (if ?b then _ else _) => destruct b end
    | match goal with |- calm (match ?x with _ => _ end) => destruct x end ].

Ltac quiet_steps :=
  repeat first
    [ assumption
    | apply reads_only_bind; [|intros ?]
    | apply reads_only_try_Exception; [|intros ?]
    | solve [eauto with quiet]
    | match goal with |- reads_only (if ?b then _ else _) => destruct b end
    | match goal with |- reads_only (match ?x with _ => _ end) => destruct x end ].

(** ** The checkpoint file *)

Lemma load_state_object cfg o :
  _load_state cfg (Holds (JObject o)) =
  py_int (default (JInt (start_block cfg)) (o !! "last_processed_block")).
Proof.
  unfold _load_state. cbn.
  destruct (py_int _) as [n|e] eqn:E; [reflexivity|].
  cbn.
  assert (H : exn_eqb e FileNotFoundError || exn_eqb e JSONDecodeError = false).
  { destruct (o !! "last_processed_block") as [v|]; cbn in E; [|discriminate].
    destruct v as [| | |f|s| |]; cbn in E; try discriminate;
      try (injection E as <-; reflexivity).
    - destruct f; cbn in E; try discriminate; injection E as <-; reflexivity.
    - unfold int_of_str in E. destruct (match strip _ with [] => _ | _ => _ end);
        [discriminate|]. injection E as <-. reflexivity. }
  rewrite H. reflexivity.
Qed.




(** C9.  When [_save_state] completes with the checkpoint [h] in memory,
    the state file holds exactly the object [{"last_processed_block": h}]
    and [_load_state] on that file returns [h]; this holds for every height
    [h], in particular every non-negative one. *)
Theorem save_then_load cfg w s h :
  w_dump w = Dumped ->
  last_processed_block s = h ->
  let r := _save_state w s in
  result_of r = Ok tt /\
  file (state_of r) = Holds (JObject {[ "last_processed_block" := JInt h ]}) /\
  trace_of r = [Dump h] /\
  _load_state cfg (file (state_of r)) = Ok h.
Proof.
  intros Hw Hh. unfold _save_state. rewrite Hw. run_m. cbn. rewrite Hh.
  split; [reflexivity|]. split; [reflexivity|]. split; [reflexivity|].
  change (_load_state cfg (Holds (JObject {[ "last_processed_block" := JInt h ]})) = Ok h).
  rewrite load_state_object, lookup_singleton_eq. reflexivity.
Qed.

(** Saving and loading the height 1000100. *)
Lemma save_then_load_witness :
  let s := listener_at 1000100 in
  _load_state CONFIG (file (state_of (_save_state (world_fine 1000250 []) s))) = Ok 1000100.
Proof.
  exact (proj2 (proj2 (proj2
    (save_then_load CONFIG (world_fine 1000250 []) (listener_at 1000100) 1000100
       eq_refl eq_refl)))).
Defined.

(** ** The gas price *)





(** ** One event *)

Lemma to_wei_gwei_calm g : interrupted (to_wei_gwei g) = false.
Proof. unfold to_wei_gwei. destruct (_ && _); reflexivity. Qed.

Lemma uninterrupted_calls dw :
  uninterrupted dw = true ->
  interrupted (d_unlock dw) = false /\ interrupted (d_tx_count dw) = false /\
  interrupted (d_oracle dw) = false /\ interrupted (d_node_gas dw) = false /\
  interrupted (d_build dw) = false /\ interrupted (d_sign dw) = false.
Proof.
  unfold uninterrupted.
  destruct (interrupted (d_unlock dw)), (interrupted (d_tx_count dw)),
    (interrupted (d_oracle dw)), (interrupted (d_node_gas dw)),
    (interrupted (d_build dw)), (interrupted (d_sign dw)); cbn;
    intros H; try discriminate; repeat split.
Qed.

Lemma get_gas_price_calm dw :
  interrupted (d_oracle dw) = false -> interrupted (d_node_gas dw) = false ->
  calm (_get_gas_price dw).
Proof.
  intros Ho Hn. unfold _get_gas_price. pose proof to_wei_gwei_calm. calm_steps.
Qed.

Lemma get_gas_price_reads_only dw : reads_only (_get_gas_price dw).
Proof. unfold _get_gas_price. quiet_steps. Qed.

Lemma process_event_reads_only dw ev : reads_only (process_event dw ev).
Proof.
  unfold process_event. pose proof (get_gas_price_reads_only dw). quiet_steps.
Qed.

Lemma process_event_returns dw ev :
  uninterrupted dw = true -> returns (process_event dw ev).
Proof.
  intros H. apply uninterrupted_calls in H as (Hu & Hc & Ho & Hn & Hb & Hs).
  pose proof (get_gas_price_calm dw Ho Hn).
  unfold process_event.
  apply returns_bind; [auto with returns|intros c].
  apply returns_bind; [auto with returns|intros a].
  apply returns_bind; [auto with returns|intros w3].
  destruct c, a, w3; try apply returns_log.
  apply returns_try_Exception; [calm_steps|intros e; apply returns_log].
Qed.

Create HintDb emits.
#[local] Hint Resolve emits_ret emits_lift emits_gets emits_modify : emits.

Ltac emits_steps :=
  repeat first
    [ assumption
    | apply emits_bind; [|intros ?]
    | apply emits_try_Exception; [|intros ?]
    | solve [eauto with emits]
    | apply emits_emit; cbn; solve [repeat split]
    | match goal with |- emits _ (if ?b then _ else _) => destruct b end
    | match goal with |- emits _ (match ?x with _ => _ end) => destruct x end ].

Lemma get_gas_price_emits_logs P dw :
  (forall m, P (Log m)) -> emits P (_get_gas_price dw).
Proof.
  intros HP. unfold _get_gas_price.
  assert (forall m, emits P (log m : M processor unit))
    by (intros m; apply emits_emit, HP).
  emits_steps.
Qed.

Lemma process_event_emits dw ev : emits (unlock_effect ev) (process_event dw ev).
Proof.
  unfold process_event.
  pose proof (get_gas_price_emits_logs (unlock_effect ev) dw (fun _ => I)).
  assert (forall m, emits (unlock_effect ev) (log m : M processor unit))
    by (intros m; apply emits_emit; exact I).
  emits_steps.
Qed.

Lemma process_event_signs dw ev p h :
  In (Log (MsgWouldSend h)) (trace_of (process_event dw ev p)) ->
  exists tx, In (SignTransaction tx) (trace_of (process_event dw ev p)).
Proof.
  unfold process_event, _get_gas_price. run_m.
  destruct dw as [u c o g b sg], p as [w3 ct [a|]]; cbn; cases; cbn;
    intros H; repeat (destruct H as [H|H]; try discriminate); try contradiction.
  all: eexists; cbn; eauto 10.
Qed.

(** C7.  Whenever [process_event] reports a transaction it would send, it
    has signed one; every transaction it signs has the event's [from] as
    recipient, the event's amount, the event's nonce as [sourceNonce] and
    the gas limit 200000; and it never sends a raw transaction. *)
Theorem unlock_transaction_shape dw ev p :
  let t := trace_of (process_event dw ev p) in
  (forall h, In (Log (MsgWouldSend h)) t -> exists tx, In (SignTransaction tx) t) /\
  (forall tx, In (SignTransaction tx) t ->
     unlock_recipient tx = args_from ev /\
     unlock_amount tx = args_amount ev /\
     unlock_sourceNonce tx = args_nonce ev /\
     tx_gas tx = 200000) /\
  (forall h, ~ In (SendRawTransaction h) t).
Proof.
  cbn zeta. pose proof (process_event_emits dw ev p) as H.
  rewrite Forall_forall in H. split; [|split].
  - intros h. apply process_event_signs.
  - intros tx Hin. apply (H (SignTransaction tx)). now apply list_elem_of_In.
  - intros h Hin. apply (H (SendRawTransaction h)). now apply list_elem_of_In.
Qed.

(** The event [lock1] against a destination that answers. *)
Lemma unlock_transaction_shape_witness :
  exists tx,
    In (SignTransaction tx) (trace_of (process_event dest_fine lock1 processor_ready)) /\
    unlock_recipient tx = "0xalice" /\ unlock_amount tx = 500 /\
    unlock_sourceNonce tx = 1 /\ tx_gas tx = 200000.
Proof.
  destruct (unlock_transaction_shape dest_fine lock1 processor_ready) as (H1 & H2 & _).
  destruct (H1 "0xabc" ltac:(vm_compute; auto)) as [tx Htx].
  exists tx. split; [exact Htx|]. exact (H2 tx Htx).
Defined.

(** ** A batch *)

Lemma found_events_app t1 t2 :
  found_events (t1 ++ t2) = found_events t1 ++ found_events t2.
Proof.
  induction t1 as [|e t1 IH]; [reflexivity|].
  destruct e as [m| | | | | |]; cbn; try exact IH.
  destruct m; cbn; try exact IH. now rewrite IH.
Qed.

Lemma process_event_found dw ev p :
  found_events (trace_of (process_event dw ev p)) = [].
Proof.
  unfold process_event, _get_gas_price. run_m.
  destruct dw as [u c o g b sg], p as [w3 ct [a|]]; cbn; cases; reflexivity.
Qed.

Lemma set_event_processor_same s : set_event_processor (event_processor s) s = s.
Proof. now destruct s. Qed.

Lemma on_processor_run {A} (m : M processor A) s :
  reads_only m ->
  on_processor m s =
  (result_of (m (event_processor s)), s, trace_of (m (event_processor s))).
Proof.
  intros H. unfold on_processor, result_of, trace_of. specialize (H (event_processor s)).
  unfold state_of in H. destruct (m (event_processor s)) as [[r p] t]; cbn in *.
  subst p. now rewrite set_event_processor_same.
Qed.

Lemma for_event_in_run w s events :
  (forall i, uninterrupted (w_dest w i) = true) ->
  forall i,
  for_event_in w i events s = (Ok tt, s, batch_trace w (event_processor s) i events).
Proof.
  intros Hw. induction events as [|ev rest IH]; intros i; [reflexivity|].
  cbn [for_event_in batch_trace]. rewrite run_bind. cbn.
  rewrite run_bind, on_processor_run by apply process_event_reads_only.
  destruct (process_event_returns _ ev (Hw i) (event_processor s)) as [[] ->].
  rewrite IH. reflexivity.
Qed.

Lemma batch_trace_found w p events :
  forall i, found_events (batch_trace w p i events) = events.
Proof.
  induction events as [|ev rest IH]; intros i; [reflexivity|].
  cbn. rewrite found_events_app, process_event_found, IH. reflexivity.
Qed.

(** C6.  When the source contract is bound and the range query returns
    [events], [_process_block_range] hands every event of the batch, in
    order, to [process_event], whatever [Exception] the destination side
    raises for any of them (not initialised, transaction count, gas price,
    building, signing); [process_event] itself returns normally each time.
    Only the shutdown signal is excluded. *)
Theorem batch_survives_failures cfg w s from_block to_block events :
  source_bridge_contract s = true ->
  w_get_logs w = Ok events ->
  (forall i, uninterrupted (w_dest w i) = true) ->
  let r := _process_block_range cfg w from_block to_block s in
  r = (Ok tt, s, GetLogs from_block to_block :: batch_trace w (event_processor s) 0 events) /\
  found_events (trace_of r) = events /\
  (forall i ev, result_of (process_event (w_dest w i) ev (event_processor s)) = Ok tt).
Proof.
  intros Hc Hl Hw.
  assert (E : _process_block_range cfg w from_block to_block s =
    (Ok tt, s, GetLogs from_block to_block :: batch_trace w (event_processor s) 0 events)).
  { unfold _process_block_range. rewrite run_bind. cbn. rewrite Hc. cbn.
    rewrite run_try_catch, run_bind. cbn. rewrite run_bind, Hl. cbn.
    destruct events as [|ev rest]; [reflexivity|].
    rewrite for_event_in_run by exact Hw. reflexivity. }
  cbn zeta. rewrite E. split; [reflexivity|]. split.
  - cbn. apply batch_trace_found.
  - intros i ev. destruct (process_event_returns _ ev (Hw i) (event_processor s)) as [[] H].
    exact H.
Qed.

(** A batch of two events whose first meets a failing signer. *)
Lemma batch_survives_failures_witness :
  let w := world_first_fails 150 [lock1; lock2] in
  let s := listener_at 99 in
  _process_block_range CONFIG w 100 150 s =
    (Ok tt, s, GetLogs 100 150 :: batch_trace w (event_processor s) 0 [lock1; lock2]).
Proof.
  refine (proj1 (batch_survives_failures CONFIG (world_first_fails 150 [lock1; lock2])
            (listener_at 99) 100 150 [lock1; lock2] eq_refl eq_refl _)).
  intros [|i]; reflexivity.
Defined.

Example batch_with_failing_signer :
  trace_of (_process_block_range CONFIG (world_first_fails 150 [lock1; lock2]) 100 150
              (listener_at 99)) =
  [GetLogs 100 150;
   Log (MsgFound lock1); Log (MsgProcessing lock1);
   SignTransaction {| unlock_recipient := "0xalice"; unlock_amount := 500;
                      unlock_sourceNonce := 1; tx_from := "0xrelayer";
                      tx_nonce := 7; tx_gas := 200000; tx_gasPrice := 30000000000 |};
   Log (MsgProcessFailed lock1 ValueError);
   Log (MsgFound lock2); Log (MsgProcessing lock2);
   SignTransaction {| unlock_recipient := "0xbob"; unlock_amount := 75;
                      unlock_sourceNonce := 2; tx_from := "0xrelayer";
                      tx_nonce := 7; tx_gas := 200000; tx_gasPrice := 30000000000 |};
   Log (MsgWouldSend "0xabc")].
Proof. reflexivity. Qed.

(** ** One cycle *)

Lemma sleep_run {S} seconds outcome (s : S) :
  sleep seconds outcome s =
  if seconds <? 0 then (Raise ValueError, s, []) else (outcome, s, [Sleep seconds]).
Proof.
  unfold sleep. destruct (seconds <? 0); [reflexivity|].
  rewrite run_bind. cbn. now destruct outcome.
Qed.

(** How an iteration ends, from how its body ends. *)
Lemma cycle_run cfg w s :
  cycle cfg w s =
  match cycle_body cfg w s with
  | (Ok _, s1, t1) => (Ok Continue, s1, t1)
  | (Raise KeyboardInterrupt, s1, t1) => (Ok Break, s1, t1 ++ [Log MsgShutdown])
  | (Raise e, s1, t1) =>
      if poll_interval_seconds cfg * 2 <? 0
      then (Raise ValueError, s1, t1 ++ [Log (MsgUnexpected e)])
      else (match w_backoff w with Ok _ => Ok Continue | Raise e' => Raise e' end,
            s1, t1 ++ [Log (MsgUnexpected e); Sleep (poll_interval_seconds cfg * 2)])
  end.
Proof.
  unfold cycle. rewrite run_try_catch, run_bind.
  destruct (cycle_body cfg w s) as [[[[]|e] s1] t1]; cbn.
  - now rewrite app_nil_r.
  - destruct e; unfold except_Exception; cbn [is_Exception];
      rewrite !run_bind; cbn [log emit result_of state_of trace_of fst snd];
      try reflexivity;
      rewrite !run_bind, sleep_run;
      destruct (poll_interval_seconds cfg * 2 <? 0); cbn; try reflexivity;
      destruct (w_backoff w) as [[]|e']; reflexivity.
Qed.

Lemma is_connected_run probe s :
  is_connected probe s = (if source_web3 s then probe else Ok false, s, []).
Proof.
  unfold is_connected. rewrite run_bind. cbn. destruct (source_web3 s); reflexivity.
Qed.

Lemma get_latest_block_number_live w s latest :
  source_web3 s = true -> w_live_again w = Ok true -> w_block_number w = Ok latest ->
  get_latest_block_number w s = (Ok (Some latest), s, []).
Proof.
  intros H1 H2 H3. unfold get_latest_block_number.
  rewrite run_bind, is_connected_run, H1, H2. cbn.
  rewrite run_bind. cbn. rewrite H1. cbn.
  rewrite run_try_catch, run_bind. cbn. rewrite H3. reflexivity.
Qed.

Lemma cycle_body_live cfg w s latest :
  source_web3 s = true -> w_live w = Ok true ->
  w_live_again w = Ok true -> w_block_number w = Ok latest ->
  cycle_body cfg w s = scan_from cfg w latest s.
Proof.
  intros H1 H2 H3 H4. unfold cycle_body.
  rewrite run_bind, is_connected_run, H1, H2. cbn.
  rewrite run_bind, (get_latest_block_number_live w s latest H1 H3 H4). cbn.
  unfold scan_from.
  match goal with |- (result_of ?x, _, _) = _ => destruct x as [[r s1] t1] end.
  reflexivity.
Qed.

Lemma emits_weaken {S A} (P Q : effect -> Prop) (m : M S A) :
  (forall e, P e -> Q e) -> emits P m -> emits Q m.
Proof. intros H Hm s. eapply Forall_impl; [apply Hm|exact H]. Qed.

Lemma emits_on_processor {A} P (m : M processor A) : emits P m -> emits P (on_processor m).
Proof.
  intros H s. unfold on_processor, trace_of. specialize (H (event_processor s)).
  unfold trace_of in H. now destruct (m (event_processor s)) as [[r p] t].
Qed.

Lemma emits_sleep {S} (P : effect -> Prop) seconds outcome :
  (forall d, P (Sleep d)) -> emits P (sleep seconds outcome : M S unit).
Proof.
  intros H s. rewrite sleep_run. destruct (seconds <? 0); repeat constructor. apply H.
Qed.

Lemma for_event_in_emits P w events :
  (forall m, P (Log m)) -> (forall tx, P (SignTransaction tx)) ->
  forall i, emits P (for_event_in w i events).
Proof.
  intros HL HS. induction events as [|ev rest IH]; intros i; cbn [for_event_in].
  - apply emits_ret.
  - apply emits_bind; [apply emits_emit, HL|intros _].
    apply emits_bind; [|intros _; apply IH].
    apply emits_on_processor.
    apply (emits_weaken (unlock_effect ev)); [|apply process_event_emits].
    intros [m|d| |f t|tx|h|h]; cbn; intros H; try contradiction; auto.
Qed.

Lemma process_block_range_emits P cfg w from_block to_block :
  (forall m, P (Log m)) -> (forall tx, P (SignTransaction tx)) ->
  (forall d, P (Sleep d)) -> P (GetLogs from_block to_block) ->
  emits P (_process_block_range cfg w from_block to_block).
Proof.
  intros HL HS HD HG. unfold _process_block_range.
  apply emits_bind; [apply emits_gets|intros c].
  destruct (negb c); [apply emits_emit, HL|].
  apply emits_try_catch.
  - apply emits_bind; [apply emits_emit, HG|intros _].
    apply emits_bind; [apply emits_lift|intros events].
    destruct events; [apply emits_ret|]. now apply for_event_in_emits.
  - intros e h. unfold except_Exception.
    destruct e; cbn; intros [= <-]; try (apply emits_emit, HL).
    apply emits_bind; [apply emits_emit, HL|intros _]. now apply emits_sleep.
Qed.

Lemma save_state_emits (P : effect -> Prop) w : (forall h, P (Dump h)) -> emits P (_save_state w).
Proof.
  intros H. unfold _save_state. destruct (w_dump w).
  - apply emits_bind; [apply emits_gets|intros h].
    apply emits_bind; [apply emits_modify|intros _]. apply emits_emit, H.
  - apply emits_lift.
  - apply emits_bind; [apply emits_modify|intros _]. apply emits_lift.
Qed.

Lemma cycle_emits (P : effect -> Prop) cfg w s :
  (forall e, P (Log (MsgUnexpected e))) -> P (Log MsgShutdown) -> (forall d, P (Sleep d)) ->
  Forall P (trace_of (cycle_body cfg w s)) -> Forall P (trace_of (cycle cfg w s)).
Proof.
  intros HL HS HD. rewrite cycle_run. unfold trace_of.
  destruct (cycle_body cfg w s) as [[[[]|e] s1] t1]; cbn; [auto|]. intros H.
  destruct e; cbn; try destruct (_ <? 0); cbn; apply Forall_app; split; auto;
    repeat constructor; auto.
Qed.

Lemma cycle_state cfg w s : state_of (cycle cfg w s) = state_of (cycle_body cfg w s).
Proof.
  rewrite cycle_run. unfold state_of.
  destruct (cycle_body cfg w s) as [[[[]|e] s1] t1]; cbn; [reflexivity|].
  destruct e; cbn; try destruct (_ <? 0); reflexivity.
Qed.

Lemma cycle_trace_prefix cfg w s :
  exists t, trace_of (cycle cfg w s) = trace_of (cycle_body cfg w s) ++ t.
Proof.
  rewrite cycle_run. unfold trace_of.
  destruct (cycle_body cfg w s) as [[[[]|e] s1] t1]; cbn.
  - exists []. now rewrite app_nil_r.
  - destruct e; cbn; try destruct (_ <? 0); cbn; eauto.
Qed.

Lemma scan_from_new_blocks cfg w latest s :
  let from_block := last_processed_block s + 1 in
  let to_block := Z.min latest (from_block + block_processing_batch_size cfg - 1) in
  from_block <= latest ->
  scan_from cfg w latest s =
  ((log (MsgScanning from_block to_block);;
    _process_block_range cfg w from_block to_block;;
    modify (set_last_processed_block to_block);;
    _save_state w);;
   sleep (poll_interval_seconds cfg) (w_sleep w)) s.
Proof.
  intros from_block to_block Hle. unfold scan_from at 1. rewrite run_bind. cbn.
  fold from_block. fold to_block.
  replace (from_block >? latest) with false by (rewrite Z.gtb_ltb; symmetry; apply Z.ltb_ge; lia).
  match goal with |- (result_of ?x, _, _) = _ => destruct x as [[r s1] t1] end.
  reflexivity.
Qed.

Lemma scan_from_no_blocks cfg w latest s :
  latest < last_processed_block s + 1 ->
  scan_from cfg w latest s =
  (log (MsgNoNewBlocks latest);; sleep (poll_interval_seconds cfg) (w_sleep w)) s.
Proof.
  intros Hlt. unfold scan_from at 1. rewrite run_bind. cbn.
  replace (last_processed_block s + 1 >? latest) with true
    by (rewrite Z.gtb_ltb; symmetry; apply Z.ltb_lt; lia).
  match goal with |- (result_of ?x, _, _) = _ => destruct x as [[r s1] t1] end.
  reflexivity.
Qed.

Lemma process_block_range_queries cfg w from_block to_block s :
  source_bridge_contract s = true ->
  exists t,
    trace_of (_process_block_range cfg w from_block to_block s) =
    GetLogs from_block to_block :: t.
Proof.
  intros Hc. unfold _process_block_range. rewrite run_bind. cbn. rewrite Hc. cbn.
  rewrite run_try_catch, run_bind. cbn.
  match goal with |- context [result_of ?x] => destruct x as [[[a|e] s1] t1] end; cbn;
    [eauto|].
  match goal with |- context [match ?x with Some _ => _ | None => _ end] => destruct x end;
    cbn; eauto.
Qed.

(** C3.  In a cycle that reaches the range computation with checkpoint
    [C], head [L] and batch size [B >= 1], the range is [from = C + 1],
    [to = min L (from + B - 1)].  When [from <= L] the cycle announces and
    queries exactly that range, which is not empty and at most [B] long.
    When [from > L] nothing is scanned or written and the state, with its
    checkpoint, is as before. *)
Theorem batch_bounding cfg w s latest :
  1 <= block_processing_batch_size cfg ->
  source_web3 s = true -> w_live w = Ok true ->
  w_live_again w = Ok true -> w_block_number w = Ok latest ->
  let from_block := last_processed_block s + 1 in
  let to_block := Z.min latest (from_block + block_processing_batch_size cfg - 1) in
  let r := cycle cfg w s in
  (from_block <= latest ->
     from_block <= to_block /\
     to_block - from_block + 1 <= block_processing_batch_size cfg /\
     to_block <= latest /\
     (exists t, trace_of r = Log (MsgScanning from_block to_block) :: t) /\
     Forall (range_effect from_block to_block) (trace_of r) /\
     (source_bridge_contract s = true -> In (GetLogs from_block to_block) (trace_of r))) /\
  (latest < from_block ->
     state_of r = s /\ Forall idle_effect (trace_of r)).
Proof.
  intros HB H1 H2 H3 H4 from_block to_block r.
  pose proof (cycle_body_live cfg w s latest H1 H2 H3 H4) as Hbody.
  destruct (cycle_trace_prefix cfg w s) as [t' Ht'].
  split.
  - intros Hle. split; [subst to_block; lia|]. split; [subst to_block; lia|].
    split; [subst to_block; lia|].
    rewrite (scan_from_new_blocks cfg w latest s Hle) in Hbody.
    fold from_block in Hbody. fold to_block in Hbody.
    assert (Hhead : exists x, trace_of (cycle_body cfg w s) =
              Log (MsgScanning from_block to_block) ::
              trace_of (_process_block_range cfg w from_block to_block s) ++ x).
    { rewrite Hbody.
      destruct (trace_bind_prefix
        (log (MsgScanning from_block to_block);;
         _process_block_range cfg w from_block to_block;;
         modify (set_last_processed_block to_block);;
         _save_state w)
        (fun _ => sleep (poll_interval_seconds cfg) (w_sleep w)) s) as [x1 ->].
      rewrite trace_log_bind.
      destruct (trace_bind_prefix
        (_process_block_range cfg w from_block to_block)
        (fun _ => modify (set_last_processed_block to_block);; _save_state w) s)
        as [x2 ->].
      exists (x2 ++ x1). cbn. now rewrite <- app_assoc. }
    destruct Hhead as [x Hx].
    split; [|split].
    + subst r. rewrite Ht', Hx. cbn. eauto.
    + apply cycle_emits; [intros e; exact I|exact I|intros d; exact I|].
      rewrite Hbody.
      apply emits_bind; [|intros _; apply emits_sleep; intros d; exact I].
      apply emits_bind; [apply emits_emit; cbn; auto|intros _].
      apply emits_bind; [|intros _].
      { apply process_block_range_emits; cbn; auto. }
      apply emits_bind; [apply emits_modify|intros _].
      apply save_state_emits. intros h; exact I.
    + intros Hc. subst r. rewrite Ht', Hx.
      destruct (process_block_range_queries cfg w from_block to_block s Hc) as [t1 ->].
      cbn. auto.
  - intros Hlt. rewrite (scan_from_no_blocks cfg w latest s Hlt) in Hbody. split.
    + subst r. rewrite cycle_state, Hbody, run_bind. cbn. now rewrite sleep_run; destruct (_ <? 0).
    + apply cycle_emits; [intros e; exact I|exact I|intros d; exact I|].
      * rewrite Hbody.
        apply emits_bind; [apply emits_emit; exact I|intros _].
        apply emits_sleep. intros d; exact I.
Qed.

(** The third cycle of the scenario: checkpoint 1000200, head 1000250. *)
Lemma batch_bounding_witness :
  let r := cycle CONFIG (world_fine 1000250 []) (listener_at 1000200) in
  1000201 <= 1000250 /\
  1000250 - 1000201 + 1 <= 100 /\
  In (GetLogs 1000201 1000250) (trace_of r).
Proof.
  pose proof (proj1 (batch_bounding CONFIG (world_fine 1000250 []) (listener_at 1000200)
    1000250 ltac:(cbn; lia) eq_refl eq_refl eq_refl eq_refl) ltac:(cbn; lia))
    as (H1 & H2 & _ & _ & _ & H3).
  split; [exact H1|]. split; [exact H2|]. exact (H3 eq_refl).
Defined.

(** ** The loop *)

Lemma iterate_cons cfg w ws s :
  iterate cfg (w :: ws) s =
  match cycle cfg w s with
  | (Ok Continue, s1, t1) =>
      (result_of (iterate cfg ws s1), state_of (iterate cfg ws s1),
       t1 ++ trace_of (iterate cfg ws s1))
  | (Ok Break, s1, t1) => (Ok Break, s1, t1)
  | (Raise e, s1, t1) => (Raise e, s1, t1)
  end.
Proof.
  cbn [iterate]. rewrite run_bind.
  destruct (cycle cfg w s) as [[[[]|e] s1] t1]; cbn; try reflexivity.
  now rewrite app_nil_r.
Qed.

(** C8.  An [Exception] that leaves the body of a cycle is caught by the
    loop: the cycle logs it, sleeps twice the poll interval (provided the
    interval is not negative and that sleep is not interrupted) and the loop
    goes on with the next cycle.  The loop is left through [break] exactly
    when the body raises the shutdown signal [KeyboardInterrupt], and an
    exception leaves [run] only when it interrupts the sleep of the
    [except Exception] clause. *)
Theorem backoff_and_continue cfg w s :
  0 <= poll_interval_seconds cfg ->
  (forall e s1 t1,
     cycle_body cfg w s = (Raise e, s1, t1) ->
     is_Exception e = true ->
     w_backoff w = Ok tt ->
     let t := t1 ++ [Log (MsgUnexpected e); Sleep (poll_interval_seconds cfg * 2)] in
     cycle cfg w s = (Ok Continue, s1, t) /\
     forall ws,
       iterate cfg (w :: ws) s =
       (result_of (iterate cfg ws s1), state_of (iterate cfg ws s1),
        t ++ trace_of (iterate cfg ws s1))) /\
  (result_of (cycle cfg w s) = Ok Break <->
   exists s1 t1, cycle_body cfg w s = (Raise KeyboardInterrupt, s1, t1)) /\
  (forall e', result_of (cycle cfg w s) = Raise e' -> w_backoff w = Raise e').
Proof.
  intros Hpoll.
  assert (Hneg : (poll_interval_seconds cfg * 2 <? 0) = false) by (apply Z.ltb_ge; lia).
  split; [|split].
  - intros e s1 t1 Hbody He Hb. cbn zeta.
    assert (Hc : cycle cfg w s =
      (Ok Continue, s1, t1 ++ [Log (MsgUnexpected e); Sleep (poll_interval_seconds cfg * 2)])).
    { rewrite cycle_run, Hbody, Hneg, Hb. destruct e; try reflexivity. discriminate. }
    split; [exact Hc|]. intros ws. now rewrite iterate_cons, Hc.
  - rewrite cycle_run. unfold result_of.
    destruct (cycle_body cfg w s) as [[[[]|e] s1] t1]; cbn.
    + split; [discriminate|]. intros (? & ? & [=]).
    + destruct e; cbn; rewrite ?Hneg; cbn;
        try (split; [destruct (w_backoff w); discriminate|intros (? & ? & [=])]).
      split; eauto.
  - intros e'. rewrite cycle_run. unfold result_of.
    destruct (cycle_body cfg w s) as [[[[]|e] s1] t1]; cbn; [discriminate|].
    destruct e; cbn; rewrite ?Hneg; cbn; try discriminate;
      destruct (w_backoff w); try discriminate; congruence.
Qed.

(** A cycle in which the state file cannot be written: the error is
    logged, the sleep is 30 seconds, the loop continues. *)
Lemma backoff_and_continue_witness :
  result_of (cycle CONFIG (world_disk_full 150) (listener_at 99)) = Ok Continue /\
  trace_of (cycle CONFIG (world_disk_full 150) (listener_at 99)) =
    [Log (MsgScanning 100 150); GetLogs 100 150;
     Log (MsgUnexpected PermissionError); Sleep 30].
Proof.
  pose proof (proj1 (proj1 (backoff_and_continue CONFIG (world_disk_full 150) (listener_at 99)
    ltac:(cbn; lia)) PermissionError _ _ eq_refl eq_refl eq_refl)) as H.
  rewrite H. split; reflexivity.
Defined.

(** ** A failed range query *)

(** C1, as the code runs it.  With the checkpoint at 99, the head at 150
    and a batch of 100, the query for the range 100..150 raises
    [BlockNotFound].  The listener logs that it will retry and sleeps, and
    the cycle still moves the checkpoint to 150 and writes it; the next
    cycle finds no new blocks and does not ask for 100..150 again. *)
Theorem block_not_found_advances_checkpoint :
  let r1 := cycle CONFIG (world_logs 150 (Raise BlockNotFound)) (listener_at 99) in
  let r2 := cycle CONFIG (world_fine 150 []) (state_of r1) in
  trace_of r1 =
    [Log (MsgScanning 100 150); GetLogs 100 150; Log (MsgWillRetry 100 150); Sleep 15;
     Dump 150; Sleep 15] /\
  last_processed_block (state_of r1) = 150 /\
  file (state_of r1) = dumped_state 150 /\
  trace_of r2 = [Log (MsgNoNewBlocks 150); Sleep 15].
Proof. vm_compute. repeat split; reflexivity. Qed.

(** C2, as the code runs it.  In every cycle that scans a range and whose
    log query fails with an [Exception], the checkpoint in memory and on
    disk becomes the end of that range: a height is persisted whose range
    was not queried successfully. *)
Theorem failed_query_is_checkpointed cfg w s latest e :
  source_web3 s = true -> w_live w = Ok true ->
  w_live_again w = Ok true -> w_block_number w = Ok latest ->
  source_bridge_contract s = true ->
  w_get_logs w = Raise e -> is_Exception e = true ->
  0 <= poll_interval_seconds cfg -> w_nap w = Ok tt -> w_dump w = Dumped ->
  last_processed_block s + 1 <= latest ->
  let to_block :=
    Z.min latest (last_processed_block s + 1 + block_processing_batch_size cfg - 1) in
  let r := cycle cfg w s in
  last_processed_block (state_of r) = to_block /\
  file (state_of r) = dumped_state to_block /\
  In (Dump to_block) (trace_of r).
Proof.
  intros H1 H2 H3 H4 Hc Hl He Hp Hn Hd Hle to_block r.
  pose proof (cycle_body_live cfg w s latest H1 H2 H3 H4) as Hbody.
  rewrite (scan_from_new_blocks cfg w latest s Hle) in Hbody.
  fold to_block in Hbody.
  assert (Hpbr : exists t,
    _process_block_range cfg w (last_processed_block s + 1) to_block s = (Ok tt, s, t)).
  { unfold _process_block_range. rewrite run_bind. cbn. rewrite Hc. cbn.
    rewrite run_try_catch, run_bind. cbn. rewrite run_bind, Hl. cbn.
    destruct e; try discriminate; unfold except_Exception; cbn; eauto.
    rewrite run_bind. cbn. rewrite sleep_run, Hn.
    destruct (Z.ltb_spec (poll_interval_seconds cfg) 0); [lia|]. cbn. eauto. }
  destruct Hpbr as [t1 Hpbr].
  assert (Hrun : exists x t,
    cycle_body cfg w s =
    (x, set_file (dumped_state to_block) (set_last_processed_block to_block s),
     t ++ Dump to_block :: [Sleep (poll_interval_seconds cfg)])).
  { rewrite Hbody. rewrite !run_bind. cbn. rewrite !run_bind, Hpbr. cbn.
    rewrite !run_bind. cbn. unfold _save_state. rewrite Hd.
    rewrite !run_bind. cbn. rewrite sleep_run.
    destruct (Z.ltb_spec (poll_interval_seconds cfg) 0); [lia|]. cbn.
    exists (w_sleep w), (Log (MsgScanning (last_processed_block s + 1) to_block) :: t1).
    rewrite <- !app_assoc. reflexivity. }
  destruct Hrun as (x & t & Hrun).
  subst r. rewrite cycle_state, Hrun. cbn.
  split; [reflexivity|]. split; [reflexivity|].
  destruct (cycle_trace_prefix cfg w s) as [t' ->]. rewrite Hrun. cbn.
  apply in_or_app. left. apply in_or_app. right. now left.
Qed.

(** The query for 100..150 times out. *)
Lemma failed_query_is_checkpointed_witness :
  file (state_of (cycle CONFIG (world_logs 150 (Raise (OtherException "timeout")))
                    (listener_at 99)))
  = dumped_state 150.
Proof.
  exact (proj1 (proj2
    (failed_query_is_checkpointed CONFIG (world_logs 150 (Raise (OtherException "timeout")))
       (listener_at 99) 150 (OtherException "timeout")
       eq_refl eq_refl eq_refl eq_refl eq_refl eq_refl eq_refl
       ltac:(cbn; lia) eq_refl eq_refl ltac:(cbn; lia)))).
Defined.

(** Two cycles of [run]: the first query fails, the second cycle scans
    from 151. *)
Example failed_scan_then_next_range :
  let r := run CONFIG
             [world_logs 150 (Raise (OtherException "timeout")); world_fine 260 []]
             (listener_at 99) in
  trace_of r =
    [Log MsgStarting;
     Log (MsgScanning 100 150); GetLogs 100 150;
     Log (MsgFetchError 100 150 (OtherException "timeout")); Dump 150; Sleep 15;
     Log (MsgScanning 151 250); GetLogs 151 250; Dump 250; Sleep 15] /\
  file (state_of r) = dumped_state 250 /\
  _load_state CONFIG (file (state_of r)) = Ok 250.
Proof. vm_compute. repeat split; reflexivity. Qed.

(** ** The persisted checkpoint never decreases *)

Lemma dumps_app t1 t2 : dumps (t1 ++ t2) = dumps t1 ++ dumps t2.
Proof.
  induction t1 as [|e t1 IH]; [reflexivity|]. destruct e; cbn; now rewrite ?IH.
Qed.

Lemma ascending_from lo lo' l hi : lo <= lo' -> ascending lo' l hi -> ascending lo l hi.
Proof. destruct l; cbn; [lia|]. intros H [H1 H2]. split; [lia|exact H2]. Qed.

Lemma ascending_app lo l1 mid l2 hi :
  ascending lo l1 mid -> ascending mid l2 hi -> ascending lo (l1 ++ l2) hi.
Proof.
  revert lo. induction l1 as [|x l1 IH]; cbn; intros lo.
  - intros H. now apply ascending_from.
  - intros [H1 H2] H3. split; [exact H1|]. now apply IH.
Qed.

Lemma rises_bind {A B} (m : M listener A) (k : A -> M listener B) s :
  rises m s ->
  (forall a, result_of (m s) = Ok a -> rises (k a) (state_of (m s))) ->
  rises (m ≫= k) s.
Proof.
  unfold rises. rewrite run_bind. unfold result_of, state_of, trace_of.
  destruct (m s) as [[[a|e] s1] t1]; cbn; [|auto].
  intros H1 H2. rewrite dumps_app. eapply ascending_app; [exact H1|]. now apply H2.
Qed.

Lemma keeps_rises {A} (m : M listener A) s : keeps m -> rises m s.
Proof.
  intros H. unfold rises. destruct (H s) as [H1 H2]. rewrite H1, H2. cbn. lia.
Qed.

Lemma keeps_ret {A} (a : A) : keeps (mret a).
Proof. intros s. now split. Qed.

Lemma keeps_lift {A} (r : res A) : keeps (lift r).
Proof. intros s. now split. Qed.

Lemma keeps_gets {A} (f : listener -> A) : keeps (gets f).
Proof. intros s. now split. Qed.

Lemma keeps_log x : keeps (log x).
Proof. intros s. now split. Qed.

Lemma keeps_emit e : (forall h, e <> Dump h) -> keeps (emit e).
Proof. intros H s. split; [reflexivity|]. destruct e; try reflexivity. now destruct (H h). Qed.

Lemma keeps_modify f :
  (forall s, last_processed_block (f s) = last_processed_block s) -> keeps (modify f).
Proof. intros H s. split; [apply H|reflexivity]. Qed.

Lemma keeps_bind {A B} (m : M listener A) (k : A -> M listener B) :
  keeps m -> (forall a, keeps (k a)) -> keeps (m ≫= k).
Proof.
  intros Hm Hk s. rewrite run_bind. destruct (Hm s) as [H1 H2].
  unfold state_of, trace_of in *. destruct (m s) as [[[a|e] s1] t1]; cbn in *; [|auto].
  destruct (Hk a s1) as [H3 H4]. unfold state_of, trace_of in *.
  rewrite dumps_app, H2, H3, H4. auto.
Qed.

Lemma keeps_try_catch {A} (m : M listener A) handler :
  keeps m -> (forall e h, handler e = Some h -> keeps h) -> keeps (try_catch m handler).
Proof.
  intros Hm Hh s. rewrite run_try_catch. destruct (Hm s) as [H1 H2].
  unfold state_of, trace_of in *. destruct (m s) as [[[a|e] s1] t1]; cbn in *; [auto|].
  destruct (handler e) as [h|] eqn:E; cbn; [|auto].
  destruct (Hh _ _ E s1) as [H3 H4]. unfold state_of, trace_of in *.
  rewrite dumps_app, H2, H3, H4. auto.
Qed.

Lemma keeps_try_Exception {A} (m : M listener A) (h : exn -> M listener A) :
  keeps m -> (forall e, keeps (h e)) -> keeps (try_catch m (except_Exception h)).
Proof.
  intros Hm Hh. apply keeps_try_catch; [exact Hm|].
  intros e k. unfold except_Exception. destruct (is_Exception e); intros [= <-]. apply Hh.
Qed.

Lemma keeps_sleep seconds outcome : keeps (sleep seconds outcome).
Proof. intros s. rewrite sleep_run. destruct (seconds <? 0); now split. Qed.

Lemma dumps_none t : Forall (fun e => forall h, e <> Dump h) t -> dumps t = [].
Proof.
  induction 1 as [|e t He _ IH]; [reflexivity|].
  destruct e; cbn; try exact IH. now destruct (He h).
Qed.

Lemma keeps_on_processor {A} (m : M processor A) :
  emits (fun e => forall h, e <> Dump h) m -> keeps (on_processor m).
Proof.
  intros H s. specialize (H (event_processor s)). apply dumps_none in H.
  unfold on_processor, state_of, trace_of in *.
  destruct (m (event_processor s)) as [[r p] t]. cbn in *. auto.
Qed.

Create HintDb keeps.
#[local] Hint Resolve keeps_ret keeps_lift keeps_gets keeps_log keeps_sleep : keeps.

Ltac keeps_steps :=
  repeat first
    [ assumption
    | apply keeps_bind; [|intros ?]
    | apply keeps_try_Exception; [|intros ?]
    | solve [eauto with keeps]
    | apply keeps_emit; discriminate
    | apply keeps_modify; intros ?; reflexivity
    | match goal with |- keeps (if ?b then _ else _) => destruct b end
    | match goal with |- keeps (match ?x with _ => _ end) => destruct x end ].

Lemma is_connected_keeps probe : keeps (is_connected probe).
Proof. unfold is_connected. keeps_steps. Qed.

Lemma connect_keeps probe : keeps (connect probe).
Proof. unfold connect, raise. keeps_steps. Qed.

Lemma get_latest_block_number_keeps w : keeps (get_latest_block_number w).
Proof.
  unfold get_latest_block_number. pose proof (is_connected_keeps (w_live_again w)).
  keeps_steps.
Qed.

Lemma for_event_in_keeps w events : forall i, keeps (for_event_in w i events).
Proof.
  induction events as [|ev rest IH]; intros i; cbn [for_event_in]; [apply keeps_ret|].
  apply keeps_bind; [apply keeps_log|intros _].
  apply keeps_bind; [|intros _; apply IH].
  apply keeps_on_processor.
  apply (emits_weaken (unlock_effect ev)); [|apply process_event_emits].
  intros e He h' ->. exact He.
Qed.

Lemma process_block_range_keeps cfg w from_block to_block :
  keeps (_process_block_range cfg w from_block to_block).
Proof.
  unfold _process_block_range.
  apply keeps_bind; [apply keeps_gets|intros c].
  destruct (negb c); [apply keeps_log|].
  apply keeps_try_catch.
  - apply keeps_bind; [apply keeps_emit; discriminate|intros _].
    apply keeps_bind; [apply keeps_lift|intros events].
    destruct events; [apply keeps_ret|apply for_event_in_keeps].
  - intros e h. unfold except_Exception.
    destruct e; cbn; intros [= <-]; keeps_steps.
Qed.

Lemma save_state_rises w s : rises (_save_state w) s.
Proof.
  unfold rises, _save_state. destruct (w_dump w); run_m; cbn; lia.
Qed.

Lemma scan_from_rises cfg w latest s :
  0 <= block_processing_batch_size cfg -> rises (scan_from cfg w latest) s.
Proof.
  intros HB. unfold scan_from.
  apply rises_bind; [apply keeps_rises, keeps_gets|]. cbn. intros c [= <-].
  apply rises_bind; [|intros _ _; apply keeps_rises, keeps_sleep].
  destruct (Z.gtb_spec (last_processed_block s + 1) latest) as [Hgt|Hle];
    [apply keeps_rises, keeps_log|].
  apply rises_bind; [apply keeps_rises, keeps_log|]. cbn. intros _ _.
  set (to_block := Z.min _ _).
  pose proof (process_block_range_keeps cfg w (last_processed_block s + 1) to_block s)
    as [Hk1 Hk2].
  apply rises_bind; [apply keeps_rises, process_block_range_keeps|]. intros _ _.
  apply rises_bind; [|intros _ _; apply save_state_rises].
  unfold rises. cbn. rewrite Hk1. subst to_block. lia.
Qed.

Lemma cycle_body_rises cfg w s :
  0 <= block_processing_batch_size cfg -> rises (cycle_body cfg w) s.
Proof.
  intros HB. unfold cycle_body.
  apply rises_bind; [apply keeps_rises, is_connected_keeps|]. intros live _.
  pose proof (is_connected_keeps (w_live w) s) as [Hs _].
  destruct (negb live).
  - apply keeps_rises. pose proof (connect_keeps (w_connect w)). keeps_steps.
  - apply rises_bind; [apply keeps_rises, get_latest_block_number_keeps|].
    intros [latest|] _; [|apply keeps_rises, keeps_sleep].
    now apply scan_from_rises.
Qed.

Lemma cycle_rises cfg w s :
  0 <= block_processing_batch_size cfg -> rises (cycle cfg w) s.
Proof.
  intros HB. pose proof (cycle_body_rises cfg w s HB) as H. unfold rises in *.
  rewrite cycle_state. destruct (cycle_trace_prefix cfg w s) as [t Ht].
  revert Ht. rewrite cycle_run. unfold trace_of, state_of in *.
  destruct (cycle_body cfg w s) as [[[[]|e] s1] t1]; cbn in *; [auto|].
  destruct e; cbn; try destruct (_ <? 0); cbn; intros _; rewrite dumps_app; cbn;
    rewrite app_nil_r; exact H.
Qed.

(** Whatever happens in the cycles of a run, the heights written to the
    state file ascend from the checkpoint the run starts with. *)
Lemma checkpoint_monotone cfg ws :
  0 <= block_processing_batch_size cfg ->
  forall s, rises (iterate cfg ws) s.
Proof.
  intros HB. induction ws as [|w ws IH]; intros s; [unfold rises; cbn; lia|].
  cbn [iterate]. apply rises_bind; [now apply cycle_rises|].
  intros [] _; [apply IH|apply keeps_rises, keeps_ret].
Qed.

(** ** Runs of the model *)

Example int_of_str_plain : int_of_str "1000100" = Ok 1000100.
Proof. reflexivity. Qed.

Example int_of_str_padded : int_of_str "  -12_3 " = Ok (-123).
Proof. reflexivity. Qed.

Example int_of_str_bad : int_of_str "1__2" = Raise ValueError.
Proof. reflexivity. Qed.

Example load_absent : _load_state CONFIG (Unloadable FileNotFoundError) = Ok 1000000.
Proof. reflexivity. Qed.

Example load_list : _load_state CONFIG (Holds (JArray [])) = Raise AttributeError.
Proof. reflexivity. Qed.

Example load_dumped : _load_state CONFIG (dumped_state 42) = Ok 42.
Proof. reflexivity. Qed.

Example process_lock1 :
  process_event dest_fine lock1 processor_ready =
  (Ok tt, processor_ready,
   [Log (MsgProcessing lock1);
    SignTransaction {| unlock_recipient := "0xalice"; unlock_amount := 500;
                       unlock_sourceNonce := 1; tx_from := "0xrelayer";
                       tx_nonce := 7; tx_gas := 200000;
                       tx_gasPrice := 30000000000 |};
    Log (MsgWouldSend "0xabc")]).
Proof. reflexivity. Qed.

(** The scenario of four cycles from start height 1000000 with the head at
    1000250. *)
Example end_to_end :
  let r := iterate CONFIG (repeat (world_fine 1000250 []) 4) (listener_at 1000000) in
  result_of r = Ok Continue /\
  last_processed_block (state_of r) = 1000250 /\
  trace_of r =
    [Log (MsgScanning 1000001 1000100); GetLogs 1000001 1000100; Dump 1000100; Sleep 15;
     Log (MsgScanning 1000101 1000200); GetLogs 1000101 1000200; Dump 1000200; Sleep 15;
     Log (MsgScanning 1000201 1000250); GetLogs 1000201 1000250; Dump 1000250; Sleep 15;
     Log (MsgNoNewBlocks 1000250); Sleep 15].
Proof. vm_compute. repeat split; reflexivity. Qed.

(** * More properties of [script.py] *)

(** ** Invariants of a computation *)

Lemma emits_anything {S A} (m : M S A) : emits (fun _ => True) m.
Proof. intros s. apply Forall_forall. trivial. Qed.

Lemma inv_quiet {A} I P (m : M listener A) : reads_only m -> emits P m -> inv I P m.
Proof. intros Hr He s Hs. split; [apply He|]. now rewrite Hr. Qed.

Lemma inv_ret {A} I P (a : A) : inv I P (mret a).
Proof. intros s Hs. split; [constructor|exact Hs]. Qed.

Lemma inv_lift {A} I P (r : res A) : inv I P (lift r).
Proof. intros s Hs. split; [constructor|exact Hs]. Qed.

Lemma inv_gets {A} I P (f : listener -> A) : inv I P (gets f).
Proof. intros s Hs. split; [constructor|exact Hs]. Qed.

Lemma inv_emit I (P : effect -> Prop) e : P e -> inv I P (emit e).
Proof. intros H s Hs. split; [repeat constructor; exact H|exact Hs]. Qed.

Lemma inv_modify (I : listener -> Prop) P f : (forall s, I s -> I (f s)) -> inv I P (modify f).
Proof. intros H s Hs. split; [constructor|now apply H]. Qed.

Lemma inv_bind {A B} I P (m : M listener A) (k : A -> M listener B) :
  inv I P m -> (forall a, inv I P (k a)) -> inv I P (m ≫= k).
Proof.
  intros Hm Hk s Hs. rewrite run_bind. destruct (Hm s Hs) as [H1 H2].
  unfold state_of, trace_of in *. destruct (m s) as [[[a|e] s1] t1]; cbn in *; [|auto].
  destruct (Hk a s1 H2) as [H3 H4]. split; [apply Forall_app; auto|exact H4].
Qed.

Lemma inv_try_catch {A} I P (m : M listener A) handler :
  inv I P m -> (forall e h, handler e = Some h -> inv I P h) -> inv I P (try_catch m handler).
Proof.
  intros Hm Hh s Hs. rewrite run_try_catch. destruct (Hm s Hs) as [H1 H2].
  unfold state_of, trace_of in *. destruct (m s) as [[[a|e] s1] t1]; cbn in *; [auto|].
  destruct (handler e) as [h|] eqn:E; cbn; [|auto].
  destruct (Hh _ _ E s1 H2) as [H3 H4]. split; [apply Forall_app; auto|exact H4].
Qed.

Lemma inv_try_Exception {A} I P (m : M listener A) (h : exn -> M listener A) :
  inv I P m -> (forall e, inv I P (h e)) -> inv I P (try_catch m (except_Exception h)).
Proof.
  intros Hm Hh. apply inv_try_catch; [exact Hm|].
  intros e k. unfold except_Exception. destruct (is_Exception e); intros [= <-]. apply Hh.
Qed.

Lemma inv_sleep I (P : effect -> Prop) seconds outcome :
  P (Sleep seconds) -> inv I P (sleep seconds outcome).
Proof.
  intros H s Hs. rewrite sleep_run. destruct (seconds <? 0); cbn.
  - split; [constructor|exact Hs].
  - split; [repeat constructor; apply H|exact Hs].
Qed.

(** What [run] does around the scan and the write, under an invariant
    that the scan and the write keep. *)
Section Loop_invariant.
Variable cfg : config.
Variable I : listener -> Prop.
Variable P : effect -> Prop.
Variable good : world -> Prop.
Hypothesis P_log : forall m, P (Log m).
Hypothesis P_sleep : P (Sleep (poll_interval_seconds cfg)).
Hypothesis P_backoff : P (Sleep (poll_interval_seconds cfg * 2)).
Hypothesis P_connect : P Connect.
Hypothesis I_web3 : forall b s, I s -> I (set_source_web3 b s).
Hypothesis scan_inv :
  forall w from_block to_block, good w ->
    inv I P (_process_block_range cfg w from_block to_block).
Hypothesis write_inv :
  forall w to_block, good w ->
    inv I P (modify (set_last_processed_block to_block);; _save_state w).

Lemma is_connected_inv probe : inv I P (is_connected probe).
Proof.
  unfold is_connected. apply inv_bind; [apply inv_gets|intros w3].
  destruct w3; [apply inv_lift|apply inv_ret].
Qed.

Lemma connect_inv probe : inv I P (connect probe).
Proof.
  unfold connect. apply inv_try_Exception.
  - apply inv_bind; [apply inv_modify, I_web3|intros _].
    apply inv_bind; [apply inv_emit, P_connect|intros _].
    apply inv_bind; [apply inv_lift|intros live].
    destruct live; [apply inv_emit, P_log|apply inv_lift].
  - intros e. apply inv_bind; [apply inv_emit, P_log|intros _]. apply inv_modify, I_web3.
Qed.

Lemma get_latest_block_number_inv w : inv I P (get_latest_block_number w).
Proof.
  unfold get_latest_block_number.
  apply inv_bind; [apply is_connected_inv|intros live].
  apply inv_bind; [apply inv_gets|intros w3].
  destruct (negb live || negb w3).
  - apply inv_bind; [apply inv_emit, P_log|intros _; apply inv_ret].
  - apply inv_try_Exception.
    + apply inv_bind; [apply inv_lift|intros n; apply inv_ret].
    + intros e. apply inv_bind; [apply inv_emit, P_log|intros _; apply inv_ret].
Qed.

Lemma scan_from_inv w latest : good w -> inv I P (scan_from cfg w latest).
Proof.
  intros Hw. unfold scan_from.
  apply inv_bind; [apply inv_gets|intros checkpoint].
  apply inv_bind; [|intros _; apply inv_sleep, P_sleep].
  destruct (_ >? _); [apply inv_emit, P_log|].
  apply inv_bind; [apply inv_emit, P_log|intros _].
  apply inv_bind; [now apply scan_inv|intros _]. now apply write_inv.
Qed.

Lemma cycle_body_inv w : good w -> inv I P (cycle_body cfg w).
Proof.
  intros Hw. unfold cycle_body.
  apply inv_bind; [apply is_connected_inv|intros live].
  destruct (negb live).
  - apply inv_bind; [apply inv_emit, P_log|intros _].
    apply inv_bind; [apply connect_inv|intros _]. apply inv_sleep, P_sleep.
  - apply inv_bind; [apply get_latest_block_number_inv|intros latest].
    destruct latest as [latest|]; [now apply scan_from_inv|apply inv_sleep, P_sleep].
Qed.

Lemma cycle_inv w : good w -> inv I P (cycle cfg w).
Proof.
  intros Hw. unfold cycle. apply inv_try_catch.
  - apply inv_bind; [now apply cycle_body_inv|intros _; apply inv_ret].
  - intros e h. unfold except_Exception.
    destruct e; cbn; intros [= <-];
      (apply inv_bind; [apply inv_emit, P_log|intros _]); try apply inv_ret;
      (apply inv_bind; [apply inv_sleep, P_backoff|intros _; apply inv_ret]).
Qed.

Lemma iterate_inv ws : Forall good ws -> inv I P (iterate cfg ws).
Proof.
  induction 1 as [|w ws Hw _ IH]; cbn [iterate]; [apply inv_ret|].
  apply inv_bind; [now apply cycle_inv|intros c].
  destruct c; [exact IH|apply inv_ret].
Qed.

Lemma run_inv ws : Forall good ws -> inv I P (run cfg ws).
Proof.
  intros H. unfold run. apply inv_bind; [apply inv_emit, P_log|intros _].
  now apply iterate_inv.
Qed.

End Loop_invariant.

(** ** The scan *)

Lemma reads_only_on_processor {A} (m : M processor A) : reads_only m -> reads_only (on_processor m).
Proof. intros H s. now rewrite on_processor_run. Qed.

Lemma reads_only_sleep {S} seconds outcome : reads_only (sleep seconds outcome : M S unit).
Proof. intros s. rewrite sleep_run. now destruct (seconds <? 0). Qed.

Lemma for_event_in_reads_only w events : forall i, reads_only (for_event_in w i events).
Proof.
  induction events as [|ev rest IH]; intros i; cbn [for_event_in]; [apply reads_only_ret|].
  apply reads_only_bind; [apply reads_only_emit|intros _].
  apply reads_only_bind; [|intros _; apply IH].
  apply reads_only_on_processor, process_event_reads_only.
Qed.

Lemma process_block_range_reads_only cfg w from_block to_block :
  reads_only (_process_block_range cfg w from_block to_block).
Proof.
  unfold _process_block_range.
  apply reads_only_bind; [apply reads_only_gets|intros c].
  destruct (negb c); [apply reads_only_emit|].
  apply reads_only_try_catch.
  - apply reads_only_bind; [apply reads_only_emit|intros _].
    apply reads_only_bind; [apply reads_only_lift|intros events].
    destruct events; [apply reads_only_ret|apply for_event_in_reads_only].
  - intros e h. unfold except_Exception.
    destruct e; cbn; intros [= <-]; try apply reads_only_emit.
    apply reads_only_bind; [apply reads_only_emit|intros _; apply reads_only_sleep].
Qed.

(** Scanning a range and processing its events leaves every attribute of
    the listener as it was (the checkpoint, the state file, the connection,
    the contract, the processor), whether [_process_block_range] returns or
    is interrupted: the checkpoint is moved by [run] alone. *)
Theorem scan_leaves_listener_unchanged cfg w from_block to_block :
  reads_only (_process_block_range cfg w from_block to_block).
Proof. apply process_block_range_reads_only. Qed.

Lemma process_block_range_result cfg w from_block to_block s :
  undisturbed cfg w ->
  result_of (_process_block_range cfg w from_block to_block s) = Ok tt.
Proof.
  intros (Hp & Hn & Hl & Hd). unfold _process_block_range. rewrite run_bind. cbn.
  destruct (source_bridge_contract s); cbn; [|reflexivity].
  rewrite run_try_catch, run_bind. cbn. rewrite run_bind.
  destruct (w_get_logs w) as [events|e]; cbn.
  - destruct events as [|ev rest]; [reflexivity|].
    now rewrite for_event_in_run.
  - destruct e; try discriminate; unfold except_Exception; cbn; try reflexivity.
    rewrite run_bind. cbn. rewrite sleep_run, Hn.
    destruct (Z.ltb_spec (poll_interval_seconds cfg) 0); [lia|reflexivity].
Qed.

Lemma process_block_range_run cfg w from_block to_block s :
  undisturbed cfg w ->
  _process_block_range cfg w from_block to_block s =
  (Ok tt, s, trace_of (_process_block_range cfg w from_block to_block s)).
Proof.
  intros H.
  pose proof (process_block_range_result cfg w from_block to_block s H) as Hr.
  pose proof (process_block_range_reads_only cfg w from_block to_block s) as Hs.
  unfold result_of, state_of, trace_of in *.
  destruct (_process_block_range cfg w from_block to_block s) as [[r s1] t1].
  cbn in *. now subst.
Qed.

(** Short of the shutdown signal, [_process_block_range] returns normally
    whatever the range query and the destination side answer: a missing
    contract, a failed query and a failed event are logged and swallowed,
    in every state of the listener, and the listener is as it was. *)
Theorem scan_returns_whatever_fails cfg w from_block to_block :
  undisturbed cfg w ->
  forall s, _process_block_range cfg w from_block to_block s =
            (Ok tt, s, trace_of (_process_block_range cfg w from_block to_block s)).
Proof. intros H s. now apply process_block_range_run. Qed.

(** A query that times out. *)
Lemma scan_returns_whatever_fails_witness :
  result_of (_process_block_range CONFIG (world_logs 150 (Raise (OtherException "timeout")))
               100 150 (listener_at 99)) = Ok tt.
Proof.
  rewrite (scan_returns_whatever_fails CONFIG
             (world_logs 150 (Raise (OtherException "timeout"))) 100 150).
  - reflexivity.
  - split; [cbn; lia|]. split; [reflexivity|]. split; [reflexivity|].
    intros i. reflexivity.
Defined.

(** ** What [run] never touches *)

Lemma write_fields w to_block s :
  let s' := state_of ((modify (set_last_processed_block to_block);; _save_state w) s) in
  source_web3 s' = source_web3 s /\
  source_bridge_contract s' = source_bridge_contract s /\
  event_processor s' = event_processor s.
Proof. cbn zeta. unfold _save_state. destruct (w_dump w); run_m; cbn; auto. Qed.

Lemma Forall_anything {A} (l : list A) : Forall (fun _ => True) l.
Proof. apply Forall_forall. trivial. Qed.

(** However many cycles run and whatever happens in them, [run] leaves
    [source_bridge_contract] and [event_processor] as the constructor set
    them: a reconnection makes a new handle, and nothing binds the contract
    or builds the processor again. *)
Theorem run_never_rebinds cfg ws s :
  source_bridge_contract (state_of (run cfg ws s)) = source_bridge_contract s /\
  event_processor (state_of (run cfg ws s)) = event_processor s.
Proof.
  refine (proj2 (run_inv cfg
    (fun x => source_bridge_contract x = source_bridge_contract s /\
              event_processor x = event_processor s)
    (fun _ => True) (fun _ => True) _ _ _ _ _ _ _ ws _ s _)); auto.
  - intros w f t _. apply inv_quiet; [apply process_block_range_reads_only|].
    apply emits_anything.
  - intros w t _ x [H1 H2]. split; [apply Forall_anything|].
    destruct (write_fields w t x) as (_ & H3 & H4). cbn zeta in *. split; congruence.
  - apply Forall_forall. trivial.
Qed.

(** ** A contract that was not bound *)

Lemma process_block_range_unbound cfg w from_block to_block s :
  source_bridge_contract s = false ->
  _process_block_range cfg w from_block to_block s = (Ok tt, s, [Log MsgContractMissing]).
Proof. intros H. unfold _process_block_range. rewrite run_bind. cbn. now rewrite H. Qed.

Lemma run_unbound cfg ws :
  inv (fun x => source_bridge_contract x = false) (fun e => is_query e = false) (run cfg ws).
Proof.
  apply (run_inv cfg _ _ (fun _ => True)); auto.
  - intros w f t _ s Hs. rewrite process_block_range_unbound by exact Hs.
    split; [repeat constructor|exact Hs].
  - intros w t _ x Hx. split.
    + unfold _save_state. destruct (w_dump w); run_m; cbn; repeat constructor.
    + destruct (write_fields w t x) as (_ & H3 & _). cbn zeta in *. congruence.
  - apply Forall_forall. trivial.
Qed.

(** A listener whose source contract is not bound never queries the source
    for logs, in any run: [_process_block_range] returns at its guard, and
    no cycle binds the contract. *)
Theorem unbound_contract_never_queries cfg ws s :
  source_bridge_contract s = false ->
  Forall (fun e => is_query e = false) (trace_of (run cfg ws s)) /\
  source_bridge_contract (state_of (run cfg ws s)) = false.
Proof. apply run_unbound. Qed.

(** Two cycles over 161 new blocks. *)
Lemma unbound_contract_never_queries_witness :
  Forall (fun e => is_query e = false)
    (trace_of (run CONFIG [world_fine 150 []; world_fine 260 []] (listener_unbound 99))).
Proof.
  exact (proj1 (unbound_contract_never_queries CONFIG [world_fine 150 []; world_fine 260 []]
                  (listener_unbound 99) eq_refl)).
Defined.

(** With the contract unbound, a cycle that finds new blocks still moves
    the checkpoint to the end of the range and writes it: the range is
    announced, skipped with one error line, and checkpointed. *)
Theorem unbound_contract_skips_range cfg w s latest :
  source_bridge_contract s = false ->
  source_web3 s = true -> w_live w = Ok true ->
  w_live_again w = Ok true -> w_block_number w = Ok latest ->
  w_dump w = Dumped -> 0 <= poll_interval_seconds cfg ->
  last_processed_block s + 1 <= latest ->
  let from_block := last_processed_block s + 1 in
  let to_block := Z.min latest (from_block + block_processing_batch_size cfg - 1) in
  cycle_body cfg w s =
  (w_sleep w,
   set_file (dumped_state to_block) (set_last_processed_block to_block s),
   [Log (MsgScanning from_block to_block); Log MsgContractMissing; Dump to_block;
    Sleep (poll_interval_seconds cfg)]).
Proof.
  intros Hc H1 H2 H3 H4 Hd Hp Hle from_block to_block.
  rewrite (cycle_body_live cfg w s latest H1 H2 H3 H4).
  rewrite (scan_from_new_blocks cfg w latest s Hle).
  fold from_block. fold to_block.
  rewrite !run_bind. cbn. rewrite !run_bind, process_block_range_unbound by exact Hc.
  cbn. rewrite !run_bind. cbn. unfold _save_state. rewrite Hd.
  rewrite !run_bind. cbn. rewrite sleep_run.
  destruct (Z.ltb_spec (poll_interval_seconds cfg) 0); [lia|]. reflexivity.
Qed.

(** Checkpoint 99, head 150. *)
Lemma unbound_contract_skips_range_witness :
  trace_of (cycle_body CONFIG (world_fine 150 [lock1]) (listener_unbound 99)) =
  [Log (MsgScanning 100 150); Log MsgContractMissing; Dump 150; Sleep 15].
Proof.
  rewrite (unbound_contract_skips_range CONFIG (world_fine 150 [lock1]) (listener_unbound 99)
             150 eq_refl eq_refl eq_refl eq_refl eq_refl eq_refl
             ltac:(cbn; lia) ltac:(cbn; lia)).
  reflexivity.
Defined.

(** ** A processor that is not initialised *)

Lemma process_event_not_ready dw ev p :
  ready p = false -> process_event dw ev p = (Ok tt, p, [Log MsgNotInitialized]).
Proof.
  destruct p as [w3 c [a|]]; unfold ready; cbn; destruct c, w3; cbn;
    try discriminate; reflexivity.
Qed.

Lemma for_event_in_not_ready w events :
  forall i,
    inv (fun x => ready (event_processor x) = false) (fun e => is_signature e = false)
      (for_event_in w i events).
Proof.
  induction events as [|ev rest IH]; intros i; cbn [for_event_in]; [apply inv_ret|].
  apply inv_bind; [now apply inv_emit|intros _].
  apply inv_bind; [|intros _; apply IH].
  intros s Hs. rewrite on_processor_run by apply process_event_reads_only.
  rewrite process_event_not_ready by exact Hs. cbn. split; [repeat constructor|exact Hs].
Qed.

Lemma run_not_ready cfg ws :
  inv (fun x => ready (event_processor x) = false) (fun e => is_signature e = false)
    (run cfg ws).
Proof.
  apply (run_inv cfg _ _ (fun _ => True)); auto.
  - intros w f t _. unfold _process_block_range.
    apply inv_bind; [apply inv_gets|intros c].
    destruct (negb c); [now apply inv_emit|].
    apply inv_try_catch.
    + apply inv_bind; [now apply inv_emit|intros _].
      apply inv_bind; [apply inv_lift|intros events].
      destruct events; [apply inv_ret|apply for_event_in_not_ready].
    + intros e h. unfold except_Exception.
      destruct e; cbn; intros [= <-]; try (now apply inv_emit).
      apply inv_bind; [now apply inv_emit|intros _]. now apply inv_sleep.
  - intros w t _ x Hx. split.
    + unfold _save_state. destruct (w_dump w); run_m; cbn; repeat constructor.
    + destruct (write_fields w t x) as (_ & _ & H4). cbn zeta in *. congruence.
  - apply Forall_forall. trivial.
Qed.

(** A listener whose processor lacks the destination handle, the contract
    or the relayer account signs nothing, in any run: every event meets the
    guard of [process_event], and no cycle builds the processor again. *)
Theorem uninitialised_processor_never_signs cfg ws s :
  ready (event_processor s) = false ->
  Forall (fun e => is_signature e = false) (trace_of (run cfg ws s)) /\
  ready (event_processor (state_of (run cfg ws s))) = false.
Proof. apply run_not_ready. Qed.

(** One cycle with an event, for a processor built while the destination
    was down. *)
Lemma uninitialised_processor_never_signs_witness :
  Forall (fun e => is_signature e = false)
    (trace_of (run CONFIG [world_fine 150 [lock1]]
                 (set_event_processor processor_down (listener_at 99)))).
Proof.
  exact (proj1 (uninitialised_processor_never_signs CONFIG [world_fine 150 [lock1]]
                  (set_event_processor processor_down (listener_at 99)) eq_refl)).
Defined.

(** ** The state file and the checkpoint in memory *)

Lemma load_dumped_state cfg h : _load_state cfg (dumped_state h) = Ok h.
Proof. unfold dumped_state. now rewrite load_state_object, lookup_singleton_eq. Qed.

Lemma run_agrees cfg ws :
  Forall (fun w => w_dump w = Dumped) ws ->
  inv (agrees cfg) (fun _ => True) (run cfg ws).
Proof.
  apply (run_inv cfg _ _ (fun w => w_dump w = Dumped)); auto.
  - intros w f t _. apply inv_quiet; [apply process_block_range_reads_only|].
    apply emits_anything.
  - intros w t Hw x _. split; [apply Forall_anything|].
    unfold _save_state. rewrite Hw. run_m. cbn. apply load_dumped_state.
Qed.

(** As long as every write of the state file completes, the file, loaded
    by [_load_state], gives the checkpoint the listener holds in memory:
    after any number of cycles, whether they scan, fail, reconnect or are
    interrupted. *)
Theorem checkpoint_file_agrees cfg ws s :
  agrees cfg s ->
  Forall (fun w => w_dump w = Dumped) ws ->
  agrees cfg (state_of (run cfg ws s)).
Proof. intros Hs Hws. now apply (run_agrees cfg ws Hws s). Qed.

(** Two cycles, the second of which is interrupted during the range query. *)
Lemma checkpoint_file_agrees_witness :
  let ws := [world_fine 150 [lock1]; world_logs 260 (Raise KeyboardInterrupt)] in
  _load_state CONFIG (file (state_of (run CONFIG ws (listener_at 99)))) =
  Ok (last_processed_block (state_of (run CONFIG ws (listener_at 99)))).
Proof.
  refine (checkpoint_file_agrees CONFIG
            [world_fine 150 [lock1]; world_logs 260 (Raise KeyboardInterrupt)]
            (listener_at 99) _ _).
  - reflexivity.
  - repeat constructor.
Defined.

(** When the state file cannot be opened for writing, the cycle has
    already moved the checkpoint in memory: the error leaves the body of
    the cycle, the file is as before, nothing was written, and the listener
    goes on from the end of the range. *)
Theorem failed_write_leaves_memory_ahead cfg w s latest e :
  source_web3 s = true -> w_live w = Ok true ->
  w_live_again w = Ok true -> w_block_number w = Ok latest ->
  undisturbed cfg w ->
  last_processed_block s + 1 <= latest ->
  w_dump w = OpenFails e ->
  let to_block :=
    Z.min latest (last_processed_block s + 1 + block_processing_batch_size cfg - 1) in
  let r := cycle_body cfg w s in
  result_of r = Raise e /\
  state_of r = set_last_processed_block to_block s /\
  dumps (trace_of r) = [].
Proof.
  intros H1 H2 H3 H4 Hu Hle Hd to_block r. subst r.
  rewrite (cycle_body_live cfg w s latest H1 H2 H3 H4).
  rewrite (scan_from_new_blocks cfg w latest s Hle).
  fold to_block.
  destruct (process_block_range_keeps cfg w (last_processed_block s + 1) to_block s)
    as [_ Hk].
  rewrite !run_bind. cbn. rewrite !run_bind, process_block_range_run by exact Hu.
  cbn. rewrite !run_bind. cbn. unfold _save_state. rewrite Hd. cbn.
  rewrite app_nil_r. auto.
Qed.

(** Checkpoint 99, head 150, a read-only disk. *)
Lemma failed_write_leaves_memory_ahead_witness :
  let r := cycle_body CONFIG (world_read_only 150 [lock1]) (listener_at 99) in
  last_processed_block (state_of r) = 150 /\ file (state_of r) = dumped_state 99.
Proof.
  destruct (failed_write_leaves_memory_ahead CONFIG (world_read_only 150 [lock1])
              (listener_at 99) 150 PermissionError eq_refl eq_refl eq_refl eq_refl)
    as (_ & H & _).
  - split; [cbn; lia|]. split; [reflexivity|]. split; [reflexivity|].
    intros i. reflexivity.
  - cbn. lia.
  - reflexivity.
  - cbn zeta in *. rewrite H. split; reflexivity.
Defined.

(** When the state file was opened for writing and the write then fails,
    the file is left without a JSON value: the checkpoint in memory is at
    the end of the range, and a listener that starts from this file starts
    at the configured start height. *)
Theorem failed_dump_resets_restart_point cfg w s latest e :
  source_web3 s = true -> w_live w = Ok true ->
  w_live_again w = Ok true -> w_block_number w = Ok latest ->
  undisturbed cfg w ->
  last_processed_block s + 1 <= latest ->
  w_dump w = WriteFails e ->
  let to_block :=
    Z.min latest (last_processed_block s + 1 + block_processing_batch_size cfg - 1) in
  let r := cycle_body cfg w s in
  result_of r = Raise e /\
  last_processed_block (state_of r) = to_block /\
  _load_state cfg (file (state_of r)) = Ok (start_block cfg).
Proof.
  intros H1 H2 H3 H4 Hu Hle Hd to_block r. subst r.
  rewrite (cycle_body_live cfg w s latest H1 H2 H3 H4).
  rewrite (scan_from_new_blocks cfg w latest s Hle).
  fold to_block.
  rewrite !run_bind. cbn. rewrite !run_bind, process_block_range_run by exact Hu.
  cbn. rewrite !run_bind. cbn. unfold _save_state. rewrite Hd. cbn. auto.
Qed.

(** Checkpoint 1000200, head 1000250, a disk that fills up. *)
Lemma failed_dump_resets_restart_point_witness :
  let w := {| w_live := Ok true; w_connect := Ok true; w_live_again := Ok true;
              w_block_number := Ok 1000250; w_get_logs := Ok [];
              w_dest := fun _ => dest_fine;
              w_dump := WriteFails (OtherException "OSError");
              w_nap := Ok tt; w_sleep := Ok tt; w_backoff := Ok tt |} in
  let r := cycle_body CONFIG w (listener_at 1000200) in
  last_processed_block (state_of r) = 1000250 /\
  _load_state CONFIG (file (state_of r)) = Ok 1000000.
Proof.
  cbn zeta.
  destruct (failed_dump_resets_restart_point CONFIG
              {| w_live := Ok true; w_connect := Ok true; w_live_again := Ok true;
                 w_block_number := Ok 1000250; w_get_logs := Ok [];
                 w_dest := fun _ => dest_fine;
                 w_dump := WriteFails (OtherException "OSError");
                 w_nap := Ok tt; w_sleep := Ok tt; w_backoff := Ok tt |}
              (listener_at 1000200) 1000250 (OtherException "OSError")
              eq_refl eq_refl eq_refl eq_refl)
    as (_ & H1 & H2).
  - split; [cbn; lia|]. split; [reflexivity|]. split; [reflexivity|].
    intros i. reflexivity.
  - cbn. lia.
  - reflexivity.
  - split; [exact H1|exact H2].
Defined.

(** ** Cycles that do not scan *)

Lemma connect_run probe s :
  interrupted probe = false ->
  exists m, connect probe s = (Ok tt, set_source_web3 (affirmed probe) s, [Connect; Log m]).
Proof.
  intros H. unfold connect. rewrite run_try_catch, !run_bind. cbn.
  rewrite !run_bind. cbn. rewrite !run_bind.
  destruct probe as [[]|e]; cbn; eauto.
  destruct e; try discriminate; cbn; eauto.
Qed.

(** A cycle that finds the source disconnected (no handle, or a node that
    answers no) calls [connect], sleeps one poll interval and scans
    nothing: the handle is there afterwards exactly when the node answered
    [connect] that it is connected, and everything else is as before. *)
Theorem reconnect_cycle cfg w s :
  0 <= poll_interval_seconds cfg ->
  source_web3 s = false \/ w_live w = Ok false ->
  interrupted (w_connect w) = false ->
  exists m,
    cycle_body cfg w s =
    (w_sleep w, set_source_web3 (affirmed (w_connect w)) s,
     [Log MsgDisconnected; Connect; Log m; Sleep (poll_interval_seconds cfg)]).
Proof.
  intros Hp Hdown Hc. destruct (connect_run (w_connect w) s Hc) as [m Hm].
  exists m. unfold cycle_body. rewrite run_bind, is_connected_run.
  assert (E : (if source_web3 s then w_live w else Ok false) = Ok false).
  { destruct Hdown as [->| ->]; [reflexivity|now destruct (source_web3 s)]. }
  rewrite E. cbn. rewrite !run_bind. cbn. rewrite run_bind, Hm. cbn.
  rewrite sleep_run. destruct (Z.ltb_spec (poll_interval_seconds cfg) 0); [lia|].
  reflexivity.
Qed.

(** The node is back when [connect] asks. *)
Lemma reconnect_cycle_witness :
  exists m,
    cycle_body CONFIG world_reconnect (listener_at 99) =
    (Ok tt, listener_at 99, [Log MsgDisconnected; Connect; Log m; Sleep 15]).
Proof.
  exact (reconnect_cycle CONFIG world_reconnect (listener_at 99)
           ltac:(cbn; lia) (or_intror eq_refl) eq_refl).
Defined.

Lemma get_latest_block_number_none w s :
  source_web3 s = true ->
  w_live_again w = Ok false \/
  (w_live_again w = Ok true /\
   exists e, w_block_number w = Raise e /\ is_Exception e = true) ->
  exists m, get_latest_block_number w s = (Ok None, s, [Log m]).
Proof.
  intros H1 H. unfold get_latest_block_number.
  rewrite run_bind, is_connected_run, H1.
  destruct H as [->|(-> & e & He & Hex)]; cbn.
  - rewrite run_bind. cbn. rewrite run_bind. cbn. eauto.
  - rewrite run_bind. cbn. rewrite H1. cbn.
    rewrite run_try_catch, run_bind. cbn. rewrite He. cbn.
    unfold except_Exception. rewrite Hex, run_bind. cbn. eauto.
Qed.

(** A cycle in which the height of the source is not available (the node
    answers that it is not connected, or the height query fails with an
    [Exception]) writes one line, sleeps one poll interval and leaves the
    listener as it was: the failure does not reach the clause of [run] that
    backs off. *)
Theorem height_unavailable_cycle cfg w s :
  0 <= poll_interval_seconds cfg ->
  source_web3 s = true -> w_live w = Ok true ->
  w_live_again w = Ok false \/
  (w_live_again w = Ok true /\
   exists e, w_block_number w = Raise e /\ is_Exception e = true) ->
  exists m,
    cycle_body cfg w s = (w_sleep w, s, [Log m; Sleep (poll_interval_seconds cfg)]).
Proof.
  intros Hp H1 H2 H. destruct (get_latest_block_number_none w s H1 H) as [m Hm].
  exists m. unfold cycle_body.
  rewrite run_bind, is_connected_run, H1, H2. cbn.
  rewrite run_bind, Hm. cbn. rewrite sleep_run.
  destruct (Z.ltb_spec (poll_interval_seconds cfg) 0); [lia|]. reflexivity.
Qed.

(** The height query times out. *)
Lemma height_unavailable_cycle_witness :
  exists m,
    cycle_body CONFIG (world_no_height (OtherException "timeout")) (listener_at 99) =
    (Ok tt, listener_at 99, [Log m; Sleep 15]).
Proof.
  apply (height_unavailable_cycle CONFIG (world_no_height (OtherException "timeout"))
           (listener_at 99) ltac:(cbn; lia) eq_refl eq_refl).
  right. split; [reflexivity|]. exists (OtherException "timeout"). split; reflexivity.
Defined.

(** ** The pace of the loop *)

Lemma sleeps_app t1 t2 : sleeps (t1 ++ t2) = sleeps t1 ++ sleeps t2.
Proof.
  induction t1 as [|e t1 IH]; [reflexivity|]. destruct e; cbn; now rewrite ?IH.
Qed.

Lemma paces_bind {A B} (m : M listener A) (k : A -> M listener B) :
  (forall a, paces (k a)) -> paces (m ≫= k).
Proof.
  intros Hk s b. rewrite run_bind. unfold result_of, trace_of.
  destruct (m s) as [[[a|e] s1] t1]; cbn; [|discriminate].
  intros H. rewrite sleeps_app. specialize (Hk a s1 b H).
  destruct (sleeps t1); [exact Hk|discriminate].
Qed.

Lemma paces_sleep seconds outcome : paces (sleep seconds outcome).
Proof.
  intros s a. rewrite sleep_run. destruct (seconds <? 0); cbn; discriminate.
Qed.

Lemma cycle_body_paces cfg w : paces (cycle_body cfg w).
Proof.
  unfold cycle_body. apply paces_bind. intros live. destruct (negb live).
  - apply paces_bind. intros _. apply paces_bind. intros _. apply paces_sleep.
  - apply paces_bind. intros [latest|]; [|apply paces_sleep].
    unfold scan_from. apply paces_bind. intros c. apply paces_bind. intros _.
    apply paces_sleep.
Qed.

Lemma cycle_sleeps cfg w s :
  result_of (cycle cfg w s) = Ok Continue -> sleeps (trace_of (cycle cfg w s)) <> [].
Proof.
  pose proof (cycle_body_paces cfg w s) as Hb. rewrite cycle_run.
  unfold result_of, trace_of in *.
  destruct (cycle_body cfg w s) as [[[[]|e] s1] t1]; cbn in *.
  - intros _. now apply (Hb tt).
  - destruct e; cbn; try destruct (_ <? 0); cbn; try discriminate;
      intros _; rewrite sleeps_app; cbn; now destruct (sleeps t1).
Qed.

Lemma sleeps_Forall (Q : Z -> Prop) t :
  Forall (fun e => match e with Sleep d => Q d | _ => True end) t -> Forall Q (sleeps t).
Proof.
  induction 1 as [|e t He _ IH]; [constructor|]. destruct e; cbn; auto.
Qed.

Lemma run_sleep_lengths cfg ws :
  inv (fun _ => True)
    (fun e => match e with
              | Sleep d => d = poll_interval_seconds cfg \/ d = poll_interval_seconds cfg * 2
              | _ => True
              end)
    (run cfg ws).
Proof.
  apply (run_inv cfg _ _ (fun _ => True)); cbn; auto.
  - intros w f t _. apply inv_quiet; [apply process_block_range_reads_only|].
    unfold _process_block_range.
    apply emits_bind; [apply emits_gets|intros c].
    destruct (negb c); [now apply emits_emit|].
    apply emits_try_catch.
    + apply emits_bind; [now apply emits_emit|intros _].
      apply emits_bind; [apply emits_lift|intros events].
      destruct events; [apply emits_ret|]. now apply for_event_in_emits.
    + intros e h. unfold except_Exception.
      destruct e; cbn; intros [= <-]; try (now apply emits_emit).
      apply emits_bind; [now apply emits_emit|intros _].
      intros s. rewrite sleep_run. destruct (_ <? 0); repeat constructor.
  - intros w t _ x _. split; [|exact I].
    unfold _save_state. destruct (w_dump w); run_m; cbn; repeat constructor.
  - apply Forall_forall. trivial.
Qed.

Lemma iterate_sleeps cfg ws :
  forall s, result_of (iterate cfg ws s) = Ok Continue ->
    (length ws <= length (sleeps (trace_of (iterate cfg ws s))))%nat.
Proof.
  induction ws as [|w ws IH]; intros s; [cbn; lia|].
  rewrite iterate_cons. pose proof (cycle_sleeps cfg w s) as Hc.
  unfold result_of, trace_of in *.
  destruct (cycle cfg w s) as [[[[]|e] s1] t1]; cbn in *; try discriminate.
  intros H. specialize (IH s1 H). specialize (Hc eq_refl).
  rewrite sleeps_app, length_app. destruct (sleeps t1); [contradiction|cbn; lia].
Qed.

(** The loop never spins.  A run that is still going after [n] iterations
    has slept at least [n] times, and every sleep of a run lasts the poll
    interval or, after an error, twice the poll interval. *)
Theorem every_cycle_sleeps cfg ws s :
  let t := trace_of (run cfg ws s) in
  Forall (fun d => d = poll_interval_seconds cfg \/ d = poll_interval_seconds cfg * 2)
    (sleeps t) /\
  (result_of (run cfg ws s) = Ok Continue -> (length ws <= length (sleeps t))%nat).
Proof.
  cbn zeta. split.
  - apply sleeps_Forall. now apply (run_sleep_lengths cfg ws s).
  - unfold run. rewrite run_bind. cbn. apply iterate_sleeps.
Qed.

(** ** The transaction that is signed *)



(** ** Construction *)

Lemma connector_init_run probe b :
  BlockchainConnector.__init__ probe b =
  match probe with
  | Ok true => (Ok tt, true, [Connect; Log MsgConnected])
  | Ok false => (Ok tt, false, [Connect; Log (MsgConnectionError ConnectionError)])
  | Raise e =>
      if is_Exception e then (Ok tt, false, [Connect; Log (MsgConnectionError e)])
      else (Raise e, true, [Connect])
  end.
Proof.
  unfold BlockchainConnector.__init__, BlockchainConnector.connect. run_m.
  destruct probe as [[]|e]; cbn; try reflexivity. destruct (is_Exception e); reflexivity.
Qed.

Lemma connector_get_contract_run probe contract b :
  BlockchainConnector.get_contract probe contract b =
  if b then
    match probe with
    | Ok true => (match contract with Ok _ => Ok true | Raise e => Raise e end, b, [])
    | Ok false => (Ok false, b, [])
    | Raise e => (Raise e, b, [])
    end
  else (Ok false, b, []).
Proof.
  unfold BlockchainConnector.get_contract, BlockchainConnector.is_connected. run_m.
  destruct b; cbn; [|reflexivity].
  destruct probe as [[]|e]; cbn; try reflexivity. now destruct contract.
Qed.

(** The connector after [__init__] and [get_contract]: it returns when no
    step raises, the handle is there exactly when the node answered
    [connect], and the contract is bound exactly when it answered
    [get_contract] too. *)
Lemma connector_start connect_probe live_probe contract b r b' t :
  (BlockchainConnector.__init__ connect_probe;;
   BlockchainConnector.get_contract live_probe contract) b = (r, b', t) ->
  match r with
  | Ok c =>
      b' = affirmed connect_probe /\
      c = affirmed connect_probe && affirmed live_probe
  | Raise e =>
      connect_probe = Raise e /\ is_Exception e = false \/
      affirmed connect_probe = true /\
        (live_probe = Raise e \/ affirmed live_probe = true /\ contract = Raise e)
  end.
Proof.
  rewrite run_bind, connector_init_run.
  destruct connect_probe as [[]|e]; cbn.
  - rewrite connector_get_contract_run.
    destruct live_probe as [[]|e]; cbn; [destruct contract as [[]|e]| |]; cbn;
      intros [= <- <- <-]; auto 10.
  - rewrite connector_get_contract_run. cbn. intros [= <- <- <-]. auto.
  - destruct (is_Exception e) eqn:E; cbn.
    + rewrite connector_get_contract_run. cbn. intros [= <- <- <-]. auto.
    + intros [= <- <- <-]. auto.
Qed.

Lemma processor_init_spec iw b r b' t :
  EventProcessor.__init__ iw b = (r, b', t) ->
  match r with
  | Ok p =>
      dest_web3 p = affirmed (i_dest_connect iw) /\
      dest_bridge_contract p = affirmed (i_dest_connect iw) && affirmed (i_dest_live iw) /\
      (if dest_web3 p then exists a, i_from_key iw = Ok a /\ relayer_account p = Some a
       else relayer_account p = None)
  | Raise e =>
      i_dest_connect iw = Raise e /\ is_Exception e = false \/
      affirmed (i_dest_connect iw) = true /\
        (i_dest_live iw = Raise e \/
         affirmed (i_dest_live iw) = true /\ i_dest_contract iw = Raise e \/
         i_from_key iw = Raise e)
  end.
Proof.
  unfold EventProcessor.__init__, BlockchainConnector.__init__, BlockchainConnector.connect,
    BlockchainConnector.get_contract, BlockchainConnector.is_connected.
  run_m. destruct iw as [sc sl sct dc dl dct fk sf]; cbn.
  cases; cbn; intros [= <- <- <-]; cbn.
  all: try (split; [reflexivity|split; [reflexivity|]]; eauto).
  all: try discriminate; try congruence; auto 10.
Qed.

Lemma new_run {S A} (m : M bool A) (s : S) :
  new m s = (result_of (m false), s, trace_of (m false)).
Proof. unfold new, result_of, trace_of. now destruct (m false) as [[r b] t]. Qed.

Lemma listener_init_spec cfg iw b r b' t :
  EventListener.__init__ cfg iw b = (r, b', t) ->
  match r with
  | Ok s =>
      source_web3 s = affirmed (i_source_connect iw) /\
      source_bridge_contract s =
        affirmed (i_source_connect iw) && affirmed (i_source_live iw) /\
      result_of (EventProcessor.__init__ iw false) = Ok (event_processor s) /\
      file s = i_state_file iw /\
      agrees cfg s
  | Raise e =>
      (i_source_connect iw = Raise e /\ is_Exception e = false \/
       affirmed (i_source_connect iw) = true /\
         (i_source_live iw = Raise e \/
          affirmed (i_source_live iw) = true /\ i_source_contract iw = Raise e)) \/
      result_of (EventProcessor.__init__ iw false) = Raise e \/
      _load_state cfg (i_state_file iw) = Raise e
  end.
Proof.
  unfold EventListener.__init__.
  destruct ((BlockchainConnector.__init__ (i_source_connect iw);;
             BlockchainConnector.get_contract (i_source_live iw) (i_source_contract iw)) b)
    as [[r1 b1] t1] eqn:E1.
  pose proof (connector_start _ _ _ _ _ _ _ E1) as H1.
  rewrite run_bind in E1. rewrite run_bind.
  destruct (BlockchainConnector.__init__ (i_source_connect iw) b) as [[[[]|e0] b0] t0];
    cbn in *.
  - rewrite run_bind.
    destruct (BlockchainConnector.get_contract _ _ b0) as [[[c|e1] b2] t2]; cbn in *;
      injection E1 as <- <- <-.
    + rewrite run_bind, new_run.
      destruct (result_of (EventProcessor.__init__ iw false)) as [p|e2]; cbn.
      * rewrite run_bind. cbn.
        destruct (_load_state cfg (i_state_file iw)) as [n|e3] eqn:E3; cbn.
        -- intros [= <- <- <-]. run_m. cbn. destruct H1 as [-> ->]. unfold agrees. auto.
        -- intros [= <- <- <-]. auto.
      * intros [= <- <- <-]. auto.
    + intros [= <- <- <-]. auto.
  - injection E1 as <- <- <-. intros [= <- <- <-]. auto.
Qed.

(** What [EventListener(config)] returns, when it returns: the source
    handle is there exactly when the node answered [connect]; the source
    contract is bound exactly when the node also answered the probe of
    [get_contract]; the processor is ready exactly when its contract is
    bound, and has an account exactly when it has a handle; the checkpoint
    is what [_load_state] reads from the state file. *)
Theorem listener_construction cfg iw s :
  constructed cfg iw = Ok s ->
  source_web3 s = affirmed (i_source_connect iw) /\
  source_bridge_contract s = affirmed (i_source_connect iw) && affirmed (i_source_live iw) /\
  dest_web3 (event_processor s) = affirmed (i_dest_connect iw) /\
  dest_bridge_contract (event_processor s) =
    affirmed (i_dest_connect iw) && affirmed (i_dest_live iw) /\
  (is_Some (relayer_account (event_processor s)) <-> dest_web3 (event_processor s) = true) /\
  ready (event_processor s) = dest_bridge_contract (event_processor s) /\
  _load_state cfg (i_state_file iw) = Ok (last_processed_block s).
Proof.
  unfold constructed, result_of.
  destruct (EventListener.__init__ cfg iw false) as [[r b] t] eqn:E. cbn. intros ->.
  apply listener_init_spec in E as (H1 & H2 & H3 & H4 & H5).
  unfold result_of in H3.
  destruct (EventProcessor.__init__ iw false) as [[r b'] t'] eqn:E'. cbn in H3. subst r.
  apply processor_init_spec in E' as (H6 & H7 & H8).
  unfold agrees in H5. rewrite H4 in H5.
  assert (H9 : is_Some (relayer_account (event_processor s)) <->
               dest_web3 (event_processor s) = true).
  { destruct (dest_web3 (event_processor s)).
    - destruct H8 as (a & _ & ->). split; eauto.
    - rewrite H8. split; [intros [a [=]]|discriminate]. }
  repeat split; try assumption; try apply H9.
  unfold ready. rewrite H7, H6.
  destruct (affirmed (i_dest_connect iw)) eqn:Ec; cbn; [|reflexivity].
  rewrite bool_decide_eq_true_2 by (apply H9; congruence).
  now destruct (affirmed (i_dest_live iw)).
Qed.

(** Both nodes answer. *)
Lemma listener_construction_witness :
  exists s, constructed CONFIG init_fine = Ok s /\
    source_bridge_contract s = true /\ ready (event_processor s) = true /\
    last_processed_block s = 1000000.
Proof.
  eexists. split; [reflexivity|].
  destruct (listener_construction CONFIG init_fine _ eq_refl)
    as (_ & H2 & _ & H4 & _ & H6 & _).
  split; [exact H2|]. split; [now rewrite H6, H4|reflexivity].
Defined.

(** Why [EventListener(config)] raises, when it does: the shutdown signal
    during a [connect]; for a connector that has its handle, an error of
    the probe of [get_contract] or of building the contract, which no
    clause catches; an error of [from_key] when the destination handle is
    there; or an error of [_load_state]. *)
Theorem construction_failures cfg iw e :
  constructed cfg iw = Raise e ->
  (i_source_connect iw = Raise e /\ is_Exception e = false) \/
  (affirmed (i_source_connect iw) = true /\
     (i_source_live iw = Raise e \/
      affirmed (i_source_live iw) = true /\ i_source_contract iw = Raise e)) \/
  (i_dest_connect iw = Raise e /\ is_Exception e = false) \/
  (affirmed (i_dest_connect iw) = true /\
     (i_dest_live iw = Raise e \/
      affirmed (i_dest_live iw) = true /\ i_dest_contract iw = Raise e \/
      i_from_key iw = Raise e)) \/
  _load_state cfg (i_state_file iw) = Raise e.
Proof.
  unfold constructed, result_of.
  destruct (EventListener.__init__ cfg iw false) as [[r b] t] eqn:E. cbn. intros ->.
  apply listener_init_spec in E as [[H|H]|[H|H]]; auto.
  unfold result_of in H.
  destruct (EventProcessor.__init__ iw false) as [[r b'] t'] eqn:E'. cbn in H. subst r.
  apply processor_init_spec in E' as [H|H]; auto 6.
Qed.

(** A state file that holds a JSON list. *)
Lemma construction_failures_witness :
  _load_state CONFIG (Holds (JArray [])) = Raise AttributeError.
Proof.
  destruct (construction_failures CONFIG
    {| i_source_connect := Ok false; i_source_live := Ok true; i_source_contract := Ok tt;
       i_dest_connect := Ok false; i_dest_live := Ok true; i_dest_contract := Ok tt;
       i_from_key := Ok "0xrelayer"; i_state_file := Holds (JArray []) |}
    AttributeError eq_refl) as [[[=] _]|[[[=] _]|[[[=] _]|[[[=] _]|H]]]].
  exact H.
Defined.

(** ** Stopping and starting again *)

(** A listener that was constructed, has run any number of cycles whose
    writes of the state file completed, and is constructed again from the
    file it left, starts at the checkpoint the first one held in memory
    when it stopped. *)
Theorem restart_resumes cfg iw ws s iw' s' :
  constructed cfg iw = Ok s ->
  Forall (fun w => w_dump w = Dumped) ws ->
  i_state_file iw' = file (state_of (run cfg ws s)) ->
  constructed cfg iw' = Ok s' ->
  last_processed_block s' = last_processed_block (state_of (run cfg ws s)).
Proof.
  unfold constructed, result_of. intros H Hws Hf H'.
  destruct (EventListener.__init__ cfg iw false) as [[r b] t] eqn:E. cbn in H. subst r.
  destruct (EventListener.__init__ cfg iw' false) as [[r b'] t'] eqn:E'. cbn in H'. subst r.
  apply listener_init_spec in E as (_ & _ & _ & _ & Ha).
  apply listener_init_spec in E' as (_ & _ & _ & Hf' & Ha').
  pose proof (proj2 (run_agrees cfg ws Hws s Ha)) as Hrun.
  unfold agrees in *. rewrite Hf', Hf, Hrun in Ha'. now injection Ha'.
Qed.

(** A first start without a state file, one cycle up to block 1000100, and
    a second start. *)
Lemma restart_resumes_witness :
  let again :=
    {| i_source_connect := Ok true; i_source_live := Ok true; i_source_contract := Ok tt;
       i_dest_connect := Ok true; i_dest_live := Ok true; i_dest_contract := Ok tt;
       i_from_key := Ok "0xrelayer"; i_state_file := dumped_state 1000100 |} in
  exists s s',
    constructed CONFIG init_fine = Ok s /\
    constructed CONFIG again = Ok s' /\
    last_processed_block s' = last_processed_block (state_of (run CONFIG [world_fine 1000250 []] s)).
Proof.
  cbn zeta. eexists. eexists. split; [reflexivity|]. split; [reflexivity|].
  refine (restart_resumes CONFIG init_fine [world_fine 1000250 []] _
            {| i_source_connect := Ok true; i_source_live := Ok true;
               i_source_contract := Ok tt;
               i_dest_connect := Ok true; i_dest_live := Ok true; i_dest_contract := Ok tt;
               i_from_key := Ok "0xrelayer"; i_state_file := dumped_state 1000100 |}
            _ eq_refl _ eq_refl eq_refl).
  repeat constructor.
Defined.

(** A listener constructed while the source node did not answer (to
    [connect], or to the probe of [get_contract]) never queries the source
    for logs, in any run, although [run] reconnects. *)
Theorem offline_start_never_scans cfg iw s ws :
  constructed cfg iw = Ok s ->
  affirmed (i_source_connect iw) = false \/ affirmed (i_source_live iw) = false ->
  Forall (fun e => is_query e = false) (trace_of (run cfg ws s)).
Proof.
  unfold constructed, result_of. intros H Hdown.
  destruct (EventListener.__init__ cfg iw false) as [[r b] t] eqn:E. cbn in H. subst r.
  apply listener_init_spec in E as (_ & Hc & _).
  apply (run_unbound cfg ws s). rewrite Hc.
  destruct Hdown as [-> | ->]; [reflexivity|apply andb_false_r].
Qed.

(** The source node refuses the connection at the start and is back for
    the cycles. *)
Lemma offline_start_never_scans_witness :
  exists s, constructed CONFIG init_source_down = Ok s /\
    Forall (fun e => is_query e = false)
      (trace_of (run CONFIG [world_reconnect; world_fine 1000250 [lock1]] s)).
Proof.
  eexists. split; [reflexivity|].
  exact (offline_start_never_scans CONFIG init_source_down _
           [world_reconnect; world_fine 1000250 [lock1]] eq_refl (or_introl eq_refl)).
Defined.

(** ** The persisted checkpoint never decreases: a run *)

(** Four cycles from the start height. *)
Lemma checkpoint_monotone_witness :
  rises (iterate CONFIG (repeat (world_fine 1000250 []) 4)) (listener_at 1000000).
Proof.
  apply (checkpoint_monotone CONFIG (repeat (world_fine 1000250 []) 4)). cbn. lia.
Defined.

Import ConfigLoader.


(** * Properties of [loader.py] *)

(** ** The store *)

Lemma unchanged_refl h : unchanged h h.
Proof. intros a d H. exact H. Qed.

Lemma unchanged_trans h1 h2 h3 : unchanged h1 h2 -> unchanged h2 h3 -> unchanged h1 h3.
Proof. intros H1 H2 a d H. auto. Qed.

Lemma unchanged_length h h' : unchanged h h' -> (length h <= length h')%nat.
Proof.
  intros H. destruct (decide (length h <= length h')%nat) as [|Hn]; [assumption|].
  destruct (lookup_lt_is_Some_2 h (length h') ltac:(lia)) as [d Hd].
  apply H, lookup_lt_Some in Hd. lia.
Qed.

Lemma unchanged_alloc h d : unchanged h (h ++ [d]).
Proof. intros a d' H. now apply lookup_app_l_Some. Qed.

Lemma unchanged_insert h0 h (m : nat) d :
  unchanged h0 h -> (length h0 <= m)%nat -> unchanged h0 (<[m := d]> h).
Proof.
  intros H Hm a d' Ha. rewrite list_lookup_insert_ne; [auto|].
  apply lookup_lt_Some in Ha. lia.
Qed.

Lemma unchanged_prefix h h' : unchanged h h' <-> h `prefix_of` h'.
Proof.
  split.
  - intros H. exists (drop (length h) h'). apply list_eq. intros i.
    destruct (decide (i < length h)%nat) as [Hi|Hi].
    + rewrite lookup_app_l by assumption.
      destruct (lookup_lt_is_Some_2 h i Hi) as [d Hd]. now rewrite Hd, (H _ _ Hd).
    + rewrite lookup_app_r, lookup_drop by lia. f_equal. lia.
  - intros [k ->] a d H. now apply lookup_app_l_Some.
Qed.

Lemma read_run a h :
  read a h =
  match h !! a with
  | Some d => (Ok d, h, [])
  | None => (Raise (OtherException "no such object"), h, [])
  end.
Proof. reflexivity. Qed.

Lemma assign_run a key v h :
  assign a key v h =
  match h !! a with
  | Some d => (Ok tt, <[a := <[key := v]> d]> h, [])
  | None => (Raise (OtherException "no such object"), h, [])
  end.
Proof. unfold assign. rewrite run_bind, read_run. now destruct (h !! a). Qed.

Lemma for_each_state {A} (I : heap -> Prop) (f : A -> M heap unit) l :
  (forall x h, I h -> I (state_of (f x h))) ->
  forall h, I h -> I (state_of (for_each f l h)).
Proof.
  intros Hf. induction l as [|x l IH]; intros h Hh; [exact Hh|].
  cbn [for_each]. rewrite run_bind. specialize (Hf x h Hh). unfold state_of in *.
  destruct (f x h) as [[[[]|e] h1] t1]; cbn in *; [|exact Hf].
  apply IH, Hf.
Qed.

(** ** [_deep_merge] assigns in new objects only *)

Lemma deep_merge_unchanged depth :
  forall base override h, unchanged h (state_of (_deep_merge depth base override h)).
Proof.
  induction depth as [|depth IH]; intros base override h; [apply unchanged_refl|].
  cbn [_deep_merge]. rewrite run_bind, read_run.
  destruct (h !! base) as [copy|]; [|apply unchanged_refl]. cbn.
  rewrite run_bind. cbn. rewrite run_bind, read_run.
  destruct ((h ++ [copy]) !! override) as [items|]; cbn; [|apply unchanged_alloc].
  rewrite run_bind.
  set (body := fun '(key, value) => _ : M heap unit).
  assert (H : unchanged h (state_of (for_each body (map_to_list items) (h ++ [copy])))).
  { apply (for_each_state (fun hc => unchanged h hc)); [|apply unchanged_alloc].
    intros [key value] hc Hc. unfold body. rewrite run_bind, read_run.
    destruct (hc !! length h) as [current|]; [|exact Hc]. cbn.
    assert (Hplain : forall v, unchanged h (state_of (assign (length h) key v hc))).
    { intros v. rewrite assign_run. destruct (hc !! length h); [|exact Hc].
      cbn. now apply unchanged_insert. }
    destruct value as [sc|v]; [apply Hplain|].
    destruct (current !! key) as [[sc|b]|]; [apply Hplain| |apply Hplain].
    rewrite run_bind. specialize (IH b v hc). unfold state_of in *.
    destruct (_deep_merge depth b v hc) as [[[sub|e] h1] t1]; cbn in *.
    - rewrite assign_run. destruct (h1 !! length h); cbn.
      + apply unchanged_insert; [|lia]. eapply unchanged_trans; eassumption.
      + eapply unchanged_trans; eassumption.
    - eapply unchanged_trans; eassumption. }
  unfold state_of in *.
  destruct (for_each body (map_to_list items) (h ++ [copy])) as [[[[]|e] h1] t1];
    exact H.
Qed.

(** ** Key paths across stores *)

Lemma lookup_path_unchanged h h' v p x :
  unchanged h h' -> lookup_path h v p = Some x -> lookup_path h' v p = Some x.
Proof.
  intros H. revert v. induction p as [|k p IH]; intros v; [trivial|].
  cbn. destruct v as [sc|a]; [trivial|].
  destruct (h !! a) as [d|] eqn:Ha; [|discriminate]. rewrite (H _ _ Ha). cbn.
  destruct (d !! k) as [v'|]; [|discriminate]. cbn. apply IH.
Qed.

Lemma silent_unchanged h h' v p :
  unchanged h h' -> silent h v p = true -> silent h' v p = true.
Proof.
  intros H. revert v. induction p as [|k p IH]; intros v; [trivial|].
  cbn. destruct v as [sc|a]; [trivial|].
  destruct (h !! a) as [d|] eqn:Ha; [|discriminate]. rewrite (H _ _ Ha).
  destruct (d !! k) as [v'|]; [apply IH|trivial].
Qed.

(** A path that never passes through the object [m] does not see what is
    assigned in [m]. *)
Lemma lookup_path_stable (m : nat) h1 h2 v p x :
  (forall a d, a <> m -> h1 !! a = Some d -> h2 !! a = Some d) ->
  (forall a d k, h1 !! a = Some d -> d !! k <> Some (Ref m)) ->
  v <> Ref m ->
  lookup_path h1 v p = Some x -> lookup_path h2 v p = Some x.
Proof.
  intros H Hm. revert v. induction p as [|k p IH]; intros v Hv; [trivial|].
  cbn. destruct v as [sc|a]; [trivial|].
  destruct (h1 !! a) as [d|] eqn:Ha; [|discriminate].
  rewrite (H a d ltac:(congruence) Ha). cbn.
  destruct (d !! k) as [v'|] eqn:Hk; [|discriminate]. cbn. apply IH.
  intros ->. exact (Hm _ _ _ Ha Hk).
Qed.

Lemma nests_unchanged h h' n a : unchanged h h' -> nests h n a -> nests h' n a.
Proof.
  intros Hun H. induction H as [n a d Ha _ IH]. apply (nests_obj h' n a d); auto.
Qed.

Lemma deep_merge_unfold depth base override :
  _deep_merge (S depth) base override =
  (copy ← read base;
   merged ← alloc copy;
   items ← read override;
   for_each (merge_item (_deep_merge depth) merged) (map_to_list items);;
   mret merged).
Proof. reflexivity. Qed.

Lemma closed_avoids h : closed h <-> avoids (fun _ => False) h.
Proof.
  split.
  - intros H a d k r Ha Hr. split; [eauto|tauto].
  - intros H a d k r Ha Hr. now destruct (H a d k r Ha Hr).
Qed.

Lemma avoids_weaken (X Y : nat -> Prop) h :
  (forall x, Y x -> X x) -> avoids X h -> avoids Y h.
Proof. intros H Hav a d k r Ha Hr. destruct (Hav a d k r Ha Hr). auto. Qed.

Section Loop.
Variable rec : nat -> nat -> M heap nat.
Hypothesis rec_spec : merge_spec rec.
Variable X : nat -> Prop.
Variable h : heap.
Variables bd od : gmap string hval.
Hypothesis X_bound : forall x, X x -> (x < length h)%nat.
Hypothesis od_refs :
  forall k r, od !! k = Some (Ref r) -> (r < length h)%nat /\ ~ X r.
#[local] Abbreviation m := (length h).
#[local] Abbreviation X' := (fun x => X x \/ x = length h).

Lemma loop_step done k v hc h' t :
  k ∉ done.*1 -> od !! k = Some v ->
  loop_inv X h bd done hc ->
  merge_item rec m (k, v) hc = (Ok tt, h', t) ->
  loop_inv X h bd (done ++ [(k, v)]) h'.
Proof.
  intros Hk Hv (Hun & Hav & md & Hm & Hrest & Hdone).
  pose proof (unchanged_length _ _ Hun) as Hlen.
  unfold merge_item. rewrite run_bind, read_run, Hm. cbn.
  assert (Hmhc : (m < length hc)%nat) by (eapply lookup_lt_Some; eassumption).
  assert (Hmk : md !! k = bd !! k) by auto.
  assert (Hnom : forall hx, avoids X' hx -> forall a d k', hx !! a = Some d ->
            d !! k' <> Some (Ref m)).
  { intros hx Hx a d k' Ha Hk'. destruct (Hx _ _ _ _ Ha Hk') as [_ Hn].
    apply Hn. now right. }
  (* the invariant after [merged[k] = w], from a store [h1] that extends [hc] *)
  assert (Hassign : forall h1 w,
    unchanged hc h1 -> avoids X' h1 ->
    (forall r, w = Ref r -> (r < length h1)%nat /\ ~ X' r) ->
    wins h h1 (bd !! k) v w ->
    loop_inv X h bd (done ++ [(k, v)]) (<[m := <[k := w]> md]> h1)).
  { intros h1 w H1 Hav1 Hw Hwins.
    assert (Hm1 : h1 !! m = Some md) by auto.
    assert (Hlen1 : (m < length h1)%nat) by (eapply lookup_lt_Some; eassumption).
    assert (Hstable : forall u p x, u <> Ref m ->
      lookup_path h1 u p = Some x ->
      lookup_path (<[m := <[k := w]> md]> h1) u p = Some x).
    { intros u p x Hu. apply (lookup_path_stable m); [|eauto|exact Hu].
      intros a d Ha Hd. now rewrite list_lookup_insert_ne by congruence. }
    split; [|split].
    - apply unchanged_insert; [|lia]. eapply unchanged_trans; eassumption.
    - intros a d k' r Ha Hr. rewrite length_insert.
      destruct (decide (a = m)) as [->|Hne].
      + rewrite list_lookup_insert_eq in Ha by assumption. injection Ha as <-.
        destruct (decide (k' = k)) as [->|Hkk].
        * rewrite lookup_insert_eq in Hr. injection Hr as ->. now apply Hw.
        * rewrite lookup_insert_ne in Hr by congruence. exact (Hav1 _ _ _ _ Hm1 Hr).
      + rewrite list_lookup_insert_ne in Ha by congruence. exact (Hav1 _ _ _ _ Ha Hr).
    - exists (<[k := w]> md). split; [now apply list_lookup_insert_eq|]. split.
      + intros k' Hk'. rewrite fmap_app, elem_of_app in Hk'. cbn in Hk'.
        rewrite lookup_insert_ne; [apply Hrest; tauto|].
        intros <-. apply Hk'. right. now left.
      + intros k' v' Hin. rewrite elem_of_app, list_elem_of_singleton in Hin.
        destruct Hin as [Hin|[= -> ->]].
        * assert (k' <> k).
          { intros ->. apply Hk. apply list_elem_of_fmap. now exists (k, v'). }
          destruct (Hdone _ _ Hin) as (w' & Hw' & Hwins').
          exists w'. split; [now rewrite lookup_insert_ne by congruence|].
          intros p s. destruct (Hwins' p s) as [W1 W2].
          assert (w' <> Ref m) by (intros ->; exact (Hnom _ Hav _ _ _ Hm Hw')).
          split; intros; apply Hstable; trivial;
            apply (lookup_path_unchanged hc h1); auto.
        * exists w. split; [apply lookup_insert_eq|].
          intros p s. destruct (Hwins p s) as [W1 W2].
          assert (w <> Ref m).
          { intros ->. destruct (Hw m eq_refl) as [_ Hn]. apply Hn. now right. }
          split; intros; apply Hstable; auto. }
  (* plain assignment of the override's value *)
  assert (Hplain : forall h2 t2,
    ~ (exists vo mb, v = Ref vo /\ bd !! k = Some (Ref mb)) ->
    assign m k v hc = (Ok tt, h2, t2) -> loop_inv X h bd (done ++ [(k, v)]) h2).
  { intros h2 t2 Hnot. rewrite assign_run, Hm. intros [= <- <-].
    apply Hassign; [apply unchanged_refl|exact Hav| |].
    - intros r ->. destruct (od_refs _ _ Hv) as [Hr Hn]. split; [lia|].
      intros [Hx| ->]; [auto|lia].
    - intros p s. split.
      + intros Hp. now apply (lookup_path_unchanged h hc).
      + intros Hs Hb. exfalso. apply Hnot.
        destruct p as [|k1 p]; [discriminate|].
        destruct v as [sc|vo]; [discriminate|].
        destruct (bd !! k) as [[sc|mb]|]; [discriminate| |discriminate]. eauto. }
  intros E. apply run_surj in E. revert E.
  destruct v as [sc|vo].
  { apply Hplain. intros (? & ? & [=] & _). }
  destruct (md !! k) as [[sc|mb]|] eqn:Hmdk.
  { apply Hplain. intros (? & ? & _ & E). congruence. }
  2: { apply Hplain. intros (? & ? & _ & E). congruence. }
  rewrite run_bind.
  destruct (rec mb vo hc) as [[[sub|e] h1] t1] eqn:Hrec; cbn; [|discriminate].
  assert (HX' : forall x, X' x -> (x < length hc)%nat).
  { intros x [Hx| ->]; [|assumption]. apply X_bound in Hx. lia. }
  destruct (rec_spec X' hc mb vo sub h1 t1 Hav HX' Hrec)
    as (Hun1 & Hsub & Hsublt & Hav1 & Hwins1).
  assert (Hm1 : h1 !! m = Some md) by auto.
  rewrite assign_run, Hm1. cbn. intros [= <- <-].
  apply Hassign; [exact Hun1| | |].
  - intros a d k' r Ha Hr. destruct (Hav1 _ _ _ _ Ha Hr) as [? Hn]. split; [assumption|].
    intros Hr'. apply Hn. now left.
  - intros r [= <-]. split; [assumption|]. intros Hs. apply HX' in Hs. lia.
  - intros p s. destruct (Hwins1 p s) as [W1 W2]. split.
    + intros Hp. apply W1. now apply (lookup_path_unchanged h hc).
    + intros Hs Hb. apply W2; [now apply (silent_unchanged h hc)|].
      rewrite <- Hmk in Hb. cbn in Hb. now apply (lookup_path_unchanged h hc).
Qed.

Lemma loop_run todo :
  forall done hc h' t,
    NoDup ((done ++ todo).*1) ->
    (forall k v, (k, v) ∈ todo -> od !! k = Some v) ->
    loop_inv X h bd done hc ->
    for_each (merge_item rec m) todo hc = (Ok tt, h', t) ->
    loop_inv X h bd (done ++ todo) h'.
Proof.
  induction todo as [|[k v] todo IH]; intros done hc h' t Hnd Hin Hinv.
  - intros [= <- <-]. now rewrite app_nil_r.
  - cbn [for_each]. rewrite run_bind.
    destruct (merge_item rec m (k, v) hc) as [[[[]|e] h1] t1] eqn:E; [|discriminate].
    intros E'. apply (f_equal fst) in E' as E''. cbn in E''.
    assert (Hstep : loop_inv X h bd (done ++ [(k, v)]) h1).
    { apply (loop_step done k v hc h1 t1); trivial.
      - rewrite fmap_app in Hnd. apply NoDup_app in Hnd as (_ & Hnd & _).
        intros Hk. apply (Hnd k Hk). cbn. now left.
      - apply Hin. now left. }
    replace (done ++ (k, v) :: todo) with ((done ++ [(k, v)]) ++ todo) in *
      by (now rewrite <- app_assoc).
    destruct (for_each (merge_item rec m) todo h1) as [[r2 h2] t2] eqn:E2.
    cbn in E'. injection E' as -> <- <-.
    apply (IH _ h1 _ t2); trivial.
    intros k' v' H'. apply Hin. now right.
Qed.

Lemma loop_init :
  forall b, h !! b = Some bd -> avoids X h -> loop_inv X h bd [] (h ++ [bd]).
Proof.
  intros b Hb Hav. split; [apply unchanged_alloc|]. split.
  - intros a d k r Ha Hr. rewrite length_app. cbn.
    assert (Hold : forall a0 d0, h !! a0 = Some d0 -> d0 !! k = Some (Ref r) ->
              (r < length h + 1)%nat /\ ~ X' r).
    { intros a0 d0 H0 Hr0. destruct (Hav _ _ _ _ H0 Hr0) as [Hlt Hn]. split; [lia|].
      intros [Hx| ->]; [auto|lia]. }
    destruct (decide (a < length h)%nat) as [Hlt|Hge].
    + rewrite lookup_app_l in Ha by assumption. eauto.
    + rewrite lookup_app_r in Ha by lia.
      destruct (a - length h)%nat; [|discriminate]. injection Ha as <-. eauto.
  - exists bd. split; [|split].
    + rewrite lookup_app_r by lia. now rewrite Nat.sub_diag.
    + trivial.
    + intros k v Hin. inversion Hin.
Qed.

Variable n : nat.
Hypothesis rec_returns :
  forall hc b' o', closed hc -> (b' < length hc)%nat -> nests hc n o' ->
    exists m' h' t', rec b' o' hc = (Ok m', h', t').
Hypothesis od_nests : forall k r, od !! k = Some (Ref r) -> nests h n r.

Lemma loop_step_returns done k v hc :
  od !! k = Some v -> loop_inv X h bd done hc ->
  exists h' t, merge_item rec m (k, v) hc = (Ok tt, h', t).
Proof.
  intros Hv (Hun & Hav & md & Hm & _).
  unfold merge_item. rewrite run_bind, read_run, Hm. cbn.
  assert (Hplain : forall w, exists h' t,
    (result_of (assign m k w hc), state_of (assign m k w hc),
     [] ++ trace_of (assign m k w hc)) = (Ok tt, h', t)).
  { intros w. rewrite assign_run, Hm. cbn. eauto. }
  destruct v as [sc|vo]; [apply Hplain|].
  destruct (md !! k) as [[sc|mb]|] eqn:Hk; [apply Hplain| |apply Hplain].
  rewrite run_bind.
  assert (Hc : closed hc).
  { apply closed_avoids. eapply avoids_weaken; [|exact Hav]. intros ? []. }
  destruct (rec_returns hc mb vo Hc) as (sub & h1 & t1 & E).
  - exact (Hc _ _ _ _ Hm Hk).
  - eapply nests_unchanged; [exact Hun|]. eauto.
  - rewrite E. cbn.
    assert (HX' : forall x, X' x -> (x < length hc)%nat).
    { intros x [Hx| ->].
      - apply X_bound in Hx. pose proof (unchanged_length _ _ Hun). lia.
      - eapply lookup_lt_Some; eassumption. }
    destruct (rec_spec X' hc mb vo sub h1 t1 Hav HX' E) as (Hun1 & _).
    rewrite assign_run, (Hun1 _ _ Hm). cbn. eauto.
Qed.

Lemma loop_returns todo :
  forall done hc,
    NoDup ((done ++ todo).*1) ->
    (forall k v, (k, v) ∈ todo -> od !! k = Some v) ->
    loop_inv X h bd done hc ->
    exists h' t, for_each (merge_item rec m) todo hc = (Ok tt, h', t).
Proof.
  induction todo as [|[k v] todo IH]; intros done hc Hnd Hin Hinv.
  - cbn. eauto.
  - cbn [for_each]. rewrite run_bind.
    destruct (loop_step_returns done k v hc) as (h1 & t1 & E);
      [apply Hin; now left|exact Hinv|].
    rewrite E.
    assert (Hstep : loop_inv X h bd (done ++ [(k, v)]) h1).
    { apply (loop_step done k v hc h1 t1); trivial.
      - rewrite fmap_app in Hnd. apply NoDup_app in Hnd as (_ & Hnd & _).
        intros Hk. apply (Hnd k Hk). cbn. now left.
      - apply Hin. now left. }
    replace (done ++ (k, v) :: todo) with ((done ++ [(k, v)]) ++ todo) in *
      by (now rewrite <- app_assoc).
    destruct (IH _ h1 Hnd ltac:(intros k' v' H'; apply Hin; now right) Hstep)
      as (h2 & t2 & E2).
    rewrite E2. cbn. eauto.
Qed.

End Loop.

(** ** What [_deep_merge] returns *)

Lemma deep_merge_spec depth : merge_spec (_deep_merge depth).
Proof.
  induction depth as [|depth IH]; intros X h b o m h' t Hav HX; [discriminate|].
  rewrite deep_merge_unfold, run_bind, read_run.
  destruct (h !! b) as [bd|] eqn:Hb; [|discriminate]. cbn.
  rewrite run_bind. cbn. rewrite run_bind, read_run.
  destruct ((h ++ [bd]) !! o) as [od|] eqn:Ho; [|discriminate]. cbn.
  rewrite run_bind.
  destruct (for_each _ _ _) as [[[[]|e] h1] t1] eqn:Hloop; [|discriminate].
  cbn. intros [= <- <- <-].
  assert (Hod : forall k r, od !! k = Some (Ref r) -> (r < length h)%nat /\ ~ X r).
  { intros k r Hr. destruct (decide (o < length h)%nat) as [Hlt|Hge].
    - rewrite lookup_app_l in Ho by assumption. exact (Hav _ _ _ _ Ho Hr).
    - rewrite lookup_app_r in Ho by lia.
      destruct (o - length h)%nat; [|discriminate]. injection Ho as <-.
      exact (Hav _ _ _ _ Hb Hr). }
  pose proof (loop_run (_deep_merge depth) IH X h bd od HX Hod (map_to_list od)
    [] (h ++ [bd]) h1 t1 (NoDup_fst_map_to_list od)
    (fun k v H => proj1 (elem_of_map_to_list od k v) H)
    (loop_init X h bd b Hb Hav) Hloop) as (Hun & Hav1 & md & Hm & Hrest & Hdone).
  cbn [app] in Hrest, Hdone.
  split; [exact Hun|]. split; [reflexivity|].
  split; [eapply lookup_lt_Some; eassumption|]. split; [exact Hav1|].
  intros p s. destruct p as [|k p]; [split; discriminate|]. cbn.
  destruct (h !! o) as [od'|] eqn:Ho'; [|split; discriminate].
  assert (od' = od) as ->.
  { pose proof (unchanged_alloc h bd _ _ Ho') as H'. congruence. }
  rewrite Hm. cbn. rewrite Hb. cbn.
  destruct (od !! k) as [v|] eqn:Hk; cbn.
  - destruct (Hdone k v ltac:(now apply elem_of_map_to_list)) as (w & -> & Hw).
    cbn. destruct (Hw p s) as [W1 W2]. split; [exact W1|].
    intros Hs Hbase. apply W2; [exact Hs|].
    destruct (bd !! k); [exact Hbase|discriminate].
  - split; [discriminate|]. intros _.
    rewrite Hrest.
    + destruct (bd !! k) as [vb|]; [|discriminate]. cbn.
      apply lookup_path_unchanged, Hun.
    + intros Hin. apply list_elem_of_fmap in Hin as [[k' v'] [-> Hin]].
      apply elem_of_map_to_list in Hin. cbn in Hk. congruence.
Qed.

(** With the depth the override needs, [_deep_merge] returns. *)
Lemma deep_merge_returns depth :
  forall h b o, closed h -> (b < length h)%nat -> nests h depth o ->
    exists m h' t, _deep_merge depth b o h = (Ok m, h', t).
Proof.
  induction depth as [|depth IH]; intros h b o Hc Hb Ho; [inversion Ho|].
  inversion Ho as [n a od Hod Hrefs]; subst.
  rewrite deep_merge_unfold, run_bind, read_run.
  destruct (lookup_lt_is_Some_2 h b Hb) as [bd Hbd]. rewrite Hbd. cbn.
  rewrite run_bind. cbn. rewrite run_bind, read_run.
  rewrite (unchanged_alloc h bd _ _ Hod). cbn. rewrite run_bind.
  pose proof (proj1 (closed_avoids h) Hc) as Hav.
  destruct (loop_returns (_deep_merge depth) (deep_merge_spec depth) (fun _ => False)
    h bd od ltac:(intros ? []) ltac:(intros k r Hr; split; [eauto|tauto])
    depth ltac:(intros hc b' o' H1 H2 H3; now apply IH) Hrefs
    (map_to_list od) [] (h ++ [bd]) (NoDup_fst_map_to_list od)
    (fun k v H => proj1 (elem_of_map_to_list od k v) H)
    (loop_init (fun _ => False) h bd b Hbd Hav)) as (h1 & t1 & E).
  rewrite E. cbn. eauto.
Qed.



(** ** [_load_yaml_file] and [_load_from_env] *)

Lemma closed_alloc_empty h : closed h -> closed (h ++ [∅]).
Proof.
  intros H a d k r Ha Hr. rewrite length_app. cbn.
  destruct (decide (a < length h)%nat) as [Hlt|Hge].
  - rewrite lookup_app_l in Ha by assumption. specialize (H _ _ _ _ Ha Hr). lia.
  - rewrite lookup_app_r in Ha by lia.
    destruct (a - length h)%nat; [|discriminate]. injection Ha as <-.
    now rewrite lookup_empty in Hr.
Qed.

Lemma load_yaml_file_spec f h a h' t :
  closed h -> (forall r, f = Document (Ref r) -> (r < length h)%nat) ->
  _load_yaml_file f h = (Ok a, h', t) ->
  closed h' /\ unchanged h h' /\ (a < length h')%nat.
Proof.
  intros Hc Hf.
  assert (Hnew : alloc ∅ h = (Ok a, h', t) ->
            closed h' /\ unchanged h h' /\ (a < length h')%nat).
  { intros [= <- <- <-]. split; [now apply closed_alloc_empty|].
    split; [apply unchanged_alloc|]. rewrite length_app. cbn. lia. }
  destruct f as [|e| |[sc|r]]; cbn; try exact Hnew; [discriminate|].
  intros [= <- <- <-]. split; [exact Hc|]. split; [apply unchanged_refl|]. auto.
Qed.

Section Environment.
Variable h0 : heap.
#[local] Abbreviation n0 := (length h0).

Lemma env_inv_assign hc a key v d :
  env_inv h0 hc -> (n0 <= a)%nat -> hc !! a = Some d -> made_since h0 hc v ->
  env_inv h0 (<[a := <[key := v]> d]> hc).
Proof.
  intros (Hun & Hc & Hlen & Hreg) Ha Hd Hv.
  pose proof (lookup_lt_Some _ _ _ Hd) as Halt.
  assert (Hstored : forall a' d' k r,
    <[a := <[key := v]> d]> hc !! a' = Some d' -> d' !! k = Some (Ref r) ->
    (r < length hc)%nat /\ ((n0 <= a')%nat -> (n0 <= r)%nat)).
  { intros a' d' k r Ha' Hr. destruct (decide (a' = a)) as [->|Hne].
    - rewrite list_lookup_insert_eq in Ha' by assumption. injection Ha' as <-.
      destruct (decide (k = key)) as [->|Hk].
      + rewrite lookup_insert_eq in Hr. injection Hr as ->. cbn in Hv. lia.
      + rewrite lookup_insert_ne in Hr by congruence. split; [eauto|]. intros _. eauto.
    - rewrite list_lookup_insert_ne in Ha' by congruence. split; eauto. }
  split; [apply unchanged_insert; [exact Hun|lia]|]. split; [|split].
  - intros a' d' k r Ha' Hr. rewrite length_insert. eapply Hstored; eassumption.
  - now rewrite length_insert.
  - intros a' d' k r Hge Ha' Hr. destruct (Hstored _ _ _ _ Ha' Hr) as [_ H]. auto.
Qed.

Lemma env_inv_alloc hc : env_inv h0 hc -> env_inv h0 (hc ++ [∅]).
Proof.
  intros (Hun & Hc & Hlen & Hreg).
  split; [eapply unchanged_trans; [exact Hun|apply unchanged_alloc]|].
  split; [now apply closed_alloc_empty|]. split; [rewrite length_app; cbn; lia|].
  intros a d k r Hge Ha Hr. destruct (decide (a < length hc)%nat) as [Hlt|Hnlt].
  - rewrite lookup_app_l in Ha by assumption. eauto.
  - rewrite lookup_app_r in Ha by lia.
    destruct (a - length hc)%nat; [|discriminate]. injection Ha as <-.
    now rewrite lookup_empty in Hr.
Qed.

Lemma descend_spec parts :
  forall d hc, env_inv h0 hc -> made_since h0 hc d ->
    env_inv h0 (state_of (descend d parts hc)) /\
    forall d', result_of (descend d parts hc) = Ok d' ->
      made_since h0 (state_of (descend d parts hc)) d'.
Proof.
  induction parts as [|part rest IH]; intros d hc Hinv Hd.
  - cbn. split; [exact Hinv|]. now intros d' [= <-].
  - cbn [descend]. destruct d as [sc|a]; [split; [exact Hinv|discriminate]|].
    cbn in Hd. rewrite run_bind, read_run.
    destruct (lookup_lt_is_Some_2 hc a ltac:(lia)) as [obj Hobj]. rewrite Hobj. cbn.
    destruct (obj !! part) as [d1|] eqn:Hpart.
    + assert (Hd1 : made_since h0 hc d1).
      { destruct d1 as [sc|r]; [exact I|]. cbn.
        destruct Hinv as (_ & Hc & _ & Hreg). split; [|eauto].
        apply (Hreg a obj part r); [lia|assumption..]. }
      destruct (IH d1 hc Hinv Hd1) as [H1 H2]. unfold result_of, state_of in *.
      destruct (descend d1 rest hc) as [[r1 s1] t1]. cbn in *. auto.
    + rewrite run_bind. cbn. rewrite run_bind, assign_run.
      assert (Hobj' : (hc ++ [∅]) !! a = Some obj) by (apply lookup_app_l_Some, Hobj).
      rewrite Hobj'. cbn.
      set (h2 := <[a := <[part := Ref (length hc)]> obj]> (hc ++ [∅])).
      assert (Hinv2 : env_inv h0 h2).
      { apply env_inv_assign; [now apply env_inv_alloc|lia|exact Hobj'|].
        cbn. rewrite length_app. cbn. destruct Hinv as (_ & _ & ? & _). lia. }
      assert (Hfresh : made_since h0 h2 (Ref (length hc))).
      { cbn. unfold h2. rewrite length_insert, length_app. cbn.
        destruct Hinv as (_ & _ & ? & _). lia. }
      destruct (IH (Ref (length hc)) h2 Hinv2 Hfresh) as [H1 H2].
      unfold result_of, state_of in *.
      destruct (descend (Ref (length hc)) rest h2) as [[r1 s1] t1]. cbn in *. auto.
Qed.

End Environment.

Lemma load_from_env_spec env_prefix environ h :
  closed h ->
  let r := _load_from_env env_prefix environ h in
  unchanged h (state_of r) /\ closed (state_of r) /\
  forall c, result_of r = Ok c -> (c < length (state_of r))%nat.
Proof.
  intros Hc. cbn zeta. unfold _load_from_env. rewrite run_bind. cbn.
  rewrite run_bind.
  set (body := fun '(key, value) => _ : M heap unit).
  assert (Hinv : env_inv h (state_of (for_each body environ (h ++ [∅])))).
  { apply (for_each_state (env_inv h)).
    - intros [key value] hc H. unfold body.
      destruct (String.prefix env_prefix key); [|exact H].
      rewrite run_bind.
      destruct (descend_spec h (removelast (env_path env_prefix key))
                  (Ref (length h)) hc H) as [H1 H2].
      { cbn. destruct H as (_ & _ & ? & _). lia. }
      unfold result_of, state_of in *.
      destruct (descend _ _ hc) as [[[d|e] h1] t1]; cbn in *; [|exact H1].
      destruct d as [sc|a]; [exact H1|]. specialize (H2 _ eq_refl). cbn in H2.
      rewrite assign_run.
      destruct (lookup_lt_is_Some_2 h1 a ltac:(lia)) as [obj Hobj]. rewrite Hobj. cbn.
      apply env_inv_assign; [exact H1|lia|exact Hobj|exact I].
    - split; [apply unchanged_alloc|]. split; [now apply closed_alloc_empty|].
      split; [rewrite length_app; cbn; lia|].
      intros a d k r Hge Ha Hr. rewrite lookup_app_r in Ha by lia.
      destruct (a - length h)%nat; [|discriminate]. injection Ha as <-.
      now rewrite lookup_empty in Hr. }
  unfold result_of, state_of in *.
  destruct (for_each body environ (h ++ [∅])) as [[[[]|e] h1] t1]; cbn in *;
    destruct Hinv as (Hun & Hcl & Hlen & _).
  - repeat split; trivial. now intros c [= <-].
  - repeat split; trivial. discriminate.
Qed.


Lemma split_dunder_nonempty s : split_dunder s <> [].
Proof.
  destruct s as [|c rest]; [discriminate|]. cbn.
  destruct (split_dunder rest); destruct c as [[] [] [] [] [] [] [] []];
    try discriminate; destruct rest as [|[[] [] [] [] [] [] [] []] rest']; discriminate.
Qed.


(** ** [load] *)

Lemma deep_merge_closed depth b o h m h' t :
  closed h -> _deep_merge depth b o h = (Ok m, h', t) ->
  unchanged h h' /\ closed h' /\ (m < length h')%nat /\
  wins h h' (Some (Ref b)) (Ref o) (Ref m).
Proof.
  intros Hc E.
  destruct (deep_merge_spec depth (fun _ => False) h b o m h' t
              (proj1 (closed_avoids h) Hc) ltac:(intros ? []) E)
    as (Hun & _ & Hlt & Hav & Hw).
  split; [exact Hun|]. split; [|split; [exact Hlt|exact Hw]].
  apply closed_avoids. eapply avoids_weaken; [|exact Hav]. intros ? [].
Qed.




Lemma closedb_closed h : closedb h = true -> closed h.
Proof.
  unfold closedb. rewrite forallb_forall. intros H a d k r Ha Hr.
  assert (Hin : In d h) by (apply list_elem_of_In, list_elem_of_lookup; eauto).
  specialize (H d Hin). rewrite forallb_forall in H.
  specialize (H (k, Ref r) ltac:(now apply list_elem_of_In, elem_of_map_to_list)).
  cbn in H. now apply Nat.ltb_lt.
Qed.

Lemma sample_files_in_heap name r :
  sample_files name = Document (Ref r) -> (r < length sample_heap)%nat.
Proof.
  unfold sample_files. destruct (String.eqb name "base.yaml").
  - intros [= <-]. cbn. lia.
  - destruct (String.eqb name "development.yaml"); [|discriminate].
    intros [= <-]. cbn. lia.
Qed.


(** ** Runs of the model *)

Example split_dunder_plain : split_dunder "db__port" = ["db"; "port"].
Proof. reflexivity. Qed.

Example split_dunder_three : split_dunder "a___b" = ["a"; "_b"].
Proof. reflexivity. Qed.

Example env_path_db_port :
  env_path (init_env_prefix "APP") "APP_DB__PORT" = ["db"; "port"].
Proof. reflexivity. Qed.

Example load_sample :
  let r := load 10 "APP_" sample_files
             sample_environ None sample_heap in
  result_of r = Ok 8%nat /\
  lookup_path (state_of r) (Ref 8) ["db"; "port"]
    = Some (Leaf (SInt 6000)) /\
  lookup_path (state_of r) (Ref 8) ["db"; "host"]
    = Some (Leaf (SStr "devbox")) /\
  lookup_path (state_of r) (Ref 8) ["debug"]
    = Some (Leaf (SBool true)) /\
  lookup_path (state_of r) (Ref 8) ["workers"]
    = Some (Leaf (SInt 4)).
Proof. vm_compute. repeat split; reflexivity. Qed.

(** * More properties of [loader.py] *)

From Stdlib Require Import DecimalString DecimalPos.

Import ConfigLoaderMore.

(** ** The shape of a merge *)

Lemma deep_merge_result depth b o h m h' t :
  _deep_merge depth b o h = (Ok m, h', t) -> m = length h.
Proof.
  destruct depth; [discriminate|]. rewrite deep_merge_unfold, run_bind, read_run.
  destruct (h !! b) as [bd|]; [|discriminate]. cbn.
  rewrite run_bind. cbn. rewrite run_bind, read_run.
  destruct ((h ++ [bd]) !! o) as [od|]; [|discriminate]. cbn.
  rewrite run_bind.
  destruct (for_each _ _ _) as [[[[]|e] h1] t1]; [|discriminate].
  cbn. now intros [= <- _ _].
Qed.

Section Shallow.
Variable depth : nat.
Variable h : heap.
Variable bd : gmap string hval.
#[local] Abbreviation mg := (length h).

(** The loop of [_deep_merge] after the items [done], as far as the
    entries of the copy go. *)
#[local] Abbreviation shape done hc :=
  (exists md, hc !! mg = Some md /\
     (forall k, k ∉ done.*1 -> md !! k = bd !! k) /\
     (forall k v, (k, v) ∈ done -> merged_entry mg bd md k v)).

Lemma shape_step done k v hc h' t :
  k ∉ done.*1 -> shape done hc ->
  merge_item (_deep_merge depth) mg (k, v) hc = (Ok tt, h', t) ->
  shape (done ++ [(k, v)]) h'.
Proof.
  intros Hk (md & Hm & Hrest & Hdone).
  pose proof (lookup_lt_Some _ _ _ Hm) as Hlt.
  unfold merge_item. rewrite run_bind, read_run, Hm. cbn.
  assert (Hkeep : forall (h1 : heap) w, h1 !! mg = Some md ->
            merged_entry mg bd (<[k := w]> md) k v ->
            shape (done ++ [(k, v)]) (<[mg := <[k := w]> md]> h1)).
  { intros h1 w Hm1 Hw. exists (<[k := w]> md).
    split; [apply list_lookup_insert_eq; eapply lookup_lt_Some, Hm1|]. split.
    - intros k' Hk'. rewrite fmap_app, elem_of_app in Hk'. cbn in Hk'.
      rewrite lookup_insert_ne; [apply Hrest; tauto|].
      intros <-. apply Hk'. right. now left.
    - intros k' v' Hin. rewrite elem_of_app, list_elem_of_singleton in Hin.
      destruct Hin as [Hin|[= -> ->]]; [|exact Hw].
      assert (k' <> k).
      { intros ->. apply Hk. apply list_elem_of_fmap. now exists (k, v'). }
      specialize (Hdone _ _ Hin). unfold merged_entry in *.
      now rewrite lookup_insert_ne by congruence. }
  assert (Hplain : forall h2 t2,
    ~ (exists vo mb, v = Ref vo /\ bd !! k = Some (Ref mb)) ->
    assign mg k v hc = (Ok tt, h2, t2) -> shape (done ++ [(k, v)]) h2).
  { intros h2 t2 Hnot. rewrite assign_run, Hm. intros [= <- <-].
    apply Hkeep; [exact Hm|]. unfold merged_entry. rewrite lookup_insert_eq.
    destruct v as [sc|vo]; [reflexivity|].
    destruct (bd !! k) as [[sc|mb]|]; try reflexivity. exfalso. eauto. }
  rewrite (Hrest k Hk).
  intros E. apply run_surj in E. revert E.
  destruct v as [sc|vo].
  { apply Hplain. intros (? & ? & [=] & _). }
  destruct (bd !! k) as [[sc|mb]|] eqn:Hbk.
  { apply Hplain. intros (? & ? & _ & E). congruence. }
  2: { apply Hplain. intros (? & ? & _ & E). congruence. }
  rewrite run_bind.
  destruct (_deep_merge depth mb vo hc) as [[[sub|e] h1] t1] eqn:Hrec; cbn; [|discriminate].
  pose proof (deep_merge_result _ _ _ _ _ _ _ Hrec) as ->.
  pose proof (deep_merge_unchanged depth mb vo hc) as Hun. rewrite Hrec in Hun. cbn in Hun.
  rewrite assign_run, (Hun _ _ Hm). cbn. intros [= <- <-].
  apply Hkeep; [now apply Hun|]. unfold merged_entry. rewrite Hbk, lookup_insert_eq. eauto.
Qed.

Lemma shape_run todo :
  forall done hc h' t,
    NoDup ((done ++ todo).*1) -> shape done hc ->
    for_each (merge_item (_deep_merge depth) mg) todo hc = (Ok tt, h', t) ->
    shape (done ++ todo) h'.
Proof.
  induction todo as [|[k v] todo IH]; intros done hc h' t Hnd Hinv.
  - intros [= <- <-]. now rewrite app_nil_r.
  - cbn [for_each]. rewrite run_bind.
    destruct (merge_item (_deep_merge depth) mg (k, v) hc) as [[[[]|e] h1] t1] eqn:E;
      [|discriminate].
    intros E'.
    assert (Hstep : shape (done ++ [(k, v)]) h1).
    { apply (shape_step done k v hc h1 t1); trivial.
      rewrite fmap_app in Hnd. apply NoDup_app in Hnd as (_ & Hnd & _).
      intros Hk. apply (Hnd k Hk). cbn. now left. }
    replace (done ++ (k, v) :: todo) with ((done ++ [(k, v)]) ++ todo) in *
      by (now rewrite <- app_assoc).
    destruct (for_each (merge_item (_deep_merge depth) mg) todo h1) as [[r2 h2] t2] eqn:E2.
    cbn in E'. injection E' as -> <- <-.
    now apply (IH _ h1 _ t2).
Qed.

End Shallow.

(** [_deep_merge] copies one level only.  The result is a new object; under
    a key that [override] lacks it holds what [base] holds, the very same
    object when that is a dictionary; under a key of [override] it holds
    the value of [override], again the same object, unless both sides hold
    a dictionary there, and then it holds a new object.  So the keys of the
    result are those of [base] and of [override], and the result shares
    every dictionary that was not merged with one of its inputs. *)
Theorem deep_merge_shallow depth b o h m h' t bd od :
  h !! b = Some bd -> h !! o = Some od ->
  _deep_merge depth b o h = (Ok m, h', t) ->
  m = length h /\
  exists md, h' !! m = Some md /\
    forall k,
      match od !! k with
      | None => md !! k = bd !! k
      | Some v => merged_entry (length h) bd md k v
      end.
Proof.
  intros Hb Ho E. split; [eapply deep_merge_result, E|].
  destruct depth; [discriminate|]. revert E.
  rewrite deep_merge_unfold, run_bind, read_run, Hb. cbn.
  rewrite run_bind. cbn. rewrite run_bind, read_run, (unchanged_alloc h bd _ _ Ho). cbn.
  rewrite run_bind.
  destruct (for_each _ _ _) as [[[[]|e] h1] t1] eqn:Hloop; [|discriminate].
  cbn. intros [= <- <- <-].
  destruct (shape_run depth h bd (map_to_list od) [] (h ++ [bd]) h1 t1
              (NoDup_fst_map_to_list od)) as (md & Hm & Hrest & Hdone).
  - exists bd. split; [|split].
    + rewrite lookup_app_r by lia. now rewrite Nat.sub_diag.
    + trivial.
    + intros k v Hin. inversion Hin.
  - exact Hloop.
  - exists md. split; [exact Hm|]. intros k. cbn [app] in *.
    destruct (od !! k) as [v|] eqn:Hk.
    + apply Hdone. now apply elem_of_map_to_list.
    + apply Hrest. intros Hin. apply list_elem_of_fmap in Hin as [[k' v'] [-> Hin]].
      apply elem_of_map_to_list in Hin. cbn in Hk. congruence.
Qed.

(** The sample files: [db] is merged into a new object, [debug] and
    [workers] are taken as they are. *)
Lemma deep_merge_shallow_witness :
  exists md, state_of (_deep_merge 10 1 3 sample_heap) !! 4%nat = Some md /\
    md !! "debug" = Some (Leaf (SBool false)) /\
    md !! "workers" = Some (Leaf (SInt 4)) /\
    exists sub, md !! "db" = Some (Ref sub) /\ (4 < sub)%nat.
Proof.
  destruct (_deep_merge 10 1 3 sample_heap) as [[r h'] t] eqn:E.
  assert (Er : r = Ok 4%nat).
  { apply (f_equal (fun x => x.1.1)) in E. cbn [fst] in E. rewrite <- E.
    vm_compute. reflexivity. }
  subst r.
  destruct (deep_merge_shallow 10 1 3 sample_heap 4 h' t _ _ eq_refl eq_refl E)
    as (_ & md & Hm & Hk).
  exists md. split; [exact Hm|].
  split; [exact (Hk "debug")|]. split; [exact (Hk "workers")|]. exact (Hk "db").
Defined.

(** ** The depth of the recursion *)

Lemma nestsb_nests h n : forall a, nestsb h n a = true -> nests h n a.
Proof.
  induction n as [|n IH]; intros a; [discriminate|]. cbn.
  destruct (h !! a) as [d|] eqn:Ha; [|discriminate]. rewrite forallb_forall. intros H.
  apply (nests_obj h n a d Ha). intros k r Hr. apply IH.
  apply (H (k, Ref r)). now apply list_elem_of_In, elem_of_map_to_list.
Qed.

(** The two sample files nest two deep. *)
Lemma deep_merge_returns_witness :
  exists m h' t, _deep_merge 2 1 3 sample_heap = (Ok m, h', t).
Proof.
  apply (deep_merge_returns 2 sample_heap 1%nat 3%nat).
  - apply closedb_closed. reflexivity.
  - cbn. lia.
  - apply nestsb_nests. reflexivity.
Defined.

(** ** Environment variables *)



Lemma run_id {S A} (x : res A * S * list effect) :
  (result_of x, state_of x, [] ++ trace_of x) = x.
Proof. now destruct x as [[? ?] ?]. Qed.


Lemma for_each_filter {A} (f : A -> M heap unit) (keep : A -> bool) l :
  (forall x h, keep x = false -> f x h = (Ok tt, h, [])) ->
  forall h, for_each f l h = for_each f (List.filter keep l) h.
Proof.
  intros Hf. induction l as [|x l IH]; intros h; [reflexivity|]. cbn [for_each List.filter].
  destruct (keep x) eqn:E.
  - cbn [for_each]. rewrite !run_bind. destruct (f x h) as [[[[]|e] h1] t1]; [|reflexivity].
    now rewrite IH.
  - rewrite run_bind, (Hf x h E), IH. apply run_id.
Qed.

Lemma other_variables_are_ignored_aux env_prefix environ h :
  _load_from_env env_prefix environ h =
  _load_from_env env_prefix
    (List.filter (fun kv => String.prefix env_prefix kv.1) environ) h.
Proof.
  unfold _load_from_env. rewrite !run_bind. cbn. rewrite !run_bind.
  rewrite (for_each_filter _ (fun kv => String.prefix env_prefix kv.1) environ); [reflexivity|].
  intros [key value] hc. cbn. now intros ->.
Qed.

(** [_load_from_env] does with the whole environment what it does with
    the variables whose names begin with the prefix: the other variables
    change neither the result nor the store. *)
Theorem other_variables_are_ignored env_prefix environ h :
  _load_from_env env_prefix environ h =
  _load_from_env env_prefix
    (List.filter (fun kv => String.prefix env_prefix kv.1) environ) h.
Proof. apply other_variables_are_ignored_aux. Qed.

(** *** Names and key paths *)

Lemma split_dunder_unfold c rest :
  split_dunder (String c rest) =
  match rest with
  | String c' rest' =>
      if Ascii.eqb c "_" && Ascii.eqb c' "_" then EmptyString :: split_dunder rest'
      else match split_dunder rest with
           | part :: parts => String c part :: parts
           | [] => [String c EmptyString]
           end
  | EmptyString => [String c EmptyString]
  end.
Proof.
  destruct rest as [|c' rest'].
  - destruct c as [[] [] [] [] [] [] [] []]; reflexivity.
  - destruct c as [[] [] [] [] [] [] [] []]; try reflexivity.
    destruct c' as [[] [] [] [] [] [] [] []]; reflexivity.
Qed.

Lemma join_dunder_cons c part parts :
  join_dunder (String c part :: parts) = String c (join_dunder (part :: parts)).
Proof. destruct parts; reflexivity. Qed.

Lemma split_dunder_join_cons s :
  join_dunder (split_dunder s) = s /\
  forall c, join_dunder (split_dunder (String c s)) = String c s.
Proof.
  induction s as [|c' rest' [IH1 IH2]].
  - split; [reflexivity|]. intros c. now rewrite split_dunder_unfold.
  - split; [apply IH2|]. intros c. rewrite split_dunder_unfold.
    destruct (Ascii.eqb c "_" && Ascii.eqb c' "_") eqn:E.
    + apply andb_true_iff in E as [->%Ascii.eqb_eq ->%Ascii.eqb_eq].
      pose proof (split_dunder_nonempty rest') as Hne.
      destruct (split_dunder rest') as [|part parts]; [contradiction|].
      change (join_dunder (EmptyString :: part :: parts))
        with ("__" ++ join_dunder (part :: parts))%string.
      now rewrite IH1.
    + pose proof (split_dunder_nonempty (String c' rest')) as Hne.
      specialize (IH2 c').
      destruct (split_dunder (String c' rest')) as [|part parts]; [contradiction|].
      now rewrite join_dunder_cons, IH2.
Qed.

(** Two variables are assigned at the same key path exactly when their
    names agree after the prefix, up to the case of letters: the key path
    of a variable, joined by double underscores, is its name after the
    prefix in lower case. *)
Theorem env_path_same_iff env_prefix key key' :
  (join_dunder (env_path env_prefix key) =
   lower (drop_chars (String.length env_prefix) key)) /\
  (env_path env_prefix key = env_path env_prefix key' <->
   lower (drop_chars (String.length env_prefix) key) =
   lower (drop_chars (String.length env_prefix) key')).
Proof.
  unfold env_path. split; [apply split_dunder_join_cons|]. split.
  - intros H. apply (f_equal join_dunder) in H.
    now rewrite !(proj1 (split_dunder_join_cons _)) in H.
  - now intros ->.
Qed.

Lemma append_cons c (p rest : string) : (String c p ++ rest)%string = String c (p ++ rest).
Proof. reflexivity. Qed.

Lemma append_assoc (a b c : string) : ((a ++ b) ++ c)%string = (a ++ (b ++ c))%string.
Proof.
  induction a as [|x a IH]; [reflexivity|]. rewrite !append_cons. now rewrite IH.
Qed.

Lemma prefix_app p rest : String.prefix p (p ++ rest) = true.
Proof.
  induction p as [|c p IH]; [now destruct rest|]. rewrite append_cons. simpl.
  destruct (ascii_dec c c); [exact IH|contradiction].
Qed.

Lemma prefix_drop p : forall key,
  String.prefix p key = true -> key = (p ++ drop_chars (String.length p) key)%string.
Proof.
  induction p as [|c p IH]; intros key.
  - intros _. now destruct key.
  - destruct key as [|c' key]; [discriminate|]. simpl.
    destruct (ascii_dec c c') as [->|]; [|discriminate].
    intros H. rewrite append_cons. simpl. f_equal. now apply IH.
Qed.

Lemma drop_chars_app p rest : drop_chars (String.length p) (p ++ rest) = rest.
Proof.
  induction p as [|c p IH]; [now destruct rest|]. rewrite append_cons. exact IH.
Qed.

(** [ConfigLoader(config_dir, env_prefix)] raises [FileNotFoundError]
    when [config_dir] is not a directory.  Otherwise the loader reads the
    variables named [env_prefix], one underscore, and a rest, and no other;
    the key path of such a variable is the rest, in lower case, split at
    double underscores. *)
Theorem init_prefix_selects env_prefix :
  __init__ false env_prefix = Raise FileNotFoundError /\
  exists prefix, __init__ true env_prefix = Ok prefix /\
    (forall key, String.prefix prefix key = true <->
                 exists rest, key = (env_prefix ++ "_" ++ rest)%string) /\
    (forall rest, env_path prefix (env_prefix ++ "_" ++ rest) = split_dunder (lower rest)).
Proof.
  split; [reflexivity|]. exists (init_env_prefix env_prefix). split; [reflexivity|].
  unfold init_env_prefix. split.
  - intros key. split.
    + intros H. apply prefix_drop in H. rewrite append_assoc in H. eauto.
    + intros [rest ->]. rewrite <- append_assoc. apply prefix_app.
  - intros rest. unfold env_path. rewrite <- append_assoc. now rewrite drop_chars_app.
Qed.

(** ** Nothing to override *)

Lemma load_yaml_file_plain f h :
  plain f = true -> _load_yaml_file f h = (Ok (length h), h ++ [∅], []).
Proof. destruct f as [|e| |[sc|r]]; try discriminate; reflexivity. Qed.

Lemma deep_merge_empty depth b o h bd :
  h !! b = Some bd -> h !! o = Some ∅ ->
  _deep_merge (S depth) b o h = (Ok (length h), h ++ [bd], []).
Proof.
  intros Hb Ho. rewrite deep_merge_unfold, run_bind, read_run, Hb. cbn.
  rewrite run_bind. cbn. rewrite run_bind, read_run, (unchanged_alloc h bd _ _ Ho). cbn.
  rewrite run_bind, map_to_list_empty. reflexivity.
Qed.

Lemma load_from_env_empty env_prefix environ h :
  Forall (fun kv : string * string => String.prefix env_prefix kv.1 = false) environ ->
  _load_from_env env_prefix environ h = (Ok (length h), h ++ [∅], []).
Proof.
  intros H. rewrite other_variables_are_ignored_aux.
  replace (List.filter _ environ) with (@nil (string * string)); [reflexivity|].
  induction H as [|[k v] l Hk _ IH]; [reflexivity|]. cbn in *. now rewrite Hk.
Qed.

(** With no file for the environment and no variable with the prefix,
    [load] returns a new dictionary with the entries of the dictionary in
    [base.yaml], or an empty one when [base.yaml] is missing or does not
    hold a dictionary; missing files are not an error.  One nested call is
    all the recursion needs. *)
Theorem load_without_overrides depth env_prefix files environ env h bd :
  match files "base.yaml" with
  | Document (Ref b) => h !! b = Some bd
  | f => plain f = true /\ bd = ∅
  end ->
  plain (files (default (environ_get environ "APP_ENV" "development") env ++ ".yaml")%string)
    = true ->
  Forall (fun kv : string * string => String.prefix env_prefix kv.1 = false) environ ->
  exists final h',
    load (S depth) env_prefix files environ env h = (Ok final, h', []) /\
    h' !! final = Some bd /\ (length h < final)%nat /\ unchanged h h'.
Proof.
  intros Hbase Henv Hvars. unfold load.
  assert (Hb : exists b ha, _load_yaml_file (files "base.yaml") h = (Ok b, ha, []) /\
            ha !! b = Some bd /\ unchanged h ha /\ (length h <= length ha)%nat).
  { assert (Hnew : bd = ∅ -> exists b ha, alloc ∅ h = (Ok b, ha, []) /\
              ha !! b = Some bd /\ unchanged h ha /\ (length h <= length ha)%nat).
    { intros ->. exists (length h), (h ++ [∅]). split; [reflexivity|].
      split; [rewrite lookup_app_r by lia; now rewrite Nat.sub_diag|].
      split; [apply unchanged_alloc|rewrite length_app; lia]. }
    destruct (files "base.yaml") as [|e| |[sc|b]]; cbn in Hbase.
    - apply Hnew, Hbase.
    - now destruct Hbase.
    - apply Hnew, Hbase.
    - apply Hnew, Hbase.
    - exists b, h. split; [reflexivity|]. split; [exact Hbase|].
      split; [apply unchanged_refl|lia]. }
  destruct Hb as (b & ha & Eb & Hbd & Hua & Hla).
  rewrite run_bind, Eb. cbn -[_deep_merge _load_from_env _load_yaml_file].
  rewrite run_bind, (load_yaml_file_plain _ ha Henv).
  cbn -[_deep_merge _load_from_env _load_yaml_file].
  rewrite run_bind, (deep_merge_empty depth b (length ha) (ha ++ [∅]) bd).
  2: { now apply lookup_app_l_Some. }
  2: { rewrite lookup_app_r by lia. now rewrite Nat.sub_diag. }
  cbn -[_deep_merge _load_from_env _load_yaml_file].
  rewrite run_bind, (load_from_env_empty _ _ _ Hvars).
  cbn -[_deep_merge _load_from_env _load_yaml_file].
  set (h1 := (ha ++ [∅]) ++ [bd]).
  rewrite (deep_merge_empty depth (length (ha ++ [∅])) (length h1) (h1 ++ [∅]) bd).
  - cbn. eexists. eexists. split; [reflexivity|]. split; [|split].
    + rewrite lookup_app_r by lia. now rewrite Nat.sub_diag.
    + unfold h1. rewrite !length_app. cbn. lia.
    + intros a d Ha. apply lookup_app_l_Some, lookup_app_l_Some. unfold h1.
      apply lookup_app_l_Some, lookup_app_l_Some. auto.
  - apply lookup_app_l_Some. unfold h1. rewrite lookup_app_r by lia.
    now rewrite Nat.sub_diag.
  - rewrite lookup_app_r by lia. now rewrite Nat.sub_diag.
Qed.

(** The sample [base.yaml] alone. *)
Lemma load_without_overrides_witness :
  exists final h',
    load 1 "APP_" (fun name => if String.eqb name "base.yaml" then Document (Ref 1%nat)
                               else NoSuchFile)
      [("HOME", "/root")] None sample_heap = (Ok final, h', []) /\
    h' !! final = Some {[ "db" := Ref 0%nat; "debug" := Leaf (SBool false) ]}.
Proof.
  destruct (load_without_overrides 0 "APP_"
              (fun name => if String.eqb name "base.yaml" then Document (Ref 1%nat)
                           else NoSuchFile)
              [("HOME", "/root")] None sample_heap
              {[ "db" := Ref 0%nat; "debug" := Leaf (SBool false) ]})
    as (final & h' & E & Hf & _).
  - reflexivity.
  - reflexivity.
  - repeat constructor.
  - exists final, h'. split; [exact E|exact Hf].
Defined.

(** ** Integers in decimal *)











(** ** One variable after the others *)

Lemma load_from_env_unfold env_prefix environ h :
  _load_from_env env_prefix environ h =
  (config ← alloc ∅;
   for_each (set_variable env_prefix config) environ;;
   mret config) h.
Proof. reflexivity. Qed.

Lemma for_each_app {A} (f : A -> M heap unit) l1 l2 h :
  for_each f (l1 ++ l2) h = (for_each f l1;; for_each f l2) h.
Proof.
  revert h. induction l1 as [|x l1 IH]; intros h; cbn [app for_each].
  - rewrite run_bind. cbn. symmetry. apply run_id.
  - rewrite !run_bind. destruct (f x h) as [[[[]|e] h1] t1]; cbn; [|reflexivity].
    rewrite IH, !run_bind.
    destruct (for_each f l1 h1) as [[[[]|e] h2] t2]; cbn; [|reflexivity].
    now rewrite app_assoc.
Qed.

Lemma grown_initial h : grown (length h) (h ++ [∅]).
Proof.
  assert (H : forall a (d : gmap string hval) k r,
    (length h <= a)%nat -> (h ++ [∅]) !! a = Some d -> d !! k = Some (Ref r) -> False).
  { intros a d k r Hge Ha Hr. rewrite lookup_app_r in Ha by lia.
    destruct (a - length h)%nat; [|discriminate]. injection Ha as <-.
    now rewrite lookup_empty in Hr. }
  split.
  - intros a d k r Hge Ha Hr. destruct (H _ _ _ _ Hge Ha Hr).
  - intros a1 d1 k1 a2 d2 k2 r H1 _ Ha1 _ Hr1 _. destruct (H _ _ _ _ H1 Ha1 Hr1).
Qed.

Lemma lookup_alloc_empty (hc : heap) a (d : gmap string hval) k v :
  (hc ++ [∅]) !! a = Some d -> d !! k = Some v -> hc !! a = Some d.
Proof.
  intros Ha Hk. destruct (decide (a < length hc)%nat) as [Hlt|Hnlt].
  - now rewrite lookup_app_l in Ha by assumption.
  - rewrite lookup_app_r in Ha by lia.
    destruct (a - length hc)%nat; [|discriminate]. injection Ha as <-.
    now rewrite lookup_empty in Hk.
Qed.

Lemma grown_alloc n0 hc : grown n0 hc -> grown n0 (hc ++ [∅]).
Proof.
  intros [Hr Hu]. split.
  - intros a d k r Hge Ha Hk. rewrite length_app. cbn.
    pose proof (lookup_alloc_empty _ _ _ _ _ Ha Hk) as Ha'.
    specialize (Hr _ _ _ _ Hge Ha' Hk). lia.
  - intros a1 d1 k1 a2 d2 k2 r H1 H2 Ha1 Ha2 Hr1 Hr2.
    apply (Hu a1 d1 k1 a2 d2 k2 r); trivial; eapply lookup_alloc_empty; eassumption.
Qed.

(** Storing a leaf, or a reference to a younger object that nothing
    refers to yet. *)
Lemma grown_assign n0 hc a key v d :
  grown n0 hc -> hc !! a = Some d ->
  (forall r, v = Ref r ->
     (a < r < length hc)%nat /\
     forall a' d' k', (n0 <= a')%nat -> hc !! a' = Some d' -> d' !! k' <> Some (Ref r)) ->
  grown n0 (<[a := <[key := v]> d]> hc).
Proof.
  intros [Hr Hu] Hd Hv.
  pose proof (lookup_lt_Some _ _ _ Hd) as Halt.
  assert (Hold : forall a' d' k r,
    <[a := <[key := v]> d]> hc !! a' = Some d' -> d' !! k = Some (Ref r) ->
    (a' = a /\ k = key /\ v = Ref r) \/
    (exists d0, hc !! a' = Some d0 /\ d0 !! k = Some (Ref r))).
  { intros a' d' k r Ha' Hk. destruct (decide (a' = a)) as [->|Hne].
    - rewrite list_lookup_insert_eq in Ha' by assumption. injection Ha' as <-.
      destruct (decide (k = key)) as [->|Hkk].
      + rewrite lookup_insert_eq in Hk. injection Hk as ->. auto.
      + rewrite lookup_insert_ne in Hk by congruence. eauto.
    - rewrite list_lookup_insert_ne in Ha' by congruence. eauto. }
  split.
  - intros a' d' k r Hge Ha' Hk. rewrite length_insert.
    destruct (Hold _ _ _ _ Ha' Hk) as [(-> & -> & ->)|(d0 & H0 & H1)].
    + now apply Hv.
    + eauto.
  - intros a1 d1 k1 a2 d2 k2 r H1 H2 Ha1 Ha2 Hr1 Hr2.
    destruct (Hold _ _ _ _ Ha1 Hr1) as [(-> & -> & E1)|(e1 & G1 & G2)];
      destruct (Hold _ _ _ _ Ha2 Hr2) as [(-> & -> & E2)|(e2 & G3 & G4)].
    + auto.
    + destruct (Hv r E1) as [_ Hfresh]. destruct (Hfresh _ _ _ H2 G3 G4).
    + destruct (Hv r E2) as [_ Hfresh]. destruct (Hfresh _ _ _ H1 G1 G2).
    + eapply Hu; eassumption.
Qed.

(** The loop over [path[:-1]], from an object made since the store had
    [n0] objects: it touches no older object, raises nothing but
    [TypeError], and what it returns is what the parts lead to. *)
Lemma descend_path n0 parts :
  forall hc a, grown n0 hc -> (n0 <= a < length hc)%nat ->
    let r := descend (Ref a) parts hc in
    grown n0 (state_of r) /\ (length hc <= length (state_of r))%nat /\
    (forall a', (a' < a)%nat -> state_of r !! a' = hc !! a') /\
    (forall e, result_of r = Raise e -> e = TypeError) /\
    forall d', result_of r = Ok d' ->
      lookup_path (state_of r) (Ref a) parts = Some d' /\
      forall e, d' = Ref e -> (a <= e < length (state_of r))%nat.
Proof.
  induction parts as [|part rest IH]; intros hc a Hr Ha; cbn zeta.
  - cbn. split; [exact Hr|]. split; [lia|]. split; [trivial|]. split; [discriminate|].
    intros d' [= <-]. split; [reflexivity|]. intros e [= <-]. lia.
  - cbn [descend]. rewrite run_bind, read_run.
    destruct (lookup_lt_is_Some_2 hc a ltac:(lia)) as [obj Hobj]. rewrite Hobj. cbn.
    destruct (obj !! part) as [[sc|r']|] eqn:Hp.
    + destruct rest as [|part' rest']; cbn.
      * split; [exact Hr|]. split; [lia|]. split; [trivial|]. split; [discriminate|].
        intros d' [= <-]. split; [|discriminate]. now rewrite Hobj; cbn; rewrite Hp.
      * split; [exact Hr|]. split; [lia|]. split; [trivial|].
        split; [now intros e [= <-]|discriminate].
    + destruct (proj1 Hr a obj part r' ltac:(lia) Hobj Hp) as [H1 H2].
      destruct (IH hc r' Hr ltac:(lia)) as (I1 & I2 & I3 & I4 & I5). cbn zeta in *.
      unfold result_of, state_of in *.
      destruct (descend (Ref r') rest hc) as [[r1 s1] t1]. cbn in *.
      split; [exact I1|]. split; [exact I2|].
      split; [intros a' Ha'; apply I3; lia|]. split; [exact I4|].
      intros d' Hd'. destruct (I5 d' Hd') as [I6 I7]. split.
      * rewrite (I3 a ltac:(lia)), Hobj. cbn. rewrite Hp. exact I6.
      * intros e He. specialize (I7 e He). lia.
    + rewrite run_bind. cbn. rewrite run_bind, assign_run.
      assert (Hobj' : (hc ++ [∅]) !! a = Some obj) by (apply lookup_app_l_Some, Hobj).
      rewrite Hobj'. cbn.
      set (h2 := <[a := <[part := Ref (length hc)]> obj]> (hc ++ [∅])).
      assert (Hlen2 : length h2 = S (length hc)).
      { unfold h2. rewrite length_insert, length_app. cbn. lia. }
      assert (Hr2 : grown n0 h2).
      { apply grown_assign; [now apply grown_alloc|exact Hobj'|].
        intros r [= <-]. split; [rewrite length_app; cbn; lia|].
        intros a' d' k' Hge Ha' Hk'.
        pose proof (lookup_alloc_empty _ _ _ _ _ Ha' Hk') as Ha''.
        destruct (proj1 Hr _ _ _ _ Hge Ha'' Hk'). lia. }
      destruct (IH h2 (length hc) Hr2 ltac:(lia)) as (I1 & I2 & I3 & I4 & I5).
      cbn zeta in *. unfold result_of, state_of in *.
      destruct (descend (Ref (length hc)) rest h2) as [[r1 s1] t1]. cbn in *.
      split; [exact I1|]. split; [lia|]. split; [|split; [exact I4|]].
      * intros a' Ha'. rewrite I3 by lia. unfold h2.
        rewrite list_lookup_insert_ne by lia. apply lookup_app_l. lia.
      * intros d' Hd'. destruct (I5 d' Hd') as [I6 I7]. split.
        -- rewrite (I3 a ltac:(lia)). unfold h2.
           rewrite list_lookup_insert_eq by (rewrite length_app; cbn; lia). cbn.
           rewrite lookup_insert_eq. exact I6.
        -- intros e He. specialize (I7 e He). lia.
Qed.

Lemma path_rises n0 h p :
  rising n0 h ->
  forall a e, (n0 <= a)%nat -> lookup_path h (Ref a) p = Some (Ref e) -> (a <= e)%nat.
Proof.
  intros Hr. induction p as [|k p IH]; intros a e Ha; cbn.
  - intros [= <-]. lia.
  - destruct (h !! a) as [d|] eqn:Hd; [|discriminate]. cbn.
    destruct (d !! k) as [[sc|r]|] eqn:Hk; cbn; [now destruct p| |discriminate].
    destruct (Hr a d k r Ha Hd Hk) as [H1 _]. intros H. apply IH in H; lia.
Qed.

(** Assigning at the end of a key path, among objects that refer to
    younger objects only. *)
Lemma lookup_path_assign_end n0 h p last x :
  rising n0 h ->
  forall a e obj, (n0 <= a)%nat ->
    lookup_path h (Ref a) p = Some (Ref e) -> h !! e = Some obj ->
    lookup_path (<[e := <[last := x]> obj]> h) (Ref a) (p ++ [last]) = Some x.
Proof.
  intros Hr. induction p as [|k p IH]; intros a e obj Ha; cbn [app lookup_path].
  - intros [= <-] Hobj.
    rewrite list_lookup_insert_eq by (eapply lookup_lt_Some, Hobj). cbn.
    now rewrite lookup_insert_eq.
  - destruct (h !! a) as [d|] eqn:Hd; [|discriminate]. cbn.
    destruct (d !! k) as [[sc|r]|] eqn:Hk; cbn; [now destruct p| |discriminate].
    destruct (Hr a d k r Ha Hd Hk) as [H1 _]. intros Hp Hobj.
    pose proof (path_rises n0 h p Hr r e ltac:(lia) Hp).
    rewrite list_lookup_insert_ne by lia. rewrite Hd. cbn. rewrite Hk. cbn.
    apply IH; [lia|assumption..].
Qed.

Lemma set_variable_spec n0 env_prefix c kv hc :
  grown n0 hc -> (n0 <= c < length hc)%nat ->
  let r := set_variable env_prefix c kv hc in
  grown n0 (state_of r) /\ (length hc <= length (state_of r))%nat /\
  (forall e, result_of r = Raise e -> e = TypeError).
Proof.
  intros Hr Hc. destruct kv as [key value]. cbn zeta. unfold set_variable.
  destruct (String.prefix env_prefix key); [|cbn; split; [exact Hr|split; [lia|discriminate]]].
  rewrite run_bind.
  destruct (descend_path n0 (removelast (env_path env_prefix key)) hc c Hr Hc)
    as (I1 & I2 & _ & I4 & I5). cbn zeta in *.
  unfold result_of, state_of in *.
  destruct (descend (Ref c) _ hc) as [[[d|e] h1] t1]; cbn in *.
  - destruct d as [sc|a]; cbn; [split; [exact I1|split; [lia|now intros e [= <-]]]|].
    destruct (I5 _ eq_refl) as [_ I6]. specialize (I6 a eq_refl).
    rewrite assign_run.
    destruct (lookup_lt_is_Some_2 h1 a ltac:(lia)) as [obj Hobj]. rewrite Hobj. cbn.
    split; [|split; [rewrite length_insert; lia|discriminate]].
    apply grown_assign; [exact I1|exact Hobj|discriminate].
  - split; [exact I1|]. split; [lia|]. intros e' [= <-]. now apply I4.
Qed.

Lemma for_each_variables n0 env_prefix c environ :
  forall hc, grown n0 hc -> (n0 <= c < length hc)%nat ->
    let r := for_each (set_variable env_prefix c) environ hc in
    grown n0 (state_of r) /\ (length hc <= length (state_of r))%nat /\
    (forall e, result_of r = Raise e -> e = TypeError).
Proof.
  induction environ as [|kv environ IH]; intros hc Hr Hc; cbn zeta.
  - cbn. split; [exact Hr|]. split; [lia|discriminate].
  - cbn [for_each]. rewrite run_bind.
    destruct (set_variable_spec n0 env_prefix c kv hc Hr Hc) as (I1 & I2 & I3).
    cbn zeta in *. unfold result_of, state_of in *.
    destruct (set_variable env_prefix c kv hc) as [[[[]|e] h1] t1]; cbn in *.
    + destruct (IH h1 I1 ltac:(lia)) as (J1 & J2 & J3). cbn zeta in *.
      unfold result_of, state_of in *.
      destruct (for_each _ environ h1) as [[r2 h2] t2]. cbn in *.
      split; [exact J1|]. split; [lia|exact J3].
    + split; [exact I1|]. split; [lia|]. intros e' [= <-]. now apply I3.
Qed.

Lemma for_each_other_variables env_prefix c post h :
  Forall (fun kv : string * string => String.prefix env_prefix kv.1 = false) post ->
  for_each (set_variable env_prefix c) post h = (Ok tt, h, []).
Proof.
  induction 1 as [|[k v] post Hk _ IH]; [reflexivity|]. cbn [for_each].
  rewrite run_bind. cbn in *. rewrite Hk. cbn. now rewrite IH.
Qed.

Lemma for_each_then_others env_prefix c x post h :
  Forall (fun kv : string * string => String.prefix env_prefix kv.1 = false) post ->
  for_each (set_variable env_prefix c) (x :: post) h = set_variable env_prefix c x h.
Proof.
  intros H. cbn [for_each]. rewrite run_bind.
  destruct (set_variable env_prefix c x h) as [[[[]|e] h1] t1]; [|reflexivity].
  rewrite for_each_other_variables by exact H. cbn. now rewrite app_nil_r.
Qed.

Lemma set_variable_prefixed env_prefix c key value h :
  String.prefix env_prefix key = true ->
  set_variable env_prefix c (key, value) h =
  (d ← descend (Ref c) (removelast (env_path env_prefix key));
   match d with
   | Ref a => assign a (List.last (env_path env_prefix key) EmptyString)
                (Leaf (_parse_value value))
   | Leaf _ => raise TypeError
   end) h.
Proof. intros H. unfold set_variable. now rewrite H. Qed.

(** The state after the variables [pre], from the store [h]. *)
Lemma variables_before env_prefix pre rest h config h' t :
  _load_from_env env_prefix (pre ++ rest) h = (Ok config, h', t) ->
  config = length h /\
  exists h1 t1,
    for_each (set_variable env_prefix config) pre (h ++ [∅]) = (Ok tt, h1, t1) /\
    grown config h1 /\ (config < length h1)%nat /\
    exists t2, for_each (set_variable env_prefix config) rest h1 = (Ok tt, h', t2).
Proof.
  rewrite load_from_env_unfold, run_bind. cbn [alloc]. cbn beta iota.
  rewrite run_bind, for_each_app, run_bind.
  destruct (for_each_variables (length h) env_prefix (length h) pre (h ++ [∅])
              (grown_initial h) ltac:(rewrite length_app; cbn; lia)) as (I1 & I2 & _).
  cbn zeta in *. unfold result_of, state_of, trace_of in *.
  destruct (for_each _ pre (h ++ [∅])) as [[[[]|e] h1] t1] eqn:E1; cbn [fst snd] in *;
    [|discriminate].
  rewrite length_app in I2. cbn in I2.
  destruct (for_each _ rest h1) as [[[[]|e] h2] t2] eqn:E2; cbn [fst snd]; [|discriminate].
  cbn. intros [= <- <- _]. split; [reflexivity|].
  exists h1, t1. split; [exact E1|]. split; [exact I1|]. split; [lia|]. eauto.
Qed.

Lemma variable_set n0 env_prefix c key value h1 h2 t :
  grown n0 h1 -> (n0 <= c < length h1)%nat ->
  String.prefix env_prefix key = true ->
  set_variable env_prefix c (key, value) h1 = (Ok tt, h2, t) ->
  lookup_path h2 (Ref c) (env_path env_prefix key) = Some (Leaf (_parse_value value)).
Proof.
  intros I1 I2 Hp E. rewrite set_variable_prefixed, run_bind in E by exact Hp.
  destruct (descend_path n0 (removelast (env_path env_prefix key)) h1 c I1 I2)
    as (J1 & _ & _ & _ & J5).
  cbn zeta in *. unfold result_of, state_of, trace_of in *.
  destruct (descend (Ref c) _ h1) as [[[d|e] h3] t3]; cbn [fst snd] in *; [|discriminate].
  destruct (J5 d eq_refl) as [J6 _].
  destruct d as [sc|a]; [discriminate|].
  rewrite assign_run in E. destruct (h3 !! a) as [obj|] eqn:Hobj; [|discriminate].
  injection E as <- _.
  pose proof (lookup_path_assign_end n0 h3 (removelast (env_path env_prefix key))
    (List.last (env_path env_prefix key) EmptyString) (Leaf (_parse_value value))
    (proj1 J1) c a obj ltac:(lia) J6 Hobj) as H.
  rewrite <- app_removelast_last in H; [exact H|]. apply split_dunder_nonempty.
Qed.

(** ** A variable below another *)

Lemma descend_leaf p :
  forall d hc x q,
    lookup_path hc d p = Some (Leaf x) ->
    descend d (p ++ q) hc =
    (match q with [] => Ok (Leaf x) | _ => Raise TypeError end, hc, []).
Proof.
  induction p as [|k p IH]; intros d hc x q; cbn [lookup_path app].
  - intros [= ->]. now destruct q.
  - destruct d as [sc|a]; [discriminate|].
    destruct (hc !! a) as [obj|] eqn:Ha; [|discriminate]. cbn.
    destruct (obj !! k) as [v'|] eqn:Hk; [|discriminate]. cbn. intros H.
    cbn [descend]. rewrite run_bind, read_run, Ha. cbn. rewrite Hk.
    rewrite (IH v' hc x q H). now destruct q.
Qed.

Lemma load_from_env_raises env_prefix environ h e :
  result_of (_load_from_env env_prefix environ h) = Raise e -> e = TypeError.
Proof.
  rewrite load_from_env_unfold, run_bind. cbn [alloc]. cbn beta iota. rewrite run_bind.
  destruct (for_each_variables (length h) env_prefix (length h) environ (h ++ [∅])
              (grown_initial h) ltac:(rewrite length_app; cbn; lia)) as (_ & _ & I3).
  cbn zeta in *. unfold result_of, state_of, trace_of in *.
  destruct (for_each _ environ (h ++ [∅])) as [[[[]|e'] h1] t1]; cbn [fst snd] in *;
    [discriminate|].
  intros [= <-]. now apply I3.
Qed.

(** A variable whose key path goes on below the key path of the variable
    before it makes [_load_from_env] raise [TypeError]: the first has put a
    leaf where the second needs a dictionary.  (A variable can also fail
    earlier in the list; [_load_from_env] raises nothing but
    [TypeError].) *)
Theorem variable_below_leaf_raises env_prefix pre key value key' value' post q h :
  String.prefix env_prefix key = true ->
  String.prefix env_prefix key' = true ->
  env_path env_prefix key' = env_path env_prefix key ++ q -> q <> [] ->
  result_of
    (_load_from_env env_prefix (pre ++ (key, value) :: (key', value') :: post) h)
  = Raise TypeError.
Proof.
  intros Hp Hp' Hq Hne.
  destruct (_load_from_env env_prefix (pre ++ (key, value) :: (key', value') :: post) h)
    as [[[config|e] h'] t] eqn:E; cbn.
  2: { f_equal. apply (load_from_env_raises env_prefix
         (pre ++ (key, value) :: (key', value') :: post) h). now rewrite E. }
  exfalso.
  apply variables_before in E as (-> & h1 & t1 & _ & I1 & I2 & t2 & E).
  cbn [for_each] in E. rewrite run_bind in E.
  destruct (set_variable_spec (length h) env_prefix (length h) (key, value) h1 I1
              ltac:(lia)) as (J1 & J2 & _).
  cbn zeta in *. unfold result_of, state_of, trace_of in *.
  destruct (set_variable env_prefix (length h) (key, value) h1) as [[[[]|e] h2] t3] eqn:E1;
    cbn [fst snd] in *; [|discriminate].
  pose proof (variable_set (length h) env_prefix (length h) key value h1 h2 t3 I1
                ltac:(lia) Hp E1) as Hleaf.
  rewrite run_bind, set_variable_prefixed, run_bind, Hq in E by exact Hp'.
  rewrite removelast_app, (descend_leaf _ _ _ _ _ Hleaf) in E by exact Hne.
  cbn in E. destruct (removelast q); discriminate.
Qed.

(** [APP_DB=x] and then [APP_DB__PORT=1]. *)
Lemma variable_below_leaf_raises_witness :
  result_of (_load_from_env "APP_" [("APP_DB", "x"); ("APP_DB__PORT", "1")] sample_heap)
  = Raise TypeError.
Proof.
  exact (variable_below_leaf_raises "APP_" [] "APP_DB" "x" "APP_DB__PORT" "1" [] ["port"]
           sample_heap eq_refl eq_refl eq_refl ltac:(discriminate)).
Defined.

(** ** How [load] fails *)

Lemma merge_loop_raises depth (X : nat -> Prop) (h : heap) (bd od : gmap string hval) :
  (forall hc b o e, closed hc -> (b < length hc)%nat -> (o < length hc)%nat ->
     result_of (_deep_merge depth b o hc) = Raise e -> e = RecursionError) ->
  (forall x, X x -> (x < length h)%nat) ->
  (forall k r, od !! k = Some (Ref r) -> (r < length h)%nat /\ ~ X r) ->
  forall todo done hc e,
    NoDup ((done ++ todo).*1) ->
    (forall k v, (k, v) ∈ todo -> od !! k = Some v) ->
    loop_inv X h bd done hc ->
    result_of (for_each (merge_item (_deep_merge depth) (length h)) todo hc) = Raise e ->
    e = RecursionError.
Proof.
  intros IH HX Hod. induction todo as [|[k v] todo IHt]; intros done hc e Hnd Hin Hinv.
  - discriminate.
  - cbn [for_each]. rewrite run_bind.
    destruct (merge_item (_deep_merge depth) (length h) (k, v) hc) as [[[[]|e1] h1] t1] eqn:E.
    + assert (Hstep : loop_inv X h bd (done ++ [(k, v)]) h1).
      { apply (loop_step (_deep_merge depth) (deep_merge_spec depth) X h bd od HX Hod
                 done k v hc h1 t1); trivial.
        - rewrite fmap_app in Hnd. apply NoDup_app in Hnd as (_ & Hnd & _).
          intros Hk. apply (Hnd k Hk). cbn. now left.
        - apply Hin. now left. }
      replace (done ++ (k, v) :: todo) with ((done ++ [(k, v)]) ++ todo) in Hnd
        by (now rewrite <- app_assoc).
      cbn. apply (IHt _ h1 e Hnd); [|exact Hstep].
      intros k' v' H'. apply Hin. now right.
    + cbn. intros [= <-]. revert E.
      destruct Hinv as (Hun & Hav & md & Hm & _).
      unfold merge_item. rewrite run_bind, read_run, Hm. cbn.
      assert (Hplain : forall w,
        (result_of (assign (length h) k w hc), state_of (assign (length h) k w hc),
         [] ++ trace_of (assign (length h) k w hc)) = (Raise e1, h1, t1) ->
        e1 = RecursionError).
      { intros w. rewrite assign_run, Hm. discriminate. }
      destruct v as [sc|vo]; [apply Hplain|].
      destruct (md !! k) as [[sc|mb]|] eqn:Hk; [apply Hplain| |apply Hplain].
      rewrite run_bind.
      assert (Hc : closed hc).
      { apply closed_avoids. eapply avoids_weaken; [|exact Hav]. intros ? []. }
      pose proof (unchanged_length _ _ Hun) as Hlen.
      assert (Hvo : (vo < length hc)%nat).
      { destruct (Hod k vo (Hin k (Ref vo) ltac:(now left))). lia. }
      pose proof (IH hc mb vo) as Hrec.
      pose proof (deep_merge_unchanged depth mb vo hc) as Hun1.
      unfold result_of, state_of in *.
      destruct (_deep_merge depth mb vo hc) as [[[sub|e2] h2] t2]; cbn in *.
      * rewrite assign_run, (Hun1 _ _ Hm). discriminate.
      * intros [= <- _ _]. apply Hrec; trivial. exact (Hc _ _ _ _ Hm Hk).
Qed.

Lemma deep_merge_raises depth :
  forall h b o e, closed h -> (b < length h)%nat -> (o < length h)%nat ->
    result_of (_deep_merge depth b o h) = Raise e -> e = RecursionError.
Proof.
  induction depth as [|depth IH]; intros h b o e Hc Hb Ho; [now intros [= <-]|].
  rewrite deep_merge_unfold, run_bind, read_run.
  destruct (lookup_lt_is_Some_2 h b Hb) as [bd Hbd]. rewrite Hbd. cbn.
  rewrite run_bind. cbn. rewrite run_bind, read_run.
  destruct (lookup_lt_is_Some_2 h o Ho) as [od Hod].
  rewrite (unchanged_alloc h bd _ _ Hod). cbn. rewrite run_bind.
  pose proof (proj1 (closed_avoids h) Hc) as Hav.
  pose proof (merge_loop_raises depth (fun _ => False) h bd od IH ltac:(intros ? [])
    ltac:(intros k r Hr; split; [eauto|tauto]) (map_to_list od) [] (h ++ [bd]) e
    (NoDup_fst_map_to_list od) (fun k v H => proj1 (elem_of_map_to_list od k v) H)
    (loop_init (fun _ => False) h bd b Hbd Hav)) as Hloop.
  unfold result_of in *.
  destruct (for_each _ (map_to_list od) (h ++ [bd])) as [[[[]|e'] h1] t1]; cbn in *;
    [discriminate|].
  intros [= <-]. now apply Hloop.
Qed.

(** In a closed store whose files are documents of that store, [load]
    raises in three ways only: a configuration file that exists cannot be
    opened, and the error is raised as it is; the dictionaries nest deeper
    than the interpreter lets [_deep_merge] recurse; or an environment
    variable needs a dictionary where another has put a leaf.  A missing
    file and a file that is not YAML are no errors. *)
Theorem load_failures depth env_prefix files environ env h e :
  closed h ->
  (forall name r, files name = Document (Ref r) -> (r < length h)%nat) ->
  result_of (load depth env_prefix files environ env h) = Raise e ->
  (exists name, files name = Unreadable e) \/ e = RecursionError \/ e = TypeError.
Proof.
  intros Hc Hfiles. unfold load.
  set (name := (_ ++ ".yaml")%string).
  rewrite run_bind.
  destruct (_load_yaml_file (files "base.yaml") h) as [[[base|e1] ha] ta] eqn:Ea.
  2: { cbn. intros [= <-]. left. exists "base.yaml".
       destruct (files "base.yaml") as [|e2| |[sc|r]]; try discriminate.
       now injection Ea as ->. }
  destruct (load_yaml_file_spec _ _ _ _ _ Hc (Hfiles "base.yaml") Ea) as (Hca & Hua & Hba).
  cbn -[_deep_merge _load_from_env _load_yaml_file]. rewrite run_bind.
  destruct (_load_yaml_file (files name) ha) as [[[envc|e1] hb] tb] eqn:Eb.
  2: { cbn. intros [= <-]. left. exists name.
       destruct (files name) as [|e2| |[sc|r]]; try discriminate.
       now injection Eb as ->. }
  assert (Hfb : forall r, files name = Document (Ref r) -> (r < length ha)%nat).
  { intros r Hr. pose proof (Hfiles _ _ Hr). pose proof (unchanged_length _ _ Hua). lia. }
  destruct (load_yaml_file_spec _ _ _ _ _ Hca Hfb Eb) as (Hcb & Hub & Heb).
  pose proof (unchanged_length _ _ Hub) as Hlb.
  cbn -[_deep_merge _load_from_env _load_yaml_file]. rewrite run_bind.
  pose proof (deep_merge_raises depth hb base envc) as R1. unfold result_of in R1.
  destruct (_deep_merge depth base envc hb) as [[[merged|e1] h1] t1] eqn:E1.
  2: { cbn. intros [= <-]. right. left. apply R1; trivial. lia. }
  destruct (deep_merge_closed _ _ _ _ _ _ _ Hcb E1) as (Hu1 & Hc1 & Hm1 & _).
  cbn -[_deep_merge _load_from_env _load_yaml_file]. rewrite run_bind.
  pose proof (load_from_env_raises env_prefix environ h1) as R2.
  pose proof (load_from_env_spec env_prefix environ h1 Hc1) as H2.
  cbn zeta in H2. unfold result_of, state_of in R2, H2.
  destruct (_load_from_env env_prefix environ h1) as [[[vars|e1] h2] t2] eqn:E2.
  2: { cbn. intros [= <-]. right. right. now apply R2. }
  cbn in H2. destruct H2 as (Hu2 & Hc2 & Hv2). specialize (Hv2 _ eq_refl).
  pose proof (unchanged_length _ _ Hu2) as Hl2.
  cbn -[_deep_merge _load_from_env _load_yaml_file].
  pose proof (deep_merge_raises depth h2 merged vars e Hc2 ltac:(lia) Hv2) as R3.
  unfold result_of in *.
  destruct (_deep_merge depth merged vars h2) as [[[final|e1] h3] t3]; cbn in *;
    [discriminate|].
  intros [= <-]. right. left. now apply R3.
Qed.

(** The sample configuration, with a variable below another. *)
Lemma load_failures_witness :
  result_of (load 10 "APP_" sample_files [("APP_DB", "x"); ("APP_DB__PORT", "1")] None
               sample_heap) = Raise TypeError.
Proof.
  destruct (load_failures 10 "APP_" sample_files [("APP_DB", "x"); ("APP_DB__PORT", "1")]
              None sample_heap TypeError (closedb_closed sample_heap eq_refl)
              sample_files_in_heap) as [[name H]|[H|H]].
  - vm_compute. reflexivity.
  - unfold sample_files in H. destruct (String.eqb name "base.yaml"); [discriminate|].
    destruct (String.eqb name "development.yaml"); discriminate.
  - discriminate.
  - vm_compute. reflexivity.
Defined.

(** ** A variable and the later ones *)











